(** * Game of War: a shallow embedding of [gameoflife/gameofwar.py]

    The development follows the Python module: the classes [Cell] and
    [Team], the [GameOfWar] object with its property, cell and team
    dictionaries, the loaders, the neighbourhood query, the round update
    and the main loop.

    Python values are modelled as follows.
    - [int] is [Z] (unbounded).
    - [str] is [string]; the text files are taken as lists of lines.
    - A [dict] is an association list in insertion order (Python dictionaries
      iterate in insertion order and the round update depends on it).
    - A [set] is a duplicate-free list; the order in which Python iterates it
      is not fixed by the language, so the round update takes it as a
      parameter.
    - An exception is a constructor of [exn]; a method that can raise returns
      an [outcome], which keeps the object state reached when it raised,
      since Python does not roll mutations back.
    - A [Team] object is addressed by its [team_id] (its hash and equality);
      its fields live in the field maps [team_view] and [team_score] of the
      game, so that every cell of a team sees the same score. *)

From Stdlib Require Import String Ascii ZArith NArith List Bool Lia.
From Stdlib Require Import Permutation FinFun Sorted.
Import ListNotations.

Local Open Scope Z_scope.

Set Implicit Arguments.

(** ** Python protocol of dictionary keys: [__hash__] and [__eq__] *)

Class PyKey (K : Type) := { keq : K -> K -> bool }.

Class PyKeyLaws (K : Type) `{PyKey K} :=
  keq_spec : forall a b : K, reflect (a = b) (keq a b).

Arguments PyKeyLaws K {_}.

Definition pos := (Z * Z)%type.

Definition pos_eqb (p q : pos) : bool :=
  (fst p =? fst q) && (snd p =? snd q).

#[export] Instance PyKey_pos : PyKey pos := {| keq := pos_eqb |}.
#[export] Instance PyKey_string : PyKey string := {| keq := String.eqb |}.
#[export] Instance PyKey_N : PyKey N := {| keq := N.eqb |}.

(** ** Insertion-ordered dictionaries *)

Module PyDict.
Section Dict.
Context {K V : Type} `{PyKey K}.

Definition dict := list (K * V).

Definition keys (d : dict) : list K := map fst d.
Definition values (d : dict) : list V := map snd d.

(** [d[k]], [None] standing for KeyError *)
Fixpoint get (d : dict) (k : K) : option V :=
  match d with
  | [] => None
  | (k', v) :: d' => if keq k k' then Some v else get d' k
  end.

(** [k in d] *)
Definition mem (d : dict) (k : K) : bool :=
  match get d k with Some _ => true | None => false end.

(** [d[k] = v]: an existing key keeps its place, a new one goes last *)
Fixpoint set (d : dict) (k : K) (v : V) : dict :=
  match d with
  | [] => [(k, v)]
  | (k', v') :: d' =>
      if keq k k' then (k', v) :: d' else (k', v') :: set d' k v
  end.

(** [del d[k]], [None] standing for KeyError *)
Fixpoint del (d : dict) (k : K) : option dict :=
  match d with
  | [] => None
  | (k', v') :: d' =>
      if keq k k' then Some d'
      else match del d' k with
           | Some d'' => Some ((k', v') :: d'')
           | None => None
           end
  end.

End Dict.
Arguments dict : clear implicits.
End PyDict.

Import PyDict (dict).

(** ** Python exceptions and outcomes *)

Inductive exn : Type :=
| ValueError | TypeError | KeyError | IndexError | AttributeError
| ZeroDivisionError.

(** The result of running a method on an object in state [S]: it returned
    (with a value of type [A]) or it raised; either way the object is left
    in some state. *)
Inductive outcome (S A : Type) : Type :=
| Done (s : S) (a : A)
| Raised (s : S) (e : exn).

Arguments Done {S A} s a.
Arguments Raised {S A} s e.

Definition state_of {S A} (o : outcome S A) : S :=
  match o with Done s _ => s | Raised s _ => s end.

Definition raised {S A} (o : outcome S A) : option exn :=
  match o with Done _ _ => None | Raised _ e => Some e end.

Definition bind {S A B} (o : outcome S A) (k : S -> A -> outcome S B)
  : outcome S B :=
  match o with
  | Done s a => k s a
  | Raised s e => Raised s e
  end.

(** [for x in l: body], stopping at the first exception *)
Fixpoint for_each {S X} (body : S -> X -> outcome S unit) (l : list X) (s : S)
  : outcome S unit :=
  match l with
  | [] => Done s tt
  | x :: l' => bind (body s x) (fun s' _ => for_each body l' s')
  end.

(** [range(lo, hi)] *)
Definition py_range (lo hi : Z) : list Z :=
  map (fun i => lo + Z.of_nat i) (seq 0 (Z.to_nat (hi - lo))).

(** ** [cell.py] and [team.py] *)

(** A reference to a [Team] object: its [team_id], by which [Team.__hash__]
    and [Team.__eq__] go. *)
Definition Team := N.

(** The private fields of the class [Cell]. Cells are kept as values: the
    one field a cell ever mutates is its age, and [update] is called exactly
    once on each cell object in a round, on its way into the next store. *)
Record Cell : Type := mkCell {
  cell_x : Z;
  cell_y : Z;
  cell_team : Team;
  cell_age : Z
}.

Definition position (c : Cell) : pos := (cell_x c, cell_y c).

(** [Cell.update]: the aged cell and whether it is still alive *)
Definition update (c : Cell) : Cell * bool :=
  let c' := mkCell (cell_x c) (cell_y c) (cell_team c) (cell_age c - 1) in
  (c', cell_age c' >? 0).

(** ** The [GameOfWar] object *)

(** [self.properties]: [load_defaults] creates the seven keys, nothing adds
    or removes one, and [set_property] stores a value only after the
    validator of the key accepted it, so every key keeps the type of its
    default. *)
Record Properties : Type := mkProperties {
  width : Z;
  height : Z;
  refresh : Z;
  death_age : Z;
  win_round : Z;
  to_kill : Z;
  output : string
}.

Record GameOfWar : Type := mkGame {
  properties : Properties;
  cells : dict pos Cell;          (* self.cells: position -> Cell *)
  teams : dict string Team;       (* self.teams: view -> Team *)
  team_view : Team -> string;     (* the field __view of each Team object *)
  team_score : Team -> Z;         (* the field score of each Team object *)
  next_uuid : N                   (* uuid4: the next identity not yet given *)
}.

Definition load_defaults_properties : Properties :=
  {| width := 30; height := 30; refresh := 4; death_age := 4;
     win_round := 512; to_kill := 3; output := "true" |}.

Definition with_properties (g : GameOfWar) (p : Properties) : GameOfWar :=
  mkGame p (cells g) (teams g) (team_view g) (team_score g) (next_uuid g).

Definition with_cells (g : GameOfWar) (c : dict pos Cell) : GameOfWar :=
  mkGame (properties g) c (teams g) (team_view g) (team_score g) (next_uuid g).

Definition with_teams (g : GameOfWar) (t : dict string Team) : GameOfWar :=
  mkGame (properties g) (cells g) t (team_view g) (team_score g) (next_uuid g).

(** [team.score = v] *)
Definition with_score (g : GameOfWar) (t : Team) (v : Z) : GameOfWar :=
  mkGame (properties g) (cells g) (teams g) (team_view g)
         (fun t' => if N.eqb t' t then v else team_score g t') (next_uuid g).

(** [GameOfWar.__init__], and [reset] *)
Definition init : GameOfWar :=
  mkGame load_defaults_properties [] [] (fun _ => EmptyString) (fun _ => 0) 0%N.

(** ** [_get_neighbours] *)

(** The body of the inner loop, for the offsets [y_offset] and [x_offset] *)
Definition neighbour_step (g : GameOfWar) (x y y_offset : Z)
    (acc : list Cell * list pos) (x_offset : Z) : list Cell * list pos :=
  let '(alive, dead) := acc in
  (* Every position not including the current position. *)
  if (y_offset =? 0) && (x_offset =? 0) then (alive, dead)
  else
    let new_x := x + x_offset in
    let new_y := y + y_offset in
    (* Positions within the boundaries. *)
    if ((new_x >=? 0) && (new_x <? width (properties g)))
       && ((new_y >=? 0) && (new_y <? height (properties g)))
    then match PyDict.get (cells g) (new_x, new_y) with
         | Some c => (alive ++ [c], dead)
         | None => (alive, dead ++ [(new_x, new_y)])
         end
    else (alive, dead).

Definition _get_neighbours (g : GameOfWar) (x y : Z) : list Cell * list pos :=
  fold_left (fun acc y_offset =>
               fold_left (neighbour_step g x y y_offset) (py_range (-1) 2) acc)
            (py_range (-1) 2) ([], []).

(** The specification's wording of the neighbourhood: offsets in
    {-1,0,1} x {-1,0,1} without (0,0), inside the grid. *)
Definition adjacent (p q : pos) : Prop :=
  -1 <= fst q - fst p <= 1 /\ -1 <= snd q - snd p <= 1 /\ q <> p.

Definition in_bounds (g : GameOfWar) (q : pos) : Prop :=
  0 <= fst q < width (properties g) /\ 0 <= snd q < height (properties g).

Definition in_boundsb (g : GameOfWar) (q : pos) : bool :=
  ((fst q >=? 0) && (fst q <? width (properties g)))
  && ((snd q >=? 0) && (snd q <? height (properties g))).

(** The eight positions around [(x, y)], in the order the loops visit them *)
Definition ring (x y : Z) : list pos :=
  map (fun o : Z * Z => (x + fst o, y + snd o))
      [(-1, -1); (0, -1); (1, -1); (-1, 0); (1, 0); (-1, 1); (0, 1); (1, 1)].

Definition is_corner (g : GameOfWar) (p : pos) : Prop :=
  (fst p = 0 \/ fst p = width (properties g) - 1) /\
  (snd p = 0 \/ snd p = height (properties g) - 1).

(** ** Python string methods

    The files are read as ASCII text: a character is an [ascii], and the
    methods below are the restrictions of [str.isdigit], [int], [str.lower],
    [str.strip] and [str.split] to it. *)

Definition char_isdigit (c : ascii) : bool :=
  (48 <=? nat_of_ascii c)%nat && (nat_of_ascii c <=? 57)%nat.

Definition char_isspace (c : ascii) : bool :=
  let n := nat_of_ascii c in
  ((9 <=? n)%nat && (n <=? 13)%nat) || ((28 <=? n)%nat && (n <=? 32)%nat).

Definition char_lower (c : ascii) : ascii :=
  let n := nat_of_ascii c in
  if (65 <=? n)%nat && (n <=? 90)%nat then ascii_of_nat (n + 32) else c.

Definition chars (s : string) : list ascii := list_ascii_of_string s.

(** [s.isdigit()]: at least one character, all of them digits *)
Definition isdigit (s : string) : bool :=
  match chars s with
  | [] => false
  | l => forallb char_isdigit l
  end.

(** [int(s)] for a string of digits. Python integers are unbounded; the
    limit that recent interpreters put on the number of digits of a numeral
    (4300 by default) is not modelled. *)
Definition int_of_digits (l : list ascii) : Z :=
  fold_left (fun n c => 10 * n + (Z.of_nat (nat_of_ascii c) - 48)) l 0.

Definition lower (s : string) : string :=
  string_of_list_ascii (map char_lower (chars s)).

Fixpoint lstrip (l : list ascii) : list ascii :=
  match l with
  | c :: l' => if char_isspace c then lstrip l' else l
  | [] => []
  end.

Definition strip (s : string) : string :=
  string_of_list_ascii (rev (lstrip (rev (lstrip (chars s))))).

(** [s.split(":")] *)
Fixpoint split_colon (l : list ascii) (field : list ascii) : list string :=
  match l with
  | [] => [string_of_list_ascii (rev field)]
  | c :: l' =>
      if Ascii.eqb c ":" then
        string_of_list_ascii (rev field) :: split_colon l' []
      else split_colon l' (c :: field)
  end.

Definition split (s : string) : list string := split_colon (chars s) [].

(** ** [load_defaults], [set_property], [_validate], [load_config] *)

(** A value as [set_property] passes it on: an [int] or a [str] *)
Inductive pyval : Type :=
| PyInt (n : Z)
| PyStr (s : string).

(** The entries of [self.validations]: [(between, (lo, hi))] and the
    lambda of the key [output] *)
Inductive validator : Type :=
| Between (lo hi : Z)
| TrueOrFalse.

Definition validations (prop : string) : option validator :=
  if String.eqb prop "width" then Some (Between 10 100)
  else if String.eqb prop "height" then Some (Between 10 50)
  else if String.eqb prop "refresh" then Some (Between 1 60)
  else if String.eqb prop "death-age" then Some (Between 1 32)
  else if String.eqb prop "win-round" then Some (Between 128 65536)
  else if String.eqb prop "to-kill" then Some (Between 1 8)
  else if String.eqb prop "output" then Some TrueOrFalse
  else None.

(** [between(target, lower, higher)] *)
Definition between (target lower higher : Z) : bool :=
  (lower <=? target) && (target <=? higher).

(** [prop in self.properties] *)
Definition is_property (prop : string) : bool :=
  match validations prop with Some _ => true | None => false end.

(** [func] applied to [val] and [args]: comparing an [int] bound with a [str] raises
    TypeError, and an [int] has no method [lower]. *)
Definition _validate (prop : string) (val : pyval) : exn + bool :=
  match validations prop, val with
  | None, _ => inl KeyError
  | Some (Between lo hi), PyInt n => inr (between n lo hi)
  | Some (Between _ _), PyStr _ => inl TypeError
  | Some TrueOrFalse, PyStr s =>
      inr (String.eqb (lower s) "true" || String.eqb (lower s) "false")
  | Some TrueOrFalse, PyInt _ => inl AttributeError
  end.

(** [self.properties[prop] = val], for a value its validator accepted *)
Definition store (p : Properties) (prop : string) (val : pyval) : Properties :=
  match val with
  | PyInt n =>
      if String.eqb prop "width" then
        mkProperties n (height p) (refresh p) (death_age p) (win_round p)
                     (to_kill p) (output p)
      else if String.eqb prop "height" then
        mkProperties (width p) n (refresh p) (death_age p) (win_round p)
                     (to_kill p) (output p)
      else if String.eqb prop "refresh" then
        mkProperties (width p) (height p) n (death_age p) (win_round p)
                     (to_kill p) (output p)
      else if String.eqb prop "death-age" then
        mkProperties (width p) (height p) (refresh p) n (win_round p)
                     (to_kill p) (output p)
      else if String.eqb prop "win-round" then
        mkProperties (width p) (height p) (refresh p) (death_age p) n
                     (to_kill p) (output p)
      else if String.eqb prop "to-kill" then
        mkProperties (width p) (height p) (refresh p) (death_age p)
                     (win_round p) n (output p)
      else p
  | PyStr s =>
      if String.eqb prop "output" then
        mkProperties (width p) (height p) (refresh p) (death_age p)
                     (win_round p) (to_kill p) s
      else p
  end.

Definition set_property (prop val : string) (g : GameOfWar)
  : outcome GameOfWar unit :=
  (* Check prop is valid. *)
  if negb (is_property prop) then Raised g ValueError
  else
    (* Convert val to int if possible. *)
    let val := if isdigit val then PyInt (int_of_digits (chars val))
               else PyStr (lower val) in
    (* Validate the value. *)
    match _validate prop val with
    | inr true => Done (with_properties g (store (properties g) prop val)) tt
    | inr false => Raised g ValueError
    | inl e => Raised g e
    end.

(** The body of the loop of [load_config]: the stripped line is split at
    every colon and the fields are the arguments of [set_property]; a call
    with other than two arguments raises TypeError. *)
Definition config_line (g : GameOfWar) (line : string)
  : outcome GameOfWar unit :=
  match split (strip line) with
  | [prop; val] => set_property prop val g
  | _ => Raised g TypeError
  end.

(** [load_config], on the lines of the file *)
Definition load_config (config : list string) (g : GameOfWar)
  : outcome GameOfWar unit :=
  for_each config_line config g.

(** ** [load_cells] *)

(** [Team(value)] stored under [self.teams[value]] *)
Definition new_team (g : GameOfWar) (value : string) : GameOfWar :=
  let id := next_uuid g in
  mkGame (properties g) (cells g) (PyDict.set (teams g) value id)
         (fun t => if N.eqb t id then value else team_view g t)
         (fun t => if N.eqb t id then 0 else team_score g t)
         (N.succ id).

(** The body of [for x in range(x, x+amount)] *)
Definition place (y : Z) (value : string) (g : GameOfWar) (x : Z)
  : GameOfWar :=
  (* Team creation. *)
  let g := if negb (PyDict.mem (teams g) value) then new_team g value
           else g in
  match PyDict.get (teams g) value with
  | Some team =>
      (* Cell creation. *)
      let cell := mkCell x y team (death_age (properties g)) in
      let g := with_cells g (PyDict.set (cells g) (x, y) cell) in
      with_score g team (team_score g team + 1)
  | None => g   (* KeyError, excluded by the team creation *)
  end.

(** [value == -1]: a [str] is never equal to an [int] *)
Definition str_eq_int (value : string) (n : Z) : bool := false.

(** One pass of [while True] once [amount] and [char] are read: the token
    [amount] [value] at column [x]; the result is the column after it. *)
Definition token (y : Z) (amount : Z) (value : string) (g : GameOfWar) (x : Z)
  : outcome (GameOfWar * Z) unit :=
  (* Error reading line. *)
  if str_eq_int value (-1) && negb (amount =? -1) then Raised (g, x) ValueError
  else if String.eqb value "." then
    (* Not interested in dead cells. *)
    Done (g, x + amount) tt
  else
    let xs := py_range x (x + amount) in
    let g' := fold_left (place y value) xs g in
    (* after the loop [x] is the last column visited, if any *)
    let x' := last xs x in
    Done (g', x' + 1) tt.

(** The row loop, one character at a time: [amount] holds the digits read
    so far (latest first). A character that is not a digit ends the token;
    with no digits before it, it ends the row ([break]), whatever follows.
    At the end of the line [next] gives its default, the empty string,
    which ends the token the same way. *)
Fixpoint row (y : Z) (line : list ascii) (amount : list ascii)
    (g : GameOfWar) (x : Z) : outcome (GameOfWar * Z) unit :=
  match line with
  | [] =>
      match amount with
      | [] => Done (g, x) tt
      | _ => token y (int_of_digits (rev amount)) EmptyString g x
      end
  | char :: line' =>
      if char_isdigit char then row y line' (char :: amount) g x
      else
        match amount with
        | [] => Done (g, x) tt
        | _ =>
            bind (token y (int_of_digits (rev amount))
                        (String char EmptyString) g x)
                 (fun gx _ => row y line' [] (fst gx) (snd gx))
        end
  end.

(** [for y, line in enumerate(cells)] *)
Fixpoint rows (y : Z) (lines : list string) (g : GameOfWar)
  : outcome GameOfWar unit :=
  match lines with
  | [] => Done g tt
  | line :: lines' =>
      match row y (chars (strip line)) [] g 0 with
      | Done gx _ => rows (y + 1) lines' (fst gx)
      | Raised gx e => Raised (fst gx) e
      end
  end.

Definition load_cells (cells_file : list string) (g : GameOfWar)
  : outcome GameOfWar unit :=
  rows 0 cells_file g.

(** [load_game], once the two files of the directory are found *)
Definition load_game (config cells_file : list string) (g : GameOfWar)
  : outcome GameOfWar unit :=
  bind (load_config config g) (fun g' _ => load_cells cells_file g').

(** ** Python built-ins used by the round update *)

(** [s.add(p)] on a set kept in insertion order *)
Definition set_add (s : list pos) (p : pos) : list pos :=
  if existsb (pos_eqb p) s then s else s ++ [p].

(** [sorted(l, key=key, reverse=True)]: descending and stable, that is,
    elements with equal keys keep the order they have in [l]. *)
Fixpoint insert_desc {A} (key : A -> Z) (x : A) (l : list A) : list A :=
  match l with
  | [] => [x]
  | y :: l' => if key y <=? key x then x :: y :: l'
               else y :: insert_desc key x l'
  end.

Fixpoint sorted_desc {A} (key : A -> Z) (l : list A) : list A :=
  match l with
  | [] => []
  | x :: l' => insert_desc key x (sorted_desc key l')
  end.

(** A [for] loop left by [break] at the first element failing [keep] *)
Fixpoint take_while {A} (keep : A -> bool) (l : list A) : list A :=
  match l with
  | [] => []
  | x :: l' => if keep x then x :: take_while keep l' else []
  end.

Definition len {A} (l : list A) : Z := Z.of_nat (List.length l).

(** ** [_update_cells] *)

(** The state of one call: the object, and the locals [new_cells] and
    [dead_cells]. *)
Record Round : Type := mkRound {
  game : GameOfWar;
  new_cells : dict pos Cell;
  dead_cells : list pos
}.

(** The number of neighbours whose team differs from the cell's *)
Definition count_enemies (cell : Cell) (alive_neighbours : list Cell) : Z :=
  fold_left (fun enemies neighbour =>
               if negb (N.eqb (cell_team neighbour) (cell_team cell))
               then enemies + 1 else enemies)
            alive_neighbours 0.

(** The body of the first loop, [for cell in self.cells.values()] *)
Definition age_step (r : Round) (cell0 : Cell) : outcome Round unit :=
  let g := game r in
  let '(cell, still_alive) := update cell0 in
  (* Cell dies to old age. *)
  if still_alive then
    let '(alive_neighbours, dead_neighbours) :=
      _get_neighbours g (cell_x cell) (cell_y cell) in
    let dead_cells' := fold_left set_add dead_neighbours (dead_cells r) in
    let enemies := count_enemies cell alive_neighbours in
    if enemies <? to_kill (properties g) then
      Done (mkRound g (PyDict.set (new_cells r) (position cell) cell)
                    dead_cells') tt
    else
      let team := cell_team cell in
      let g1 := with_score g team (team_score g team - 1) in
      if team_score g1 team =? 0 then
        match PyDict.del (teams g1) (team_view g1 team) with
        | Some teams' =>
            Done (mkRound (with_teams g1 teams') (new_cells r) dead_cells') tt
        | None => Raised (mkRound g1 (new_cells r) dead_cells') KeyError
        end
      else Done (mkRound g1 (new_cells r) dead_cells') tt
  else Done r tt.

(** The loop filling [controllers]: team -> number of its neighbours *)
Definition tally_step (controllers : dict Team Z) (neighbour : Cell)
  : dict Team Z :=
  let team := cell_team neighbour in
  let controllers :=
    if negb (PyDict.mem controllers team) then PyDict.set controllers team 0
    else controllers in
  match PyDict.get controllers team with
  | Some n => PyDict.set controllers team (n + 1)
  | None => controllers   (* KeyError, excluded by the line before *)
  end.

Definition tally (alive_neighbours : list Cell) : dict Team Z :=
  fold_left tally_step alive_neighbours [].

(** The body of the second loop, [for cell in dead_cells] *)
Definition revive_step (r : Round) (cell : pos) : outcome Round unit :=
  let g := game r in
  let '(alive_neighbours, _) := _get_neighbours g (fst cell) (snd cell) in
  (* Need at least 3 alive cells. *)
  if len alive_neighbours <? 3 then Done r tt
  else
    let controllers := tally alive_neighbours in
    (* Find out who owns the new cell. *)
    let dominant_teams := sorted_desc snd controllers in
    match dominant_teams with
    | [] => Raised r IndexError
    | (_, max_control) :: _ =>
        let highest :=
          map fst (take_while (fun tc => negb (snd tc <? max_control))
                              dominant_teams) in
        (* Sort so highest scoring team is first. *)
        let highest := sorted_desc (team_score g) highest in
        match highest with
        | [] => Raised r IndexError
        | dominant :: rest =>
            let tied :=
              match rest with
              | second :: _ =>
                  (1 <? len highest)
                  && (team_score g dominant =? team_score g second)
              | [] => false
              end in
            (* In event 2 teams have the same score, the cell stays dead. *)
            if tied then Done r tt
            else
              let new :=
                mkCell (fst cell) (snd cell) dominant
                       (death_age (properties g)) in
              let g1 := with_score g dominant (team_score g dominant + 1) in
              Done (mkRound g1 (PyDict.set (new_cells r) cell new)
                            (dead_cells r)) tt
        end
    end.

(** The first loop of [_update_cells], over [self.cells.values()] *)
Definition pass_A (g : GameOfWar) : outcome Round unit :=
  for_each age_step (PyDict.values (cells g)) (mkRound g [] []).

Section Engine.

(** The order in which Python iterates the set [dead_cells] *)
Variable set_order : list pos -> list pos.

(** The second loop of [_update_cells], over [dead_cells] *)
Definition pass_B (r : Round) : outcome Round unit :=
  for_each revive_step (set_order (dead_cells r)) r.

(** [_update_cells]. Cells are values here: the age that [Cell.update]
    writes into a cell object reaches the store through [new_cells] only,
    so after a call that raises the store still shows the ages from before
    the round. *)
Definition _update_cells (g : GameOfWar) : outcome GameOfWar unit :=
  match pass_A g with
  | Raised r e => Raised (game r) e
  | Done r _ =>
      (* Reviving dead cells. *)
      match pass_B r with
      | Raised r' e => Raised (game r') e
      | Done r' _ =>
          (* Overwrite self.cells *)
          Done (with_cells (game r') (new_cells r')) tt
      end
  end.

(** *** [_generate_grid], [_update_grid], [output] *)

Definition Grid := list (list string).

Definition _generate_grid (g : GameOfWar) : Grid :=
  map (fun _ => map (fun _ => "."%string)
                    (py_range 0 (width (properties g))))
      (py_range 0 (height (properties g))).

(** The place [l[i]] refers to: a negative index counts from the end, and
    an index outside [-len(l), len(l)) raises IndexError ([None]). *)
Definition list_index {A} (l : list A) (i : Z) : option nat :=
  if (0 <=? i) && (i <? len l) then Some (Z.to_nat i)
  else if (- len l <=? i) && (i <? 0) then Some (Z.to_nat (len l + i))
  else None.

Fixpoint list_set {A} (l : list A) (n : nat) (v : A) : list A :=
  match l, n with
  | [], _ => []
  | _ :: l', O => v :: l'
  | a :: l', S n' => a :: list_set l' n' v
  end.

(** [grid[y][x] = view] *)
Definition grid_set (grid : Grid) (x y : Z) (view : string) : option Grid :=
  match list_index grid y with
  | None => None
  | Some j =>
      match nth_error grid j with
      | None => None
      | Some line =>
          match list_index line x with
          | None => None
          | Some i => Some (list_set grid j (list_set line i view))
          end
      end
  end.

Fixpoint place_cells (g : GameOfWar) (items : list (pos * Cell))
    (grid : Grid) : option Grid :=
  match items with
  | [] => Some grid
  | ((x, y), cell) :: items' =>
      match grid_set grid x y (team_view g (cell_team cell)) with
      | Some grid' => place_cells g items' grid'
      | None => None
      end
  end.

Definition _update_grid (g : GameOfWar) (grid : Grid) : option Grid :=
  place_cells g (cells g) grid.

(** What [output] prints: the round number and the grid *)
Definition Stdout := list (Z * Grid).

(** *** [start] *)

(** [d.values()[i]]: the view object that [dict.values] returns cannot be
    subscripted, whatever the index. *)
Definition values_subscript {K V} (d : dict K V) (i : Z) : exn + V :=
  inl TypeError.

(** The [while] loop. The clock is left out: a pass of the loop that finds
    the refresh interval not yet elapsed changes nothing, and the passes
    that apply a round are at most [win-round - round_number], the
    argument [rounds_left]. The loop returns [None] when its condition
    fails (the [else] branch follows) and the winner when it is left by
    [break]. *)
Fixpoint game_loop (rounds_left : nat) (round_number : Z) (grid : Grid)
    (g : GameOfWar) (out : Stdout)
  : outcome (GameOfWar * Stdout) (option Team * Z * Grid) :=
  match rounds_left with
  | O => Done (g, out) (None, round_number, grid)
  | S rounds_left' =>
      let round_number := round_number + 1 in
      match _update_cells g with
      | Raised g' e => Raised (g', out) e
      | Done g' _ =>
          match _update_grid g' (_generate_grid g') with
          | None => Raised (g', out) IndexError
          | Some grid' =>
              (* Output *)
              let out' :=
                if String.eqb (output (properties g')) "true"
                then out ++ [(round_number, grid')] else out in
              (* Find winner: *)
              if len (teams g') =? 1 then
                match values_subscript (teams g') 0 with
                | inr winner =>
                    Done (g', out') (Some winner, round_number, grid')
                | inl e => Raised (g', out') e
                end
              else game_loop rounds_left' round_number grid' g' out'
          end
      end
  end.

Definition start (g : GameOfWar) : outcome (GameOfWar * Stdout) Team :=
  if refresh (properties g) =? 0 then Raised (g, []) ZeroDivisionError
  else
    (* Display initial grid. *)
    match _update_grid g (_generate_grid g) with
    | None => Raised (g, []) IndexError
    | Some grid =>
        let out := [(0, grid)] in
        (* Game loop. *)
        bind (game_loop (Z.to_nat (win_round (properties g))) 0 grid g out)
          (fun s r =>
             let '(found, round_number, grid') := r in
             let finish (winner : Team) :=
               let out' :=
                 if String.eqb (output (properties (fst s))) "false"
                 then snd s ++ [(round_number, grid')] else snd s in
               Done (fst s, out') winner in
             match found with
             | Some winner => finish winner
             | None =>
                 (* Calculate who won based on score. *)
                 let highest :=
                   sorted_desc (team_score (fst s))
                               (PyDict.values (teams (fst s))) in
                 match highest with
                 | winner :: _ => finish winner
                 | [] => Raised s IndexError
                 end
             end)
    end.

End Engine.

(** A line of a text file, with its line feed *)
Definition line (s : string) : string :=
  (s ++ String (ascii_of_nat 10) EmptyString)%string.

(** ** Vocabulary of the specification *)

(** The iteration order of a set visits every element once. *)
Definition set_order_ok (set_order : list pos -> list pos) : Prop :=
  forall l, Permutation l (set_order l).

(** Python 3.7's order for a set built by successive [add]s is not modelled;
    insertion order is one admissible order. *)
Definition insertion_order (l : list pos) : list pos := l.

(** The number of cells of the store that belong to team [t] *)
Definition count_cells (g : GameOfWar) (t : Team) : Z :=
  len (filter (fun c => N.eqb (cell_team c) t) (PyDict.values (cells g))).

(** Every team of the registry has as score the number of its cells. *)
Definition score_invariantb (g : GameOfWar) : bool :=
  forallb (fun t => team_score g t =? count_cells g t)
          (PyDict.values (teams g)).

(** The inclusive range that the docstring of [load_defaults] documents for
    a numeric property *)
Definition documented_range (prop : string) : option (Z * Z) :=
  if String.eqb prop "width" then Some (10, 100)
  else if String.eqb prop "height" then Some (10, 50)
  else if String.eqb prop "refresh" then Some (1, 60)
  else if String.eqb prop "death-age" then Some (1, 32)
  else if String.eqb prop "win-round" then Some (128, 65536)
  else if String.eqb prop "to-kill" then Some (1, 8)
  else None.

(** A configuration line the specification allows: [name:value] where the
    name is a known property and the value is [true] or [false] (in any
    case) for [output], a decimal number within the documented range for
    the others. *)
Definition accepted (l : string) : bool :=
  match split (strip l) with
  | [prop; val] =>
      if String.eqb prop "output" then
        String.eqb (lower val) "true" || String.eqb (lower val) "false"
      else
        match documented_range prop with
        | Some (lo, hi) =>
            isdigit val
            && (lo <=? int_of_digits (chars val))
            && (int_of_digits (chars val) <=? hi)
        | None => false
        end
  | _ => false
  end.

(** The cell after [update] *)
Definition aged (c : Cell) : Cell :=
  mkCell (cell_x c) (cell_y c) (cell_team c) (cell_age c - 1).

(** The decremented lifespan is at most 0. *)
Definition dies_of_age (c : Cell) : bool := cell_age c - 1 <=? 0.

(** The number of alive neighbours of [c] that belong to a different team *)
Definition enemies_of (g : GameOfWar) (c : Cell) : Z :=
  len (filter (fun n => negb (N.eqb (cell_team n) (cell_team c)))
              (fst (_get_neighbours g (cell_x c) (cell_y c)))).

Definition killed_by_enemies (g : GameOfWar) (c : Cell) : bool :=
  negb (dies_of_age c) && (to_kill (properties g) <=? enemies_of g c).

Definition survives (g : GameOfWar) (c : Cell) : bool :=
  negb (dies_of_age c) && (enemies_of g c <? to_kill (properties g)).

(** The number of cells of team [t] among [cs] that the enemies kill *)
Definition kills (g : GameOfWar) (cs : list Cell) (t : Team) : Z :=
  len (filter (fun c => N.eqb (cell_team c) t && killed_by_enemies g c) cs).

(** The score of [t] reaches zero at one of the kills among [cs]. *)
Definition removed (g : GameOfWar) (cs : list Cell) (t : Team) : bool :=
  (0 <? team_score g t) && (team_score g t <=? kills g cs t).

(** Every entry of the store sits at the position of its cell, and no two
    entries share a key. *)
Definition store_ok (g : GameOfWar) : Prop :=
  NoDup (PyDict.keys (cells g)) /\
  forall k c, In (k, c) (cells g) -> position c = k.

(** The registry holds each team under its view, and the team of every cell
    is in the registry. *)
Definition registry_ok (g : GameOfWar) : Prop :=
  NoDup (PyDict.keys (teams g)) /\
  (forall v t, In (v, t) (teams g) -> team_view g t = v) /\
  (forall c, In c (PyDict.values (cells g)) ->
             PyDict.get (teams g) (team_view g (cell_team c))
             = Some (cell_team c)).

(** Every team of the registry was given its identity before [next_uuid]. *)
Definition uuids_ok (g : GameOfWar) : Prop :=
  forall v t, In (v, t) (teams g) -> (t < next_uuid g)%N.

(** A game as the loaders build it *)
Definition sound (g : GameOfWar) : Prop :=
  store_ok g /\ registry_ok g /\ uuids_ok g.

(** The per-team neighbour tally: how many of the cells belong to [t] *)
Definition tally_of (alive : list Cell) (t : Team) : Z :=
  len (filter (fun c => N.eqb (cell_team c) t) alive).

(** Team [t] controls a revival among the neighbours [alive]: it has the
    maximum tally, and every other team with that tally has a strictly
    lower score. *)
Definition controls (score : Team -> Z) (alive : list Cell) (t : Team)
  : Prop :=
  0 < tally_of alive t /\
  (forall t', tally_of alive t' <= tally_of alive t) /\
  (forall t', t' <> t -> tally_of alive t' = tally_of alive t ->
              score t' < score t).

(** The round state after the revival of position [p] for team [t]: a new
    cell there with the death age as lifespan, and one more point for [t] *)
Definition revived (r : Round) (p : pos) (t : Team) : Round :=
  let g := game r in
  mkRound (with_score g t (team_score g t + 1))
          (PyDict.set (new_cells r) p
                      (mkCell (fst p) (snd p) t (death_age (properties g))))
          (dead_cells r).

(** The number of positions of [l] at which the next store holds a cell of
    team [t] *)
Definition revivals (r : Round) (l : list pos) (t : Team) : Z :=
  len (filter (fun p => match PyDict.get (new_cells r) p with
                        | Some c => N.eqb (cell_team c) t
                        | None => false
                        end) l).

(** A token of a row of the cells file: the digits of its count and its
    symbol *)
Record Token : Type := mkToken {
  digits : list ascii;
  symbol : ascii
}.

Definition count (t : Token) : Z := int_of_digits (digits t).

(** A decimal count of at least one cell followed by one symbol character *)
Definition well_formed (t : Token) : bool :=
  match digits t with
  | [] => false
  | ds => forallb char_isdigit ds
  end
  && negb (char_isdigit (symbol t))
  && negb (char_isspace (symbol t))
  && (0 <? count t).

Definition token_text (t : Token) : list ascii := digits t ++ [symbol t].

Definition row_text (ts : list Token) : string :=
  string_of_list_ascii (flat_map token_text ts).

(** The columns that the runs of a row cover with cells, from column [x]:
    a run of [.] covers its columns with dead positions. *)
Fixpoint covered (x : Z) (ts : list Token) : list Z :=
  match ts with
  | [] => []
  | t :: ts' =>
      (if Ascii.eqb (symbol t) "." then [] else py_range x (x + count t))
      ++ covered (x + count t) ts'
  end.

(** The number of cells, dead or alive, that the tokens of a row consume *)
Definition row_width (ts : list Token) : Z :=
  fold_right (fun t w => count t + w) 0 ts.

Fixpoint covered_file (y : Z) (file : list (list Token)) : list pos :=
  match file with
  | [] => []
  | ts :: file' =>
      map (fun x => (x, y)) (covered 0 ts) ++ covered_file (y + 1) file'
  end.

(** A candidate with at least three alive neighbours *)
Definition effective (g : GameOfWar) (p : pos) : bool :=
  3 <=? len (fst (_get_neighbours g (fst p) (snd p))).

(** The game after a round in which the candidates [o] are the ones with at
    least three alive neighbours, visited in that order *)
Definition after_revivals (g : GameOfWar) (o : list pos) : GameOfWar :=
  let rB := state_of (for_each revive_step o (state_of (pass_A g))) in
  with_cells (game rB) (new_cells rB).

(** ** Vocabulary of the proofs *)

(** One position of the neighbourhood, as the two loops of
    [_get_neighbours] treat it *)
Definition classify (g : GameOfWar) (acc : list Cell * list pos) (q : pos)
  : list Cell * list pos :=
  if in_boundsb g q then
    match PyDict.get (cells g) q with
    | Some c => (fst acc ++ [c], snd acc)
    | None => (fst acc, snd acc ++ [q])
    end
  else acc.

Definition alive_at (g : GameOfWar) (q : pos) : list Cell :=
  match PyDict.get (cells g) q with Some c => [c] | None => [] end.

Definition dead_at (g : GameOfWar) (q : pos) : list pos :=
  match PyDict.get (cells g) q with Some _ => [] | None => [q] end.

(** A list in descending order of [key] *)
Definition desc {A} (key : A -> Z) : list A -> Prop :=
  StronglySorted (fun a b => key b <= key a).

(** The teams kept in [highest]: those whose tally is the maximum *)
Definition leaders (alive : list Cell) (m : Z) : list Team :=
  map fst (take_while (fun tc => negb (snd tc <? m))
                      (sorted_desc snd (tally alive))).

(** What the first loop keeps true, whatever the game: the store and the
    properties of the object, candidates that are unoccupied, no candidate
    twice, no key twice. *)
Definition round_inv (g : GameOfWar) (r : Round) : Prop :=
  cells (game r) = cells g /\
  properties (game r) = properties g /\
  team_view (game r) = team_view g /\
  (forall p, In p (dead_cells r) -> PyDict.get (cells g) p = None) /\
  NoDup (dead_cells r) /\
  NoDup (PyDict.keys (new_cells r)).

(** Every entry of the next store sits at the position of its cell. *)
Definition next_store_ok (r : Round) : Prop :=
  forall k c, In (k, c) (new_cells r) -> position c = k.

(** What the first loop has done once the cells [pre] are processed *)
Definition ages_inv (g : GameOfWar) (pre : list Cell) (r : Round) : Prop :=
  round_inv g r /\
  (forall t, team_score (game r) t = team_score g t - kills g pre t) /\
  NoDup (PyDict.keys (teams (game r))) /\
  (forall v t, PyDict.get (teams (game r)) v = Some t <->
               PyDict.get (teams g) v = Some t /\ removed g pre t = false) /\
  (forall k, In k (PyDict.keys (new_cells r)) ->
             exists c, In c pre /\ survives g c = true /\ position c = k) /\
  (forall c, In c pre -> survives g c = true ->
             PyDict.get (new_cells r) (position c) = Some (aged c)).

(** ** Games used as examples *)

(** One cell of team x with three neighbours of team o *)
Definition game_kill : GameOfWar :=
  state_of (load_game [] [line "3o"; line "1.1x"] init).

(** Five cells for each of the teams a and b: the dead position (1, 1) has
    three neighbours of a, the dead positions (10, 6) and (11, 6) have two
    neighbours of each team. *)
Definition game_tie : GameOfWar :=
  state_of (load_game []
              [line "3a17.1b2.1b2.1b"; line ""; line ""; line ""; line "";
               line "10.2a"; line ""; line "10.2b"] init).


(** One team with one cell, default properties *)
Definition game_1x : GameOfWar :=
  state_of (load_game [] [line "1x"] init).

(** With to-kill at 2: the two cells of team x are killed in the first
    round, which removes x from the registry, and the dead position (2, 1)
    between them is revived for x in the same round. *)
Definition game_revived : GameOfWar :=
  state_of (load_game [line "to-kill:2"]
              [line "1f1x1.1x1f"; line "1f3.1f"; line "1.1e1.1g"] init).

(** The first loop of the next round raises KeyError, the grid of the game
    can be drawn, and the registry does not hold exactly one team. *)
Definition second_round_fails (g : GameOfWar) : bool :=
  match raised (pass_A g) with
  | Some KeyError => true
  | _ => false
  end
  && match _update_grid g (_generate_grid g) with
     | Some _ => true
     | None => false
     end
  && negb (len (teams g) =? 1).

(** What the first loop meets in the generation after the first round of
    [game_revived]: at (2, 1) a cell of team x (identity 1), which is no
    longer in the registry and has score 1, whose enemies kill it; at
    (0, 0) a cell that survives; and the loop raises KeyError. *)
Definition revived_team_breaks (g : GameOfWar) : bool :=
  match PyDict.get (cells g) (2, 1), PyDict.get (cells g) (0, 0) with
  | Some c, Some c0 =>
      N.eqb (cell_team c) 1
      && negb (PyDict.mem (teams g) "x"%string)
      && String.eqb (team_view g 1%N) "x"
      && (team_score g 1%N =? 1)
      && killed_by_enemies g c
      && survives g c0
      && match raised (pass_A g) with
         | Some KeyError => true
         | _ => false
         end
  | _, _ => false
  end.

(** ** Vocabulary of the further properties *)

(** The documented ranges of the properties, from the docstring of
    [load_defaults] *)
Definition props_valid (p : Properties) : Prop :=
  10 <= width p <= 100 /\ 10 <= height p <= 50 /\
  1 <= refresh p <= 60 /\ 1 <= death_age p <= 32 /\
  128 <= win_round p <= 65536 /\ 1 <= to_kill p <= 8 /\
  (output p = "true"%string \/ output p = "false"%string).

(** Every cell of the store lies on the grid. *)
Definition on_grid (g : GameOfWar) : Prop :=
  forall k, In k (PyDict.keys (cells g)) -> in_bounds g k.

(** What both loops keep: properties, views and identities as they are, and
    a registry that only loses entries *)
Definition frame (g : GameOfWar) (r : Round) : Prop :=
  cells (game r) = cells g /\
  properties (game r) = properties g /\
  team_view (game r) = team_view g /\
  next_uuid (game r) = next_uuid g /\
  forall e, In e (teams (game r)) -> In e (teams g).

(** Every cell of the store has between 1 and death-age rounds to live. *)
Definition ages_ok (g : GameOfWar) : Prop :=
  forall c, In c (PyDict.values (cells g)) ->
            1 <= cell_age c <= death_age (properties g).

Definition ages_okb (g : GameOfWar) : bool :=
  forallb (fun c => (1 <=? cell_age c)
                    && (cell_age c <=? death_age (properties g)))
          (PyDict.values (cells g)).

(** ** Vocabulary of the loading invariant *)

(** In reading order, the position [p] comes before column [x] of row [y]. *)
Definition before (x y : Z) (p : pos) : Prop :=
  snd p < y \/ (snd p = y /\ fst p < x).

(** What [load_cells] keeps true while it reads, the next cell going to
    column [x] of row [y]: the game is sound, every score is the number of
    cells of the team, every cell has the death age as lifespan, and every
    cell lies before the cursor. *)
Definition loading (g : GameOfWar) (x y : Z) : Prop :=
  sound g /\
  (forall t, team_score g t = count_cells g t) /\
  (forall c, In c (PyDict.values (cells g)) ->
             cell_age c = death_age (properties g)) /\
  (forall p, In p (PyDict.keys (cells g)) -> before x y p).

(** ** Vocabulary of the score balance *)

(** The number of cells of team [t] in the store whose lifespan runs out in
    the coming round *)
Definition aged_out (g : GameOfWar) (t : Team) : Z :=
  len (filter (fun c => N.eqb (cell_team c) t && dies_of_age c)
              (PyDict.values (cells g))).

(** The entry of the next store for a surviving cell *)
Definition survivor (c : Cell) : pos * Cell := (position c, aged c).

(** ** Vocabulary of the rendering *)

(** The text at column [x] of row [y] of a grid, both counted from 0 *)
Definition grid_at (grid : Grid) (x y : Z) : option string :=
  match nth_error grid (Z.to_nat y) with
  | Some line => nth_error line (Z.to_nat x)
  | None => None
  end.

(** A grid of [h] rows of [w] columns *)
Definition shaped (w h : Z) (grid : Grid) : Prop :=
  len grid = h /\ forall line, In line grid -> len line = w.

(** What the grid shows at a position: the view of the team of the cell
    there, or the dead symbol *)
Definition shown (g : GameOfWar) (p : pos) : string :=
  match PyDict.get (cells g) p with
  | Some c => team_view g (cell_team c)
  | None => "."
  end.

(** A row of 31 columns on the default grid of 30: one cell at column 30 *)
Definition game_wide : GameOfWar :=
  state_of (load_game [] [line "30.1x"] init).

(** ** Vocabulary of the main loop *)

Section Rounds.

Variable set_order : list pos -> list pos.

(** [n] successive round updates; [None] when one of them raises *)
Fixpoint rounds (n : nat) (g : GameOfWar) : option GameOfWar :=
  match n with
  | O => Some g
  | S n' =>
      match _update_cells set_order g with
      | Done g' _ => rounds n' g'
      | Raised _ _ => None
      end
  end.

End Rounds.

(** Two lone cells on a grid of 10 by 10, 128 rounds, no output between the
    initial and the final grid *)
Definition game_short : GameOfWar :=
  state_of (load_game [line "win-round:128"; line "output:false";
                       line "width:10"; line "height:10"]
                      [line "1a"; line ""; line ""; line ""; line "1b"] init).

(** ** [load_game]: the files of the directory *)

(** [s.split(".")] *)
Fixpoint split_dot (l : list ascii) (field : list ascii) : list string :=
  match l with
  | [] => [string_of_list_ascii (rev field)]
  | c :: l' =>
      if Ascii.eqb c "." then
        string_of_list_ascii (rev field) :: split_dot l' []
      else split_dot l' (c :: field)
  end.

(** [file.split(".")[-1]] *)
Definition file_type (file : string) : string :=
  last (split_dot (chars file) []) EmptyString.

(** The locals [reserved] and [needed_files] *)
Definition Scan := (dict string Z * dict string string)%type.

(** [reserved = {"config":0, "cells":0}] and [needed_files = dict()] *)
Definition scan_start : Scan :=
  ([("config"%string, 0); ("cells"%string, 0)], []).

(** The body of the loop over the directory, with whether it ends in
    [break] *)
Definition scan_step (st : Scan) (file : string) : Scan * bool :=
  let '(reserved, needed_files) := st in
  let file_type := file_type file in
  (* Check if needed file. *)
  if PyDict.mem reserved file_type then
    match PyDict.get reserved file_type with
    | Some n =>
        let reserved := PyDict.set reserved file_type (n + 1) in
        let needed_files := PyDict.set needed_files file_type file in
        (* Check count. *)
        ((reserved, needed_files), 1 <? n + 1)
    | None => (st, false)
    end
  else (st, false).

(** [for file in files_in_dir], with whether it was left by [break] *)
Fixpoint scan (files_in_dir : list string) (st : Scan) : Scan * bool :=
  match files_in_dir with
  | [] => (st, false)
  | file :: files =>
      let '(st', broke) := scan_step st file in
      if broke then (st', true) else scan files st'
  end.

(** [sum(d.values())] *)
Definition sum_values (d : dict string Z) : Z :=
  fold_left Z.add (PyDict.values d) 0.

(** The part of [load_game] that picks the two files out of the listing of
    the directory: their names, or the exception raised *)
Definition needed_files (files_in_dir : list string)
  : exn + (string * string) :=
  let '((reserved, needed), broke) := scan files_in_dir scan_start in
  if broke then inl ValueError
  else
    (* Check all files are there. *)
    if sum_values reserved =? len reserved then
      match PyDict.get needed "config"%string,
            PyDict.get needed "cells"%string with
      | Some config, Some cells_file => inr (config, cells_file)
      | _, _ => inl KeyError
      end
    else inl ValueError.

(** The files of a listing whose type is [ty] *)
Definition of_type (ty : string) (files : list string) : list string :=
  filter (fun f => String.eqb (file_type f) ty) files.

(** A name without a dot *)
Definition dotless (l : list ascii) : bool :=
  forallb (fun c => negb (Ascii.eqb c ".")) l.

(** ** [convertor.py] *)

(** [str(n)] for [0 <= n]: the decimal digits of [n], found from the last
    one *)
Fixpoint decimal_digits (fuel : nat) (n : Z) (acc : list ascii)
  : list ascii :=
  match fuel with
  | O => acc
  | S fuel' =>
      let acc' := ascii_of_nat (48 + Z.to_nat (n mod 10)) :: acc in
      if n <? 10 then acc' else decimal_digits fuel' (n / 10) acc'
  end.

Definition str_of_int (n : Z) : list ascii :=
  decimal_digits (S (Z.to_nat n)) n [].

(** [l] starts with [p] *)
Fixpoint starts_with (p l : list ascii) : bool :=
  match p, l with
  | [], _ => true
  | a :: p', b :: l' => Ascii.eqb a b && starts_with p' l'
  | _ :: _, [] => false
  end.

(** [s.endswith(suffix)] *)
Definition endswith (s suffix : string) : bool :=
  starts_with (rev (chars suffix)) (rev (chars s)).

(** [enumerate(l)] *)
Definition enumerate {A} (l : list A) : list (Z * A) :=
  combine (py_range 0 (len l)) l.

(** What [convert] raises: ValueError, or the error of reading a local
    variable that no iteration has assigned yet *)
Inductive convert_exn : Type :=
| ConvertValueError
| UnboundLocalError.

(** The two files that [convert] writes, and its locals [x], [y] and
    [char], which are [None] before their first assignment *)
Record Convertor : Type := mkConvertor {
  cells_lines : list string;   (* the lines written to the .cells file *)
  pending : list ascii;        (* what is written after the last line feed *)
  config_lines : list string;  (* the lines written to the .config file *)
  local_x : option Z;
  local_y : option Z;
  local_char : option ascii
}.

(** [cells.write(text)] *)
Definition write (c : Convertor) (text : list ascii) : Convertor :=
  mkConvertor (cells_lines c) (pending c ++ text) (config_lines c)
              (local_x c) (local_y c) (local_char c).

(** [cells.write(text) ] for a text that ends the line *)
Definition write_line (c : Convertor) (text : list ascii) : Convertor :=
  mkConvertor
    (cells_lines c ++ [line (string_of_list_ascii (pending c ++ text))]) []
    (config_lines c) (local_x c) (local_y c) (local_char c).

(** [config.write(text)], one line at a time *)
Definition write_config (c : Convertor) (text : list ascii) : Convertor :=
  mkConvertor (cells_lines c) (pending c)
              (config_lines c ++ [line (string_of_list_ascii text)])
              (local_x c) (local_y c) (local_char c).

(** The body of [for x, char in enumerate(row)], on the convertor and the
    locals [prev] (the empty string being [None]) and [total] *)
Definition run_step (s : Convertor * option ascii * Z) (xc : Z * ascii)
  : Convertor * option ascii * Z :=
  let '(c, prev, total) := s in
  let '(x, char) := xc in
  let c := mkConvertor (cells_lines c) (pending c) (config_lines c)
                       (Some x) (local_y c) (Some char) in
  match prev with
  | Some p =>
      if Ascii.eqb char p then (c, Some char, total + 1)
      else
        (* Write previous character stream info to file. *)
        (write c (str_of_int (total + 1) ++ [p]), Some char, 0)
  | None => (c, Some char, total)
  end.

(** [for y, row in enumerate(grid)] *)
Fixpoint convert_rows (rows : list (Z * string)) (c : Convertor)
  : Convertor * option convert_exn :=
  match rows with
  | [] => (c, None)
  | (y, row) :: rows' =>
      let c := mkConvertor (cells_lines c) (pending c) (config_lines c)
                           (local_x c) (Some y) (local_char c) in
      (* Stop once empty line is reached. *)
      if String.eqb row "" then (c, None)
      else
        let row := strip row in
        let '(c, prev, total) :=
          fold_left run_step (enumerate (chars row)) (c, None, 0) in
        (* Write final chars. *)
        match local_char c with
        | Some char =>
            convert_rows rows' (write_line c (str_of_int (total + 1) ++ [char]))
        | None => (c, Some UnboundLocalError)
        end
  end.

(** [convert(file)], on the lines of the grid file and the listing of the
    current directory *)
Definition convert (file : string) (grid : list string)
    (listing : list string) : Convertor * option convert_exn :=
  let c := mkConvertor [] [] [] None None None in
  (* Check file type. *)
  if negb (endswith file ".grid") then (c, Some ConvertValueError)
  else
    match convert_rows (enumerate grid) c with
    | (c, Some e) => (c, Some e)
    | (c, None) =>
        (* Create config file. *)
        if 0 <? len (filter (fun f => endswith f ".config") listing)
        then (c, Some ConvertValueError)
        else
          match local_y c with
          | None => (c, Some UnboundLocalError)
          | Some y =>
              let c := write_config c (chars "height:" ++ str_of_int (y + 1)) in
              match local_x c with
              | None => (c, Some UnboundLocalError)
              | Some x =>
                  (write_config c (chars "width:" ++ str_of_int (x + 1)), None)
              end
          end
    end.

(** ** Vocabulary of the conversion *)

(** A character that a grid may use for a cell: not a digit and not white
    space *)
Definition clean (c : ascii) : bool :=
  negb (char_isdigit c) && negb (char_isspace c).

(** A line of the grid file *)
Definition grid_line (r : list ascii) : string :=
  line (string_of_list_ascii r).

(** The cells that the tokens of a row stand for *)
Definition expand (ts : list Token) : list ascii :=
  flat_map (fun t => repeat (symbol t) (Z.to_nat (count t))) ts.

(** The run of [n] cells [c] *)
Definition run (n : Z) (c : ascii) : Token := mkToken (str_of_int n) c.

(** What a grid of characters shows at a position: its character there,
    the dead symbol outside of it *)
Definition pic (rows : list (list ascii)) (p : pos) : string :=
  if (0 <=? fst p) && (0 <=? snd p) then
    match nth_error rows (Z.to_nat (snd p)) with
    | Some r =>
        match nth_error r (Z.to_nat (fst p)) with
        | Some c => String c EmptyString
        | None => "."
        end
    | None => "."
    end
  else ".".

(** The game is sound and shows the grid [rows]. *)
Definition paints (g : GameOfWar) (rows : list (list ascii)) : Prop :=
  sound g /\ forall p, shown g p = pic rows p.

(** A grid of 10 rows of 10 characters *)
Definition grid_example : list (list ascii) :=
  repeat (chars "..xx....oo") 5 ++ repeat (chars "#........#") 5.

(** A grid of 10 rows whose first row has an eleventh character *)
Definition grid_ragged : list (list ascii) :=
  chars "..........x" :: repeat (chars "..........") 9.


(** * Properties *)

(** ** Laws of the key types *)

Lemma pos_eqb_spec (p q : pos) : reflect (p = q) (pos_eqb p q).
Proof.
  destruct p as [a b], q as [c d]; unfold pos_eqb; simpl.
  destruct (Z.eqb_spec a c), (Z.eqb_spec b d); simpl; constructor; congruence.
Qed.

#[export] Instance PyKeyLaws_pos : PyKeyLaws pos := pos_eqb_spec.
#[export] Instance PyKeyLaws_string : PyKeyLaws string := String.eqb_spec.
#[export] Instance PyKeyLaws_N : PyKeyLaws N := N.eqb_spec.

(** ** Laws of dictionaries *)

Module PyDictFacts.
Import PyDict.
Section Facts.
Context {K V : Type} `{PyKeyLaws K}.
Implicit Types d : dict K V.

Lemma get_In d k v : get d k = Some v -> In (k, v) d.
Proof.
  induction d as [|[k' v'] d IH]; simpl; [discriminate|].
  destruct (keq_spec k k') as [->|ne]; intros E.
  - injection E as ->. now left.
  - right. now apply IH.
Qed.

Lemma get_None d k : get d k = None <-> ~ In k (keys d).
Proof.
  induction d as [|[k' v'] d IH]; simpl; [tauto|].
  destruct (keq_spec k k') as [->|ne].
  - split; [discriminate|]. intros N; exfalso; apply N; now left.
  - rewrite IH. split; intros N; [intros [E|I]|]; try tauto.
    now apply ne.
Qed.

Lemma get_Some_key d k v : get d k = Some v -> In k (keys d).
Proof. intros E. apply get_In in E. now apply (in_map fst) in E. Qed.

Lemma mem_keys d k : mem d k = true <-> In k (keys d).
Proof.
  unfold mem. destruct (get d k) eqn:E.
  - split; [intros _; eapply get_Some_key; eauto | reflexivity].
  - apply get_None in E. split; [discriminate | tauto].
Qed.

Lemma In_get d k v : NoDup (keys d) -> In (k, v) d -> get d k = Some v.
Proof.
  induction d as [|[k' v'] d IH]; simpl; [tauto|].
  intros ND [E|I].
  - injection E as -> ->. now destruct (keq_spec k k).
  - inversion ND as [|? ? N1 N2]; subst.
    destruct (keq_spec k k') as [->|ne]; [|now apply IH].
    exfalso. apply N1. now apply (in_map fst) in I.
Qed.

Lemma get_set_same d k v : get (set d k v) k = Some v.
Proof.
  induction d as [|[k' v'] d IH]; simpl.
  - now destruct (keq_spec k k).
  - destruct (keq_spec k k') as [->|ne]; simpl.
    + now destruct (keq_spec k' k').
    + now destruct (keq_spec k k').
Qed.

Lemma get_set_other d k k' v : k' <> k -> get (set d k v) k' = get d k'.
Proof.
  intros ne. induction d as [|[k0 v0] d IH]; simpl.
  - now destruct (keq_spec k' k).
  - destruct (keq_spec k k0) as [->|ne0]; simpl.
    + now destruct (keq_spec k' k0).
    + destruct (keq_spec k' k0); [reflexivity | exact IH].
Qed.

Lemma keys_set d k v :
  keys (set d k v) = if mem d k then keys d else keys d ++ [k].
Proof.
  unfold mem. induction d as [|[k0 v0] d IH]; simpl; [reflexivity|].
  destruct (keq_spec k k0) as [->|ne0]; simpl; [reflexivity|].
  rewrite IH. now destruct (get d k).
Qed.

Lemma In_keys_set d k v k' :
  In k' (keys (set d k v)) <-> k' = k \/ In k' (keys d).
Proof.
  rewrite keys_set. destruct (mem d k) eqn:M.
  - apply mem_keys in M. split; [tauto | intros [->|I]; assumption].
  - rewrite in_app_iff; simpl. intuition.
Qed.

Lemma NoDup_keys_set d k v : NoDup (keys d) -> NoDup (keys (set d k v)).
Proof.
  intros ND. rewrite keys_set. destruct (mem d k) eqn:M; [assumption|].
  assert (N : ~ In k (keys d)) by (rewrite <- mem_keys, M; discriminate).
  apply NoDup_app; [assumption | repeat constructor; simpl; tauto |].
  intros x I [<-|[]]. now apply N.
Qed.

Lemma del_Some d k : In k (keys d) -> exists d', del d k = Some d'.
Proof.
  induction d as [|[k0 v0] d IH]; simpl; [tauto|].
  destruct (keq_spec k k0) as [->|ne0]; [eauto|].
  intros [E|I]; [congruence|]. destruct (IH I) as [d' ->]. eauto.
Qed.

Lemma del_None d k : del d k = None <-> ~ In k (keys d).
Proof.
  induction d as [|[k0 v0] d IH]; simpl; [tauto|].
  destruct (keq_spec k k0) as [->|ne0].
  - split; [discriminate | intros N; exfalso; apply N; now left].
  - destruct (del d k).
    + split; [discriminate|]. intros N. exfalso.
      assert (X : ~ In k (keys d)) by tauto.
      apply IH in X. discriminate.
    + split; [|reflexivity]. intros _ [E|I]; [congruence|].
      now apply (proj1 IH).
Qed.

Lemma get_del d k d' k' :
  NoDup (keys d) -> del d k = Some d' ->
  get d' k' = if keq k' k then None else get d k'.
Proof.
  revert d'. induction d as [|[k0 v0] d IH]; simpl; [discriminate|].
  intros d' ND E. inversion ND as [|? ? N1 N2]; subst.
  destruct (keq_spec k k0) as [->|ne0].
  - injection E as <-. destruct (keq_spec k' k0) as [e|ne]; [|reflexivity].
    subst k'. now apply get_None.
  - destruct (del d k) as [d''|] eqn:D; [|discriminate].
    injection E as <-. simpl.
    destruct (keq_spec k' k0) as [e|ne].
    + subst k'. destruct (keq_spec k0 k); [congruence | reflexivity].
    + now apply IH.
Qed.

Lemma keys_del d k d' :
  del d k = Some d' -> forall k', In k' (keys d') -> In k' (keys d).
Proof.
  revert d'. induction d as [|[k0 v0] d IH]; simpl; [discriminate|].
  intros d' E k' I. destruct (keq_spec k k0) as [->|ne0].
  - injection E as <-. now right.
  - destruct (del d k) as [d''|] eqn:D; [|discriminate].
    injection E as <-. destruct I as [I|I]; [now left|].
    right. eapply IH; eauto.
Qed.

Lemma NoDup_keys_del d k d' :
  del d k = Some d' -> NoDup (keys d) -> NoDup (keys d').
Proof.
  revert d'. induction d as [|[k0 v0] d IH]; simpl; [discriminate|].
  intros d' E ND. inversion ND as [|? ? N1 N2]; subst.
  destruct (keq_spec k k0) as [->|ne0].
  - now injection E as <-.
  - destruct (del d k) as [d''|] eqn:D; [|discriminate].
    injection E as <-. simpl. constructor; [|now apply IH].
    intros I. apply N1. eapply keys_del; eauto.
Qed.

Lemma In_set d k v k' v' :
  In (k', v') (set d k v) -> (k' = k /\ v' = v) \/ In (k', v') d.
Proof.
  induction d as [|[k0 v0] d IH]; simpl.
  - intros [E|[]]. injection E as <- <-. now left.
  - destruct (keq_spec k k0) as [->|ne0]; simpl.
    + intros [E|I]; [injection E as <- <-; now left | right; now right].
    + intros [E|I]; [right; now left|].
      destruct (IH I) as [J|J]; [now left | right; now right].
Qed.

Lemma keys_values_In d k v : In (k, v) d -> In v (values d).
Proof. intros I. now apply (in_map snd) in I. Qed.

Lemma values_In d v : In v (values d) -> exists k, In (k, v) d.
Proof.
  intros I. apply in_map_iff in I. destruct I as ([k v'] & E & I).
  cbn in E. subst. now exists k.
Qed.

End Facts.
End PyDictFacts.

(** ** The neighbourhood query *)

Section Neighbours.
Variable g : GameOfWar.

Lemma neighbour_step_classify x y dy acc dx :
  neighbour_step g x y dy acc dx =
  if (dy =? 0) && (dx =? 0) then acc else classify g acc (x + dx, y + dy).
Proof.
  unfold neighbour_step, classify, in_boundsb. destruct acc as [a d]; simpl.
  destruct ((dy =? 0) && (dx =? 0)); [reflexivity|].
  destruct (_ && _); [|reflexivity].
  now destruct (PyDict.get (cells g) (x + dx, y + dy)).
Qed.

Lemma get_neighbours_fold x y :
  _get_neighbours g x y = fold_left (classify g) (ring x y) ([], []).
Proof.
  unfold _get_neighbours.
  change (py_range (-1) 2) with [-1; 0; 1].
  cbn [fold_left]. rewrite !neighbour_step_classify. reflexivity.
Qed.

Lemma fold_classify l acc :
  fold_left (classify g) l acc =
  (fst acc ++ flat_map (alive_at g) (filter (in_boundsb g) l),
   snd acc ++ flat_map (dead_at g) (filter (in_boundsb g) l)).
Proof.
  revert acc. induction l as [|q l IH]; intros [a d]; simpl.
  - now rewrite !app_nil_r.
  - rewrite IH. unfold classify, alive_at, dead_at.
    destruct (in_boundsb g q); simpl; [|reflexivity].
    destruct (PyDict.get (cells g) q); simpl;
      now rewrite <- ?app_assoc.
Qed.

Lemma get_neighbours_flat x y :
  _get_neighbours g x y =
  (flat_map (alive_at g) (filter (in_boundsb g) (ring x y)),
   flat_map (dead_at g) (filter (in_boundsb g) (ring x y))).
Proof. now rewrite get_neighbours_fold, fold_classify. Qed.

Lemma in_boundsb_iff q : in_boundsb g q = true <-> in_bounds g q.
Proof.
  unfold in_boundsb, in_bounds.
  rewrite !andb_true_iff, Z.geb_le, !Z.ltb_lt, Z.geb_le. tauto.
Qed.

Lemma in_ring x y q : In q (ring x y) <-> adjacent (x, y) q.
Proof.
  unfold adjacent, ring; destruct q as [a b]; simpl. split.
  - intros I.
    repeat (destruct I as [E|I];
            [injection E as <- <-;
             (split; [lia | split; [lia | intros E; injection E; lia]])|]).
    destruct I.
  - intros (Hx & Hy & ne).
    assert (Ca : a = x + -1 \/ a = x + 0 \/ a = x + 1) by lia.
    assert (Cb : b = y + -1 \/ b = y + 0 \/ b = y + 1) by lia.
    destruct Ca as [-> | [-> | ->]], Cb as [-> | [-> | ->]]; try tauto.
    exfalso. apply ne. f_equal; lia.
Qed.

Lemma NoDup_ring x y : NoDup (ring x y).
Proof.
  unfold ring. apply Finite.Injective_map_NoDup.
  - intros [a b] [c d] E; simpl in E. injection E as E1 E2. f_equal; lia.
  - repeat (constructor; [simpl; intros I;
      repeat (destruct I as [I|I]; [discriminate I|]); exact I|]).
    constructor.
Qed.

Lemma length_alive_dead l :
  (length (flat_map (alive_at g) l) + length (flat_map (dead_at g) l))%nat = length l.
Proof.
  induction l as [|q l IH]; simpl; [reflexivity|].
  rewrite !length_app. unfold alive_at at 1, dead_at at 1.
  destruct (PyDict.get (cells g) q); simpl; lia.
Qed.

Lemma in_dead_at l q :
  In q (flat_map (dead_at g) l) <-> In q l /\ PyDict.get (cells g) q = None.
Proof.
  rewrite in_flat_map. unfold dead_at. split.
  - intros (p & I & J). destruct (PyDict.get (cells g) p) eqn:E; [destruct J|].
    destruct J as [<-|[]]. tauto.
  - intros (I & E). exists q. rewrite E. simpl; tauto.
Qed.

Lemma in_alive_at l c :
  In c (flat_map (alive_at g) l) <->
  exists q, In q l /\ PyDict.get (cells g) q = Some c.
Proof.
  rewrite in_flat_map. unfold alive_at. split.
  - intros (p & I & J). exists p.
    destruct (PyDict.get (cells g) p) eqn:E; [|destruct J].
    destruct J as [<-|[]]. tauto.
  - intros (p & I & E). exists p. rewrite E. simpl; tauto.
Qed.

Lemma NoDup_dead_at l : NoDup l -> NoDup (flat_map (dead_at g) l).
Proof.
  induction 1 as [|q l N ND IH]; simpl; [constructor|].
  unfold dead_at at 1. destruct (PyDict.get (cells g) q); simpl; [exact IH|].
  constructor; [|exact IH]. rewrite in_dead_at. tauto.
Qed.

Lemma corner_ring x y :
  2 <= width (properties g) -> 2 <= height (properties g) ->
  is_corner g (x, y) ->
  length (filter (in_boundsb g) (ring x y)) = 3%nat.
Proof.
  intros Hw Hh [Cx Cy]; simpl in Cx, Cy.
  unfold ring, in_boundsb; simpl.
  destruct Cx as [Cx|Cx], Cy as [Cy|Cy];
  repeat match goal with
  | |- context [?a >=? ?b] =>
      first [ replace (a >=? b) with true by (symmetry; apply Z.geb_le; lia)
            | replace (a >=? b) with false
                by (symmetry; rewrite Z.geb_leb; apply Z.leb_gt; lia) ]
  | |- context [?a <? ?b] =>
      first [ replace (a <? b) with true by (symmetry; apply Z.ltb_lt; lia)
            | replace (a <? b) with false by (symmetry; apply Z.ltb_ge; lia) ]
  end; reflexivity.
Qed.

End Neighbours.

(** C6. For every position [(x, y)] the neighbourhood query returns, as dead
    positions, exactly the positions at an offset in {-1,0,1} x {-1,0,1}
    other than (0,0) that lie inside [0, width) x [0, height) and are not a
    key of the cell store, each once; as alive cells, exactly the cells the
    store holds at such positions; nothing outside the grid is returned and
    nothing wraps around. Together they are as many as there are such
    positions, which is 3 at a corner of a grid with at least two rows and
    two columns. *)
Theorem get_neighbours_spec (g : GameOfWar) (x y : Z) :
  let alive := fst (_get_neighbours g x y) in
  let dead := snd (_get_neighbours g x y) in
  (forall q, In q dead <->
             adjacent (x, y) q /\ in_bounds g q /\
             PyDict.get (cells g) q = None) /\
  (forall c, In c alive <->
             exists q, adjacent (x, y) q /\ in_bounds g q /\
                       PyDict.get (cells g) q = Some c) /\
  NoDup dead /\
  (length alive + length dead)%nat
    = length (filter (in_boundsb g) (ring x y)) /\
  (2 <= width (properties g) -> 2 <= height (properties g) ->
   is_corner g (x, y) -> (length alive + length dead)%nat = 3%nat).
Proof.
  rewrite get_neighbours_flat; cbn [fst snd].
  assert (L := length_alive_dead g (filter (in_boundsb g) (ring x y))).
  assert (R : forall q, In q (filter (in_boundsb g) (ring x y)) <->
                        adjacent (x, y) q /\ in_bounds g q).
  { intros q. now rewrite filter_In, in_ring, in_boundsb_iff. }
  split; [|split; [|split; [|split]]].
  - intros q. rewrite in_dead_at, R. tauto.
  - intros c. rewrite in_alive_at. split; intros (q & I & E); exists q.
    + apply R in I. tauto.
    + split; [apply R; tauto | tauto].
  - apply NoDup_dead_at, NoDup_filter, NoDup_ring.
  - exact L.
  - intros Hw Hh C. rewrite L. now apply corner_ring.
Qed.

Lemma get_neighbours_spec_witness :
  is_corner game_1x (0, 0) /\
  (List.length (fst (_get_neighbours game_1x 0 0))
   + List.length (snd (_get_neighbours game_1x 0 0)))%nat = 3%nat.
Proof.
  assert (C : is_corner game_1x (0, 0)) by (split; left; reflexivity).
  split; [exact C|].
  apply (get_neighbours_spec game_1x 0 0); [vm_compute; discriminate .. | exact C].
Defined.

(** ** Loops *)

Lemma for_each_unchanged {S X} (body : S -> X -> outcome S unit) l s :
  (forall x, In x l -> body s x = Done s tt) -> for_each body l s = Done s tt.
Proof.
  induction l as [|x l IH]; simpl; intros Hl; [reflexivity|].
  rewrite Hl by now left. simpl. apply IH. intros; apply Hl; now right.
Qed.

Lemma for_each_app {S X} (body : S -> X -> outcome S unit) l1 l2 s :
  for_each body (l1 ++ l2) s =
  bind (for_each body l1 s) (fun s' _ => for_each body l2 s').
Proof.
  revert s. induction l1 as [|x l1 IH]; intros s; simpl; [reflexivity|].
  destruct (body s x) as [s' []|s' e]; simpl; [apply IH | reflexivity].
Qed.

Lemma set_order_nil set_order : set_order_ok set_order -> set_order [] = [].
Proof. intros H. apply Permutation_nil, H. Qed.

Lemma set_order_in set_order l p :
  set_order_ok set_order -> In p (set_order l) <-> In p l.
Proof.
  intros H. split; intros I.
  - eapply Permutation_in; [apply Permutation_sym, H | exact I].
  - eapply Permutation_in; [apply H | exact I].
Qed.

Lemma insertion_order_ok : set_order_ok insertion_order.
Proof. intros l. apply Permutation_refl. Qed.

(** ** C1: the score of a team and the number of its cells *)

(** C1. The game loaded from the configuration [death-age:1] and the cells
    file [1x] has one team with one cell and score 1. The round update drops
    the cell, whose age reaches 0, and leaves the score of its team at 1:
    the score no longer equals the number of cells of the team. *)
Theorem age_drop_keeps_score set_order (H : set_order_ok set_order) :
  exists g g',
    load_game [line "death-age:1"] [line "1x"] init = Done g tt /\
    score_invariantb g = true /\
    _update_cells set_order g = Done g' tt /\
    cells g' = [] /\
    teams g' = [("x"%string, 0%N)] /\
    team_score g' 0%N = 1 /\
    count_cells g' 0%N = 0 /\
    score_invariantb g' = false.
Proof.
  eexists. eexists. split; [vm_compute; reflexivity|].
  split; [vm_compute; reflexivity|].
  split.
  - unfold _update_cells.
    match goal with
    | |- context [pass_A ?g] =>
        let v := eval vm_compute in (pass_A g) in
        change (pass_A g) with v
    end.
    cbv beta iota. unfold pass_B. cbn [dead_cells].
    rewrite (set_order_nil H). cbn [for_each]. reflexivity.
  - repeat split; vm_compute; reflexivity.
Qed.

Lemma age_drop_keeps_score_witness :
  exists g g',
    load_game [line "death-age:1"] [line "1x"] init = Done g tt /\
    score_invariantb g = true /\
    _update_cells insertion_order g = Done g' tt /\
    cells g' = [] /\
    teams g' = [("x"%string, 0%N)] /\
    team_score g' 0%N = 1 /\
    count_cells g' 0%N = 0 /\
    score_invariantb g' = false.
Proof. exact (age_drop_keeps_score insertion_order_ok). Defined.

(** ** Running a round on a given game *)

Lemma revive_step_few r p :
  (len (fst (_get_neighbours (game r) (fst p) (snd p))) <? 3) = true ->
  revive_step r p = Done r tt.
Proof.
  unfold revive_step. destruct (_get_neighbours _ _ _) as [alive dead].
  cbn [fst]. now intros ->.
Qed.

Lemma update_cells_run set_order g r r' :
  pass_A g = Done r tt ->
  pass_B set_order r = Done r' tt ->
  _update_cells set_order g = Done (with_cells (game r') (new_cells r')) tt.
Proof. unfold _update_cells. now intros -> ->. Qed.

Lemma game_loop_S set_order n round_number grid g out :
  game_loop set_order (S n) round_number grid g out =
  match _update_cells set_order g with
  | Raised g' e => Raised (g', out) e
  | Done g' _ =>
      match _update_grid g' (_generate_grid g') with
      | None => Raised (g', out) IndexError
      | Some grid' =>
          let out' :=
            if String.eqb (output (properties g')) "true"
            then out ++ [(round_number + 1, grid')] else out in
          if len (teams g') =? 1 then
            match values_subscript (teams g') 0 with
            | inr winner =>
                Done (g', out') (Some winner, round_number + 1, grid')
            | inl e => Raised (g', out') e
            end
          else game_loop set_order n (round_number + 1) grid' g' out'
      end
  end.
Proof. reflexivity. Qed.

(** The round of the game loaded from the cells file [1x]: the cell ages and
    stays, and no dead position around it has three alive neighbours. *)
Lemma lone_cell_round set_order (H : set_order_ok set_order) :
  exists g g',
    load_game [] [line "1x"] init = Done g tt /\
    _update_cells set_order g = Done g' tt /\
    cells g' = [((0, 0), mkCell 0 0 0%N 3)] /\
    teams g' = [("x"%string, 0%N)] /\
    teams g = [("x"%string, 0%N)] /\
    properties g' = load_defaults_properties /\
    properties g = load_defaults_properties /\
    cells g = [((0, 0), mkCell 0 0 0%N 4)].
Proof.
  eexists. eexists. split; [vm_compute; reflexivity|].
  split.
  - eapply update_cells_run; [vm_compute; reflexivity|].
    apply for_each_unchanged. intros p I.
    apply (proj1 (set_order_in _ _ H)) in I. cbn [dead_cells In] in I.
    apply revive_step_few.
    repeat (destruct I as [<-|I]; [vm_compute; reflexivity|]). destruct I.
  - repeat split.
Qed.

(** ** C4 and C7: the end of the game *)

(** C4. The game loaded from the cells file [1x] has exactly one team in its
    registry, before and after its first round. [start] applies that round
    and then raises TypeError at [self.teams.values()[0]]: no winner is
    reported. *)
Theorem single_team_no_winner set_order (H : set_order_ok set_order) :
  exists g,
    load_game [] [line "1x"] init = Done g tt /\
    len (teams g) = 1 /\
    raised (start set_order g) = Some TypeError /\
    len (teams (fst (state_of (start set_order g)))) = 1.
Proof.
  destruct (lone_cell_round H)
    as (g & g' & L & U & C' & T' & T & P' & P & C).
  exists g. split; [exact L|]. split; [now rewrite T|].
  assert (G : exists grid, _update_grid g (_generate_grid g) = Some grid).
  { unfold _update_grid, _generate_grid. rewrite C, P.
    eexists. vm_compute. reflexivity. }
  assert (G' : exists grid, _update_grid g' (_generate_grid g') = Some grid).
  { unfold _update_grid, _generate_grid. rewrite C', P'.
    eexists. vm_compute. reflexivity. }
  destruct G as [grid G], G' as [grid' G'].
  unfold start. rewrite G, P. cbn [refresh load_defaults_properties Z.eqb].
  change (Z.to_nat (win_round load_defaults_properties)) with (S 511).
  rewrite game_loop_S, U, G', T'. cbn. rewrite T'. split; reflexivity.
Qed.

Lemma single_team_no_winner_witness :
  exists g,
    load_game [] [line "1x"] init = Done g tt /\
    len (teams g) = 1 /\
    raised (start insertion_order g) = Some TypeError /\
    len (teams (fst (state_of (start insertion_order g)))) = 1.
Proof. exact (single_team_no_winner insertion_order_ok). Defined.

(** Whenever the first round of a game leaves exactly one team in the
    registry, the main loop raises TypeError: the lookup of the single team,
    [self.teams.values()[0]], subscripts a dictionary view. *)
Lemma one_team_type_error set_order g g' grid grid' :
  refresh (properties g) <> 0 ->
  0 < win_round (properties g) ->
  _update_grid g (_generate_grid g) = Some grid ->
  _update_cells set_order g = Done g' tt ->
  _update_grid g' (_generate_grid g') = Some grid' ->
  len (teams g') = 1 ->
  raised (start set_order g) = Some TypeError.
Proof.
  intros R W G U G' T. unfold start.
  apply Z.eqb_neq in R. rewrite R, G.
  destruct (Z.to_nat (win_round (properties g))) as [|n] eqn:E; [lia|].
  rewrite game_loop_S, U, G', T. reflexivity.
Qed.



(** ** C8: loading a configuration *)

Lemma lower_lower s : lower (lower s) = lower s.
Proof.
  unfold lower, chars. rewrite list_ascii_of_string_of_list_ascii.
  f_equal. rewrite map_map. apply map_ext. intros c.
  unfold char_lower.
  destruct ((65 <=? nat_of_ascii c)%nat && (nat_of_ascii c <=? 90)%nat)
    eqn:U; [|now rewrite U].
  apply andb_true_iff in U. destruct U as [U1 U2].
  apply Nat.leb_le in U1, U2.
  rewrite nat_ascii_embedding by lia.
  replace ((nat_of_ascii c + 32 <=? 90)%nat) with false
    by (symmetry; apply Nat.leb_gt; lia).
  now rewrite andb_false_r.
Qed.

Lemma lower_not_digits val :
  String.eqb (lower val) "true" || String.eqb (lower val) "false" = true ->
  isdigit val = false.
Proof.
  unfold lower, isdigit, chars.
  destruct (list_ascii_of_string val) as [|c l]; [reflexivity|].
  destruct (forallb char_isdigit (c :: l)) eqn:D; [|reflexivity].
  cbn [map forallb] in *. apply andb_true_iff in D. destruct D as [D _].
  intros E. exfalso. cbn [string_of_list_ascii] in E.
  assert (F : char_lower c = "t"%char \/ char_lower c = "f"%char).
  { apply orb_true_iff in E. destruct E as [E|E];
      apply String.eqb_eq in E; injection E; intros; subst; auto. }
  assert (L : char_isdigit (char_lower c) = true).
  { unfold char_lower, char_isdigit in *.
    apply andb_true_iff in D. destruct D as [D1 D2].
    apply Nat.leb_le in D1, D2.
    replace ((65 <=? nat_of_ascii c)%nat) with false
      by (symmetry; apply Nat.leb_gt; lia).
    cbn [andb]. apply andb_true_iff; split; apply Nat.leb_le; assumption. }
  destruct F as [F|F]; rewrite F in L; discriminate L.
Qed.

Ltac case_prop prop :=
  repeat match goal with
  | |- context [String.eqb prop ?s] =>
      destruct (String.eqb_spec prop s) as [->|?]; cbn
  end.

Lemma config_line_accepted g l :
  accepted l = true ->
  exists p, config_line g l = Done (with_properties g p) tt.
Proof.
  unfold accepted, config_line, set_property.
  destruct (split (strip l)) as [|prop [|val [|? ?]]]; try discriminate.
  unfold is_property, _validate, validations, documented_range.
  case_prop prop; try discriminate; intros A.
  all: try (apply andb_true_iff in A; destruct A as [A A3];
            apply andb_true_iff in A; destruct A as [A1 A2];
            rewrite A1; unfold between; rewrite A2, A3; cbn; eauto).
  rewrite (lower_not_digits _ A), lower_lower, A. eauto.
Qed.

Lemma config_line_rejected g l :
  accepted l = false -> exists e, config_line g l = Raised g e.
Proof.
  unfold accepted, config_line, set_property.
  destruct (split (strip l)) as [|prop [|val [|? ?]]]; eauto.
  unfold is_property, _validate, validations, documented_range.
  case_prop prop; eauto; intros A.
  all: try (destruct (isdigit val); [|eauto];
            unfold between; cbn in A; rewrite A; eauto).
  destruct (isdigit val); [eauto|].
  rewrite lower_lower, A. eauto.
Qed.

Lemma load_config_accepted config g :
  forallb accepted config = true ->
  exists p, load_config config g = Done (with_properties g p) tt.
Proof.
  unfold load_config. revert g.
  induction config as [|l config IH]; intros g A; cbn in *.
  - exists (properties g). now destruct g.
  - apply andb_true_iff in A. destruct A as [A1 A2].
    destruct (config_line_accepted g _ A1) as [p ->]. cbn.
    destruct (IH (with_properties g p) A2) as [p' ->]. now exists p'.
Qed.

Lemma first_rejected config :
  forallb accepted config = false ->
  exists good bad rest,
    config = good ++ bad :: rest /\
    forallb accepted good = true /\ accepted bad = false.
Proof.
  induction config as [|l config IH]; cbn; [discriminate|].
  destruct (accepted l) eqn:A; cbn.
  - intros F. destruct (IH F) as (good & bad & rest & -> & G & B).
    exists (l :: good), bad, rest. cbn. now rewrite A, G.
  - intros _. now exists [], l, config.
Qed.

Lemma load_config_rejected good bad rest g :
  forallb accepted good = true -> accepted bad = false ->
  exists p e,
    load_config good g = Done (with_properties g p) tt /\
    load_config (good ++ bad :: rest) g = Raised (with_properties g p) e.
Proof.
  intros G B. destruct (load_config_accepted _ g G) as [p E].
  destruct (config_line_rejected (with_properties g p) _ B) as [e R].
  exists p, e. split; [exact E|].
  unfold load_config in *. rewrite for_each_app, E. cbn. now rewrite R.
Qed.

(** C8, as the code has it. Loading a configuration raises exactly when some
    line is not an accepted one (a known property with a value in its
    documented range, or [true]/[false] for [output]). The load stops at the
    first such line: the object is left as the load of the lines before it
    leaves it, with the properties they set, and the cells and teams
    untouched. *)
Theorem load_config_stops_at_first_rejected_line config g :
  (raised (load_config config g) = None <-> forallb accepted config = true) /\
  (forall good bad rest,
      config = good ++ bad :: rest ->
      forallb accepted good = true -> accepted bad = false ->
      exists g' e,
        load_config good g = Done g' tt /\
        load_config config g = Raised g' e /\
        cells g' = cells g /\ teams g' = teams g).
Proof.
  split.
  - split.
    + intros R. destruct (forallb accepted config) eqn:F; [reflexivity|].
      destruct (first_rejected _ F) as (good & bad & rest & -> & G & B).
      destruct (load_config_rejected _ _ rest g G B) as (p & e & _ & E).
      rewrite E in R. discriminate R.
    + intros F. destruct (load_config_accepted _ g F) as [p ->]. reflexivity.
  - intros good bad rest -> G B.
    destruct (load_config_rejected _ _ rest g G B) as (p & e & E1 & E2).
    exists (with_properties g p), e. now rewrite E1, E2.
Qed.

Lemma load_config_stops_at_first_rejected_line_witness :
  exists g' e,
    load_config [line "width:20"] init = Done g' tt /\
    load_config [line "width:20"; line "bogus:1"; line "height:20"] init
      = Raised g' e /\
    cells g' = cells init /\ teams g' = teams init.
Proof.
  apply (proj2 (load_config_stops_at_first_rejected_line
                  [line "width:20"; line "bogus:1"; line "height:20"] init)
               [line "width:20"] (line "bogus:1") [line "height:20"]);
    vm_compute; reflexivity.
Defined.

(** C8, as stated, fails: the load of the two lines [width:20] and [bogus:1]
    raises ValueError at the second line, and the width keeps the value 20
    of the first line instead of the 30 it had before the call. *)
Lemma load_config_partially_applied :
  let o := load_config [line "width:20"; line "bogus:1"] init in
  raised o = Some ValueError /\
  width (properties init) = 30 /\
  width (properties (state_of o)) = 20 /\
  properties (state_of o) <> properties init.
Proof. vm_compute. repeat split; discriminate. Qed.

(** ** C9: loading the cells *)

Lemma chars_append s1 s2 : chars (s1 ++ s2) = (chars s1 ++ chars s2)%list.
Proof.
  unfold chars. induction s1 as [|c s1 IH]; cbn; [reflexivity|].
  now rewrite IH.
Qed.

Lemma digit_not_space c : char_isdigit c = true -> char_isspace c = false.
Proof.
  unfold char_isdigit, char_isspace. intros D.
  apply andb_true_iff in D. destruct D as [D1 D2].
  apply Nat.leb_le in D1, D2.
  apply orb_false_iff. split; apply andb_false_iff.
  - right. apply Nat.leb_gt. lia.
  - right. apply Nat.leb_gt. lia.
Qed.

Lemma lstrip_keep c l : char_isspace c = false -> lstrip (c :: l) = c :: l.
Proof. cbn. now intros ->. Qed.

Lemma well_formed_digits t :
  well_formed t = true ->
  digits t <> [] /\ forallb char_isdigit (digits t) = true /\
  char_isdigit (symbol t) = false /\ char_isspace (symbol t) = false /\
  0 < count t.
Proof.
  unfold well_formed. rewrite !andb_true_iff, !negb_true_iff, Z.ltb_lt.
  intros [[[D S1] S2] C]. destruct (digits t) eqn:E; [discriminate|].
  repeat split; auto. discriminate.
Qed.

Lemma row_text_ends ts :
  forallb well_formed ts = true -> ts <> [] ->
  exists c l c' l',
    flat_map token_text ts = c :: l /\ char_isspace c = false /\
    rev (flat_map token_text ts) = c' :: l' /\ char_isspace c' = false.
Proof.
  intros W N. destruct ts as [|t ts]; [congruence|]. clear N.
  cbn in W. apply andb_true_iff in W. destruct W as [Wt W].
  assert (F : exists c l, flat_map token_text (t :: ts) = c :: l /\
                          char_isspace c = false).
  { apply well_formed_digits in Wt. destruct Wt as (D & A & _).
    cbn. unfold token_text. destruct (digits t) as [|c ds]; [congruence|].
    exists c. eexists. split; [reflexivity|]. cbn in A.
    apply andb_true_iff in A. now apply digit_not_space. }
  destruct F as (c & l & F1 & F2). exists c, l.
  assert (L : exists c' l', rev (flat_map token_text (t :: ts)) = c' :: l' /\
                            char_isspace c' = false).
  { clear F1 F2. revert t Wt. induction ts as [|t' ts IH]; intros t Wt.
    - cbn. rewrite app_nil_r. unfold token_text. rewrite rev_app_distr. cbn.
      apply well_formed_digits in Wt. eexists. eexists. split; [reflexivity|].
      tauto.
    - cbn in W. apply andb_true_iff in W. destruct W as [Wt' W].
      destruct (IH W t' Wt') as (c' & l' & E & S).
      change (flat_map token_text (t :: t' :: ts))
        with (token_text t ++ flat_map token_text (t' :: ts))%list.
      rewrite rev_app_distr, E. cbn. eauto. }
  destruct L as (c' & l' & L1 & L2). exists c', l'. tauto.
Qed.

Lemma strip_row_text ts :
  forallb well_formed ts = true ->
  chars (strip (line (row_text ts))) = flat_map token_text ts.
Proof.
  intros W. unfold strip, line, row_text.
  rewrite chars_append. unfold chars.
  rewrite !list_ascii_of_string_of_list_ascii.
  cbn [list_ascii_of_string].
  destruct ts as [|t ts]; [reflexivity|].
  destruct (@row_text_ends (t :: ts) W) as (c & l & c' & l' & E1 & S1 & E2 & S2);
    [discriminate|].
  rewrite E1. cbn [app]. rewrite lstrip_keep by exact S1.
  change (c :: (l ++ [ascii_of_nat 10]))%list
    with ((c :: l) ++ [ascii_of_nat 10])%list.
  rewrite <- E1, rev_app_distr. cbn [rev app].
  cbn [lstrip]. replace (char_isspace (ascii_of_nat 10)) with true by reflexivity.
  rewrite E2, lstrip_keep by exact S2. rewrite <- E2. apply rev_involutive.
Qed.

Import PyDictFacts.

Lemma place_spec y v g x :
  properties (place y v g x) = properties g /\
  forall p, In p (PyDict.keys (cells (place y v g x))) <->
            p = (x, y) \/ In p (PyDict.keys (cells g)).
Proof.
  unfold place.
  assert (E : exists g0 team,
             (if negb (PyDict.mem (teams g) v) then new_team g v else g) = g0
             /\ PyDict.get (teams g0) v = Some team
             /\ properties g0 = properties g /\ cells g0 = cells g).
  { unfold PyDict.mem. destruct (PyDict.get (teams g) v) as [team|] eqn:G.
    - exists g, team. cbn. tauto.
    - exists (new_team g v), (next_uuid g). cbn.
      split; [reflexivity|]. split; [apply get_set_same|]. tauto. }
  destruct E as (g0 & team & -> & -> & P & C).
  cbn [with_score with_cells cells properties]. split; [exact P|].
  intros p. rewrite In_keys_set, C. tauto.
Qed.

Lemma fold_place_spec y v xs g :
  properties (fold_left (place y v) xs g) = properties g /\
  forall p, In p (PyDict.keys (cells (fold_left (place y v) xs g))) <->
            In p (PyDict.keys (cells g)) \/ In p (map (fun x => (x, y)) xs).
Proof.
  revert g. induction xs as [|x xs IH]; intros g; cbn.
  - split; [reflexivity | tauto].
  - destruct (IH (place y v g x)) as [P K].
    destruct (place_spec y v g x) as [P' K'].
    split; [congruence|]. intros p. rewrite K, K'.
    split; [intros [[->|I]|I] | intros [I|[<-|I]]]; auto.
Qed.

Lemma last_py_range x n : 0 < n -> last (py_range x (x + n)) x + 1 = x + n.
Proof.
  intros N. unfold py_range. replace (x + n - x) with n by lia.
  destruct (Z.to_nat n) as [|k] eqn:E; [lia|].
  rewrite seq_S, map_app. cbn [map]. rewrite last_last. lia.
Qed.

Lemma token_spec y t g x :
  well_formed t = true ->
  exists g',
    token y (count t) (String (symbol t) EmptyString) g x
      = Done (g', x + count t) tt /\
    properties g' = properties g /\
    forall p, In p (PyDict.keys (cells g')) <->
              In p (PyDict.keys (cells g)) \/
              In p (map (fun x => (x, y))
                        (if Ascii.eqb (symbol t) "." then []
                         else py_range x (x + count t))).
Proof.
  intros W. apply well_formed_digits in W. destruct W as (_ & _ & _ & _ & C).
  unfold token, str_eq_int. cbn [andb String.eqb].
  destruct (Ascii.eqb (symbol t) ".").
  - exists g. cbn. repeat split; tauto.
  - cbn [andb]. eexists. split; [|apply fold_place_spec].
    now rewrite last_py_range.
Qed.

Lemma row_digits y ds l amount g x :
  forallb char_isdigit ds = true ->
  row y (ds ++ l) amount g x = row y l (rev ds ++ amount) g x.
Proof.
  revert amount. induction ds as [|d ds IH]; intros amount D; cbn in *.
  - reflexivity.
  - apply andb_true_iff in D. destruct D as [D1 D2]. rewrite D1.
    rewrite IH by exact D2. now rewrite <- app_assoc.
Qed.

Lemma row_token y t l g x :
  well_formed t = true ->
  row y (token_text t ++ l) [] g x =
  bind (token y (count t) (String (symbol t) EmptyString) g x)
       (fun gx _ => row y l [] (fst gx) (snd gx)).
Proof.
  intros W. apply well_formed_digits in W.
  destruct W as (N & D & S & _ & _).
  unfold token_text. rewrite <- app_assoc, row_digits by exact D.
  cbn [app row]. rewrite S, app_nil_r.
  destruct (rev (digits t)) as [|c r] eqn:R.
  - exfalso. apply N. apply (f_equal (@rev ascii)) in R.
    now rewrite rev_involutive in R.
  - rewrite <- R, rev_involutive. reflexivity.
Qed.

Lemma row_spec y ts g x :
  forallb well_formed ts = true ->
  exists g',
    row y (flat_map token_text ts) [] g x = Done (g', x + row_width ts) tt /\
    properties g' = properties g /\
    forall p, In p (PyDict.keys (cells g')) <->
              In p (PyDict.keys (cells g)) \/
              In p (map (fun x => (x, y)) (covered x ts)).
Proof.
  revert g x. induction ts as [|t ts IH]; intros g x W.
  - exists g. cbn. rewrite Z.add_0_r. repeat split; tauto.
  - cbn in W. apply andb_true_iff in W. destruct W as [Wt W].
    cbn [flat_map]. rewrite row_token by exact Wt.
    destruct (token_spec y t g x Wt) as (g1 & -> & P1 & K1). cbn [bind fst snd].
    destruct (IH g1 (x + count t) W) as (g2 & -> & P2 & K2).
    exists g2. split; [unfold row_width; cbn [fold_right]; now rewrite Z.add_assoc|].
    split; [congruence|]. intros p. rewrite K2, K1. cbn [covered].
    rewrite map_app, in_app_iff. tauto.
Qed.

Lemma rows_spec (file : list (list Token)) y g :
  forallb (forallb well_formed) file = true ->
  exists g',
    rows y (map (fun ts => line (row_text ts)) file) g = Done g' tt /\
    properties g' = properties g /\
    forall p, In p (PyDict.keys (cells g')) <->
              In p (PyDict.keys (cells g)) \/ In p (covered_file y file).
Proof.
  revert g y. induction file as [|ts file IH]; intros g y W.
  - exists g. cbn. repeat split; tauto.
  - cbn in W. apply andb_true_iff in W. destruct W as [Wt W].
    cbn [map rows]. rewrite strip_row_text by exact Wt.
    destruct (row_spec y ts g 0 Wt) as (g1 & -> & P1 & K1). cbn [fst].
    destruct (IH g1 (y + 1) W) as (g2 & -> & P2 & K2).
    exists g2. split; [reflexivity|]. split; [congruence|].
    intros p. rewrite K2, K1. cbn [covered_file]. rewrite in_app_iff. tauto.
Qed.

(** C9, as the code has it. A cells file whose rows consist of
    [<count><symbol>] tokens is loaded without error whatever the number of
    cells the rows cover: nothing compares it with the width. The load keeps
    the properties and adds to the store exactly the positions that the runs
    with a symbol other than [.] cover. *)
Theorem load_cells_ignores_width (file : list (list Token)) g :
  forallb (forallb well_formed) file = true ->
  exists g',
    load_cells (map (fun ts => line (row_text ts)) file) g = Done g' tt /\
    properties g' = properties g /\
    forall p, In p (PyDict.keys (cells g')) <->
              In p (PyDict.keys (cells g)) \/ In p (covered_file 0 file).
Proof. intros W. unfold load_cells. now apply rows_spec. Qed.

Lemma load_cells_ignores_width_witness :
  row_width [mkToken ["3"%char] "x"] < width (properties init) /\
  exists g',
    load_cells [line "3x"] init = Done g' tt /\
    properties g' = properties init /\
    forall p, In p (PyDict.keys (cells g')) <->
              In p (PyDict.keys (cells init)) \/
              In p [(0, 0); (1, 0); (2, 0)].
Proof.
  split; [vm_compute; reflexivity|].
  apply (@load_cells_ignores_width [[mkToken ["3"%char] "x"]] init).
  vm_compute. reflexivity.
Defined.

(** C9, as stated, fails: with the default width of 30, the one-line cells
    file [3x], whose tokens cover 3 cells, is loaded without error and gives
    three cells. *)
Lemma load_cells_accepts_short_row :
  let o := load_cells [line "3x"] init in
  width (properties init) = 30 /\
  raised o = None /\
  PyDict.keys (cells (state_of o)) = [(0, 0); (1, 0); (2, 0)].
Proof. vm_compute. repeat split. Qed.

(** ** Sorting in descending order *)

Lemma filter_none {A} (f : A -> bool) l :
  (forall a, In a l -> f a = false) -> filter f l = [].
Proof.
  induction l as [|a l IH]; cbn; intros F; [reflexivity|].
  rewrite (F a) by now left. apply IH. intros; apply F; now right.
Qed.

Section Sorting.
Context {A : Type} (key : A -> Z).

Lemma insert_desc_perm x l : Permutation (x :: l) (insert_desc key x l).
Proof.
  induction l as [|y l IH]; cbn; [apply Permutation_refl|].
  destruct (key y <=? key x); [apply Permutation_refl|].
  eapply perm_trans; [apply perm_swap|]. now apply perm_skip.
Qed.

Lemma sorted_desc_perm l : Permutation l (sorted_desc key l).
Proof.
  induction l as [|x l IH]; cbn; [constructor|].
  eapply perm_trans; [apply perm_skip, IH | apply insert_desc_perm].
Qed.

Lemma insert_desc_sorted x l : desc key l -> desc key (insert_desc key x l).
Proof.
  unfold desc. induction 1 as [|y l S IH F]; cbn.
  - repeat constructor.
  - destruct (Z.leb_spec (key y) (key x)) as [L|L].
    + constructor; [now constructor|].
      constructor; [exact L|].
      eapply Forall_impl; [|exact F]. cbn. intros; lia.
    + constructor; [exact IH|].
      eapply Permutation_Forall; [apply insert_desc_perm|].
      constructor; [lia | exact F].
Qed.

Lemma sorted_desc_sorted l : desc key (sorted_desc key l).
Proof.
  induction l as [|x l IH]; cbn; [constructor|].
  now apply insert_desc_sorted.
Qed.

Lemma desc_head h l : desc key (h :: l) -> forall a, In a (h :: l) -> key a <= key h.
Proof.
  intros S a [<-|I]; [lia|].
  apply StronglySorted_inv in S. destruct S as [_ F].
  rewrite Forall_forall in F. now apply F.
Qed.

Lemma desc_tail h l : desc key (h :: l) -> desc key l.
Proof. intros S. now apply StronglySorted_inv in S. Qed.

(** On a descending list, leaving the loop at the first key below [m]
    keeps exactly the elements whose key is at least [m]. *)
Lemma take_while_desc m l :
  desc key l ->
  take_while (fun a => negb (key a <? m)) l
  = filter (fun a => negb (key a <? m)) l.
Proof.
  induction l as [|a l IH]; intros S; cbn; [reflexivity|].
  destruct (Z.ltb_spec (key a) m) as [L|L]; cbn.
  - symmetry. apply filter_none. intros b I.
    assert (key b <= key a) by (apply (desc_head S); now right).
    apply negb_false_iff, Z.ltb_lt. lia.
  - f_equal. apply IH. eapply desc_tail; eauto.
Qed.

End Sorting.

(** ** The tally of the neighbours of a candidate *)

Lemma tally_of_cons c l t :
  tally_of (c :: l) t
  = (if N.eqb (cell_team c) t then 1 else 0) + tally_of l t.
Proof.
  unfold tally_of, len. cbn [filter].
  destruct (N.eqb (cell_team c) t); cbn [List.length]; lia.
Qed.

Lemma tally_of_nonneg l t : 0 <= tally_of l t.
Proof. unfold tally_of, len. lia. Qed.

Lemma tally_step_get ctl c t :
  PyDict.get (tally_step ctl c) t =
  if N.eqb (cell_team c) t
  then Some (match PyDict.get ctl t with Some k => k + 1 | None => 1 end)
  else PyDict.get ctl t.
Proof.
  unfold tally_step, PyDict.mem.
  destruct (N.eqb_spec (cell_team c) t) as [<-|ne].
  - destruct (PyDict.get ctl (cell_team c)) as [k|] eqn:G; cbn [negb].
    + rewrite G. apply get_set_same.
    + rewrite get_set_same. rewrite get_set_same. reflexivity.
  - assert (ne' : t <> cell_team c) by congruence.
    destruct (PyDict.get ctl (cell_team c)) as [k|] eqn:G; cbn [negb].
    + rewrite G. now apply get_set_other.
    + rewrite get_set_same. rewrite !get_set_other by exact ne'. reflexivity.
Qed.

Lemma tally_step_NoDup ctl c :
  NoDup (PyDict.keys ctl) -> NoDup (PyDict.keys (tally_step ctl c)).
Proof.
  intros ND. unfold tally_step.
  set (ctl1 := if negb (PyDict.mem ctl (cell_team c))
               then PyDict.set ctl (cell_team c) 0 else ctl).
  assert (ND1 : NoDup (PyDict.keys ctl1)).
  { unfold ctl1. destruct (negb _); [now apply NoDup_keys_set | exact ND]. }
  destruct (PyDict.get ctl1 (cell_team c)); [now apply NoDup_keys_set|].
  exact ND1.
Qed.

Lemma fold_tally_get l ctl t :
  PyDict.get (fold_left tally_step l ctl) t =
  match PyDict.get ctl t with
  | Some k => Some (k + tally_of l t)
  | None => if 0 <? tally_of l t then Some (tally_of l t) else None
  end.
Proof.
  revert ctl. induction l as [|c l IH]; intros ctl; cbn [fold_left].
  - change (tally_of [] t) with 0. cbn.
    destruct (PyDict.get ctl t); [f_equal; lia | reflexivity].
  - rewrite IH, tally_step_get, tally_of_cons.
    assert (P := tally_of_nonneg l t).
    destruct (N.eqb (cell_team c) t).
    + destruct (PyDict.get ctl t).
      * f_equal; lia.
      * replace (0 <? 1 + tally_of l t) with true
          by (symmetry; apply Z.ltb_lt; lia).
        f_equal; lia.
    + reflexivity.
Qed.

Lemma fold_tally_NoDup l ctl :
  NoDup (PyDict.keys ctl) -> NoDup (PyDict.keys (fold_left tally_step l ctl)).
Proof.
  revert ctl. induction l as [|c l IH]; intros ctl ND; cbn; [exact ND|].
  now apply IH, tally_step_NoDup.
Qed.

Lemma tally_NoDup alive : NoDup (PyDict.keys (tally alive)).
Proof. apply fold_tally_NoDup. constructor. Qed.

Lemma in_tally alive t n :
  In (t, n) (tally alive) <-> 0 < n /\ n = tally_of alive t.
Proof.
  assert (G := fold_tally_get alive [] t). cbn [PyDict.get] in G.
  fold (tally alive) in G. split.
  - intros I. apply (In_get _ _ _ (tally_NoDup alive)) in I.
    rewrite I in G. destruct (Z.ltb_spec 0 (tally_of alive t)); [|discriminate].
    injection G as ->. tauto.
  - intros [P ->]. apply get_In. rewrite G.
    now replace (0 <? tally_of alive t) with true
      by (symmetry; now apply Z.ltb_lt).
Qed.

(** ** The revival of a candidate *)

Lemma NoDup_map_filter {A B} (f : A -> B) (keep : A -> bool) l :
  NoDup (map f l) -> NoDup (map f (filter keep l)).
Proof.
  induction l as [|a l IH]; cbn; intros ND; [constructor|].
  inversion ND as [|? ? N ND']; subst.
  destruct (keep a); cbn; [|now apply IH].
  constructor; [|now apply IH].
  intros I. apply N. apply in_map_iff in I. destruct I as (b & E & I).
  apply filter_In in I. apply in_map_iff. exists b. tauto.
Qed.

Section Revival.
Variable score : Team -> Z.
Variable alive : list Cell.

Let dominant_teams := sorted_desc snd (tally alive).

Lemma in_dominant_teams t n :
  In (t, n) dominant_teams <-> 0 < n /\ n = tally_of alive t.
Proof.
  rewrite <- in_tally. unfold dominant_teams. split; intros I.
  - eapply Permutation_in; [apply Permutation_sym, sorted_desc_perm | exact I].
  - eapply Permutation_in; [apply sorted_desc_perm | exact I].
Qed.

Lemma NoDup_dominant_teams : NoDup (map fst dominant_teams).
Proof.
  eapply Permutation_NoDup; [|apply (tally_NoDup alive)].
  apply Permutation_map, sorted_desc_perm.
Qed.

Lemma dominant_teams_nonempty : alive <> [] -> dominant_teams <> [].
Proof.
  intros N E.
  assert (A : exists c l, alive = c :: l).
  { clear E. revert N. generalize alive. intros [|c l] N; [congruence|eauto]. }
  destruct A as (c & l & A).
  assert (I : In (cell_team c, tally_of alive (cell_team c)) dominant_teams).
  { apply in_dominant_teams. split; [|reflexivity].
    rewrite A, tally_of_cons, N.eqb_refl.
    assert (P := tally_of_nonneg l (cell_team c)). lia. }
  rewrite E in I. destruct I.
Qed.

(** The head of [dominant_teams] carries the maximum tally. *)
Lemma max_control_spec t0 m rest :
  dominant_teams = (t0, m) :: rest ->
  0 < m /\ m = tally_of alive t0 /\ forall t, tally_of alive t <= m.
Proof.
  intros E.
  assert (I : In (t0, m) dominant_teams) by (rewrite E; now left).
  apply in_dominant_teams in I. destruct I as [P M].
  repeat split; try assumption. intros t.
  destruct (Z.ltb_spec 0 (tally_of alive t)) as [L|L]; [|lia].
  assert (J : In (t, tally_of alive t) dominant_teams)
    by now apply in_dominant_teams.
  assert (S := sorted_desc_sorted snd (tally alive)).
  fold dominant_teams in S. rewrite E in S, J.
  exact (desc_head S J).
Qed.

Lemma in_leaders t0 m rest t :
  dominant_teams = (t0, m) :: rest ->
  In t (leaders alive m) <-> tally_of alive t = m.
Proof.
  intros E. destruct (max_control_spec E) as (P & M & Mx).
  unfold leaders. rewrite take_while_desc by apply sorted_desc_sorted.
  rewrite in_map_iff. split.
  - intros ([t' n] & <- & I). apply filter_In in I. destruct I as [I K].
    apply in_dominant_teams in I. cbn in *.
    apply negb_true_iff, Z.ltb_ge in K. specialize (Mx t'). lia.
  - intros T. exists (t, m). split; [reflexivity|].
    apply filter_In. split.
    + apply in_dominant_teams. split; [exact P | now symmetry].
    + cbn. apply negb_true_iff, Z.ltb_ge. lia.
Qed.

Lemma NoDup_leaders m : NoDup (leaders alive m).
Proof.
  unfold leaders. rewrite take_while_desc by apply sorted_desc_sorted.
  apply NoDup_map_filter, NoDup_dominant_teams.
Qed.

Lemma in_highest m t :
  In t (sorted_desc score (leaders alive m)) <-> In t (leaders alive m).
Proof.
  split; intros I.
  - eapply Permutation_in; [apply Permutation_sym, sorted_desc_perm | exact I].
  - eapply Permutation_in; [apply sorted_desc_perm | exact I].
Qed.

Lemma NoDup_highest m : NoDup (sorted_desc score (leaders alive m)).
Proof.
  eapply Permutation_NoDup; [apply sorted_desc_perm | apply NoDup_leaders].
Qed.

(** The team that controls is the first of [highest], and the second, if
    any, has a lower score. *)
Lemma controls_head t0 m rest t :
  dominant_teams = (t0, m) :: rest ->
  controls score alive t ->
  exists others,
    sorted_desc score (leaders alive m) = t :: others /\
    forall s, In s others -> score s < score t.
Proof.
  intros E (P & Mx & Lo).
  destruct (max_control_spec E) as (Pm & M & Mxm).
  assert (T : tally_of alive t = m).
  { specialize (Mx t0). specialize (Mxm t). lia. }
  assert (I : In t (sorted_desc score (leaders alive m))).
  { apply in_highest. now apply (in_leaders _ E). }
  assert (S := sorted_desc_sorted score (leaders alive m)).
  assert (ND := NoDup_highest m).
  destruct (sorted_desc score (leaders alive m)) as [|dom others] eqn:H;
    [destruct I|].
  assert (D : dom = t).
  { destruct (N.eq_dec dom t) as [e|ne]; [exact e|]. exfalso.
    assert (Td : tally_of alive dom = m).
    { apply (in_leaders _ E), in_highest. rewrite H. now left. }
    assert (score dom < score t) by (apply Lo; [exact ne | congruence]).
    assert (score t <= score dom) by exact (desc_head S I). lia. }
  subst dom. exists others. split; [reflexivity|]. intros s J.
  inversion ND as [|? ? N _]; subst.
  apply Lo.
  - intros ->. now apply N.
  - rewrite T. apply (in_leaders _ E), in_highest. rewrite H. now right.
Qed.

(** When the first of [highest] is not tied with the second, it controls. *)
Lemma head_controls t0 m rest dom others :
  dominant_teams = (t0, m) :: rest ->
  sorted_desc score (leaders alive m) = dom :: others ->
  match others with
  | second :: _ => score dom <> score second
  | [] => True
  end ->
  controls score alive dom.
Proof.
  intros E H U. destruct (max_control_spec E) as (Pm & M & Mxm).
  assert (Td : tally_of alive dom = m).
  { apply (in_leaders _ E), in_highest. rewrite H. now left. }
  assert (S := sorted_desc_sorted score (leaders alive m)). rewrite H in S.
  split; [lia|]. split; [intros t'; rewrite Td; apply Mxm|].
  intros t' ne T.
  assert (I : In t' (dom :: others)).
  { rewrite <- H. apply in_highest, (in_leaders _ E). congruence. }
  destruct I as [e|I]; [congruence|].
  destruct others as [|second others']; [destruct I|].
  assert (score second <= score dom) by (apply (desc_head S); right; now left).
  assert (score t' <= score second)
    by exact (desc_head (desc_tail S) I).
  lia.
Qed.

End Revival.

Lemma len_nil_lt {A} (l : list A) : 3 <= len l -> l <> [].
Proof. intros L ->. cbn in L. lia. Qed.

(** The two ways a candidate is processed *)
Lemma revive_step_shape (r : Round) (p : pos) :
  let g := game r in
  let alive := fst (_get_neighbours g (fst p) (snd p)) in
  (len alive < 3 /\ revive_step r p = Done r tt) \/
  (3 <= len alive /\ exists t0 m rest dom others,
      sorted_desc snd (tally alive) = (t0, m) :: rest /\
      sorted_desc (team_score g) (leaders alive m) = dom :: others /\
      revive_step r p =
      if match others with
         | second :: _ =>
             (1 <? len (dom :: others))
             && (team_score g dom =? team_score g second)
         | [] => false
         end
      then Done r tt else Done (revived r p dom) tt).
Proof.
  intros g alive. unfold revive_step. subst alive g.
  destruct (_get_neighbours (game r) (fst p) (snd p)) as [alive dead].
  cbn [fst]. destruct (Z.ltb_spec (len alive) 3) as [L|L]; [now left|].
  right. split; [exact L|].
  destruct (sorted_desc snd (tally alive)) as [|[t0 m] rest] eqn:E.
  { exfalso. exact (dominant_teams_nonempty (len_nil_lt L) E). }
  cbv beta iota zeta. rewrite <- E. fold (leaders alive m).
  destruct (sorted_desc (team_score (game r)) (leaders alive m))
    as [|dom others] eqn:H.
  { exfalso.
    assert (I : In t0 (sorted_desc (team_score (game r)) (leaders alive m))).
    { apply in_highest, (in_leaders alive t0 E).
      now destruct (max_control_spec alive E) as (_ & -> & _). }
    rewrite H in I. destruct I. }
  exists t0, m, rest, dom, others.
  split; [exact E|]. split; [exact H|].
  destruct others; reflexivity.
Qed.

Lemma revive_step_cases r p :
  revive_step r p = Done r tt \/
  exists t, revive_step r p = Done (revived r p t) tt.
Proof.
  destruct (revive_step_shape r p) as [[_ E]|(_ & S)]; [now left|].
  destruct S as (t0 & m & rest & dom & others & _ & _ & ->).
  destruct (match others with [] => false | _ => _ end); [now left|].
  right. now exists dom.
Qed.

Lemma revive_step_controls r p t :
  let g := game r in
  let alive := fst (_get_neighbours g (fst p) (snd p)) in
  3 <= len alive -> controls (team_score g) alive t ->
  revive_step r p = Done (revived r p t) tt.
Proof.
  intros g alive L C. assert (Shape := revive_step_shape r p).
  cbv zeta in Shape. fold g in Shape. fold alive in Shape.
  destruct Shape as [[L' _]|(_ & S)]; [lia|].
  destruct S as (t0 & m & rest & dom & others & E & H & ->).
  destruct (controls_head E C) as (others' & H' & Lo).
  rewrite H in H'. injection H' as -> ->.
  destruct others' as [|second o]; [reflexivity|].
  assert (team_score g second < team_score g t) by (apply Lo; now left).
  replace (team_score g t =? team_score g second) with false
    by (symmetry; apply Z.eqb_neq; lia).
  now rewrite andb_false_r.
Qed.

Lemma revive_step_no_control r p :
  let g := game r in
  let alive := fst (_get_neighbours g (fst p) (snd p)) in
  len alive < 3 \/ (forall t, ~ controls (team_score g) alive t) ->
  revive_step r p = Done r tt.
Proof.
  intros g alive N. assert (Shape := revive_step_shape r p).
  cbv zeta in Shape. fold g in Shape. fold alive in Shape.
  destruct Shape as [[_ S]|(L & S)]; [exact S|].
  destruct N as [N|N]; [lia|].
  destruct S as (t0 & m & rest & dom & others & E & H & ->).
  destruct others as [|second o].
  - exfalso. apply (N dom). now apply (head_controls _ _ E H).
  - replace (1 <? len (dom :: second :: o)) with true
      by (symmetry; apply Z.ltb_lt; unfold len; cbn [List.length]; lia).
    destruct (Z.eqb_spec (team_score g dom) (team_score g second)) as [e|ne];
      [reflexivity|].
    exfalso. apply (N dom). now apply (head_controls _ _ E H).
Qed.

(** The body of the second loop, on any round state. A candidate position
    [p] is revived exactly when it has at least 3
    alive neighbours (whatever the to-kill property) and some team controls:
    it has the maximum tally among the neighbours and a strictly higher
    score than every other team with that tally. Then a cell of that team
    with the death age as lifespan is put at [p] and the score of the team
    goes up by one. Otherwise the step changes nothing. The step reads the
    neighbours from the store of the game, which it leaves as it is. *)
Theorem revive_step_spec (r : Round) (p : pos) :
  let g := game r in
  let alive := fst (_get_neighbours g (fst p) (snd p)) in
  (forall t, 3 <= len alive -> controls (team_score g) alive t ->
             revive_step r p = Done (revived r p t) tt) /\
  (len alive < 3 \/ (forall t, ~ controls (team_score g) alive t) ->
   revive_step r p = Done r tt) /\
  cells (game (state_of (revive_step r p))) = cells g /\
  properties (game (state_of (revive_step r p))) = properties g.
Proof.
  intros g alive. split; [|split].
  - intros t. apply revive_step_controls.
  - apply revive_step_no_control.
  - destruct (revive_step_cases r p) as [->|[t ->]]; now split.
Qed.

Lemma revive_step_spec_witness :
  let r := mkRound game_tie [] [] in
  let alive := fst (_get_neighbours game_tie 1 1) in
  3 <= len alive /\
  controls (team_score game_tie) alive 0%N /\
  revive_step r (1, 1) = Done (revived r (1, 1) 0%N) tt.
Proof.
  intros r alive.
  assert (L : 3 <= len alive) by (vm_compute; discriminate).
  assert (C : controls (team_score game_tie) alive 0%N).
  { unfold controls, alive.
    let v := eval vm_compute in (fst (_get_neighbours game_tie 1 1)) in
    change (fst (_get_neighbours game_tie 1 1)) with v.
    unfold tally_of, len. cbn [filter cell_team N.eqb List.length].
    split; [lia|]. split.
    - intros t'. destruct t'; cbn [filter List.length]; lia.
    - intros t' ne. destruct t'; [congruence|].
      cbn [filter List.length]. lia. }
  split; [exact L|]. split; [exact C|].
  exact (proj1 (revive_step_spec r (1, 1)) 0%N L C).
Defined.

(** ** The first loop: ageing and enemy kills *)

Lemma for_each_invariant {S X} (P : S -> Prop)
    (body : S -> X -> outcome S unit) l s :
  P s ->
  (forall s' x, P s' -> In x l -> P (state_of (body s' x))) ->
  P (state_of (for_each body l s)).
Proof.
  revert s. induction l as [|x l IH]; intros s Ps Step; cbn; [exact Ps|].
  assert (Px : P (state_of (body s x))) by (apply Step; [exact Ps | now left]).
  destruct (body s x) as [s' []|s' e]; cbn in *; [|exact Px].
  apply IH; [exact Px|]. intros; apply Step; [assumption | now right].
Qed.

Lemma get_neighbours_ext g g' x y :
  cells g' = cells g -> properties g' = properties g ->
  _get_neighbours g' x y = _get_neighbours g x y.
Proof. destruct g, g'; cbn. intros -> ->. reflexivity. Qed.

Lemma dead_neighbour_unoccupied g x y q :
  In q (snd (_get_neighbours g x y)) -> PyDict.get (cells g) q = None.
Proof.
  rewrite get_neighbours_flat. cbn [snd]. intros I.
  now apply in_dead_at in I.
Qed.

Lemma in_set_add s q p : In p (set_add s q) <-> p = q \/ In p s.
Proof.
  unfold set_add. destruct (existsb (pos_eqb q) s) eqn:E.
  - split; [tauto|]. intros [->|I]; [|exact I].
    apply existsb_exists in E. destruct E as (q' & I & E).
    destruct (pos_eqb_spec q q'); [now subst | discriminate].
  - rewrite in_app_iff. cbn. intuition.
Qed.

Lemma NoDup_set_add s q : NoDup s -> NoDup (set_add s q).
Proof.
  intros ND. unfold set_add. destruct (existsb (pos_eqb q) s) eqn:E;
    [exact ND|].
  apply NoDup_app; [exact ND | repeat constructor; cbn; tauto |].
  intros p I [<-|[]].
  assert (X : existsb (pos_eqb q) s = true).
  { apply existsb_exists. exists q. split; [exact I|].
    now destruct (pos_eqb_spec q q). }
  congruence.
Qed.

Lemma in_fold_set_add l s p :
  In p (fold_left set_add l s) <-> In p l \/ In p s.
Proof.
  revert s. induction l as [|q l IH]; intros s; cbn; [tauto|].
  rewrite IH, in_set_add. intuition.
Qed.

Lemma NoDup_fold_set_add l s : NoDup s -> NoDup (fold_left set_add l s).
Proof.
  revert s. induction l as [|q l IH]; intros s ND; cbn; [exact ND|].
  now apply IH, NoDup_set_add.
Qed.

Lemma count_enemies_spec c alive :
  count_enemies c alive
  = len (filter (fun n => negb (N.eqb (cell_team n) (cell_team c))) alive).
Proof.
  unfold count_enemies.
  assert (G : forall acc,
    fold_left (fun enemies neighbour =>
                 if negb (N.eqb (cell_team neighbour) (cell_team c))
                 then enemies + 1 else enemies) alive acc
    = acc + len (filter (fun n => negb (N.eqb (cell_team n) (cell_team c)))
                        alive)).
  { induction alive as [|n alive IH]; intros acc; cbn [fold_left filter].
    - unfold len. cbn. lia.
    - rewrite IH. destruct (negb _); unfold len; cbn [List.length]; lia. }
  now rewrite G.
Qed.

(** The body of the first loop in the vocabulary of the specification *)
Lemma age_step_eq g r c :
  cells (game r) = cells g -> properties (game r) = properties g ->
  age_step r c =
  if dies_of_age c then Done r tt
  else
    let dead' :=
      fold_left set_add (snd (_get_neighbours g (cell_x c) (cell_y c)))
                (dead_cells r) in
    if survives g c then
      Done (mkRound (game r) (PyDict.set (new_cells r) (position c) (aged c))
                    dead') tt
    else
      let t := cell_team c in
      let g1 := with_score (game r) t (team_score (game r) t - 1) in
      if team_score (game r) t - 1 =? 0 then
        match PyDict.del (teams (game r)) (team_view (game r) t) with
        | Some teams' =>
            Done (mkRound (with_teams g1 teams') (new_cells r) dead') tt
        | None => Raised (mkRound g1 (new_cells r) dead') KeyError
        end
      else Done (mkRound g1 (new_cells r) dead') tt.
Proof.
  intros C P. unfold age_step, update, survives, enemies_of, dies_of_age.
  cbn [cell_age cell_x cell_y cell_team].
  rewrite (@get_neighbours_ext g (game r) _ _ C P), P.
  destruct (Z.leb_spec (cell_age c - 1) 0) as [L|L].
  - replace (cell_age c - 1 >? 0) with false
      by (symmetry; rewrite Z.gtb_ltb; apply Z.ltb_ge; lia).
    reflexivity.
  - replace (cell_age c - 1 >? 0) with true
      by (symmetry; rewrite Z.gtb_ltb; apply Z.ltb_lt; lia).
    destruct (_get_neighbours g (cell_x c) (cell_y c)) as [alive dead].
    rewrite count_enemies_spec. cbn [fst snd cell_team negb andb].
    destruct (_ <? to_kill (properties g)); [reflexivity|].
    cbn [with_score team_score teams team_view]. rewrite N.eqb_refl.
    reflexivity.
Qed.

Lemma age_step_inv g r c :
  round_inv g r -> round_inv g (state_of (age_step r c)).
Proof.
  intros (C & P & V & D & ND & NK). rewrite (@age_step_eq g r c C P).
  destruct (dies_of_age c); [repeat split; assumption|].
  assert (D' : forall p,
    In p (fold_left set_add (snd (_get_neighbours g (cell_x c) (cell_y c)))
                    (dead_cells r)) ->
    PyDict.get (cells g) p = None).
  { intros p I. apply in_fold_set_add in I. destruct I as [I|I];
      [eapply dead_neighbour_unoccupied; eauto | now apply D]. }
  assert (ND' := NoDup_fold_set_add
                   (snd (_get_neighbours g (cell_x c) (cell_y c))) ND).
  cbv zeta. destruct (survives g c).
  - repeat split; try assumption. now apply NoDup_keys_set.
  - destruct (_ =? 0); [destruct (PyDict.del _ _)|];
      repeat split; assumption.
Qed.

Lemma pass_A_inv g : round_inv g (state_of (pass_A g)).
Proof.
  unfold pass_A. apply for_each_invariant.
  - repeat split; try constructor. intros p [].
  - intros r c I _. now apply age_step_inv.
Qed.

(** ** The second loop: revivals *)

Lemma for_each_total {S X} (body : S -> X -> outcome S unit) l s :
  (forall s' x, exists s'', body s' x = Done s'' tt) ->
  exists s', for_each body l s = Done s' tt.
Proof.
  intros T. revert s. induction l as [|x l IH]; intros s; cbn; [eauto|].
  destruct (T s x) as [s'' ->]. cbn. apply IH.
Qed.

Lemma revive_step_total r p : exists r', revive_step r p = Done r' tt.
Proof. destruct (revive_step_cases r p) as [->|[t ->]]; eauto. Qed.

Lemma pass_B_total set_order r : exists r', pass_B set_order r = Done r' tt.
Proof. apply for_each_total, revive_step_total. Qed.

Lemma revive_step_inv g r p :
  round_inv g r -> round_inv g (state_of (revive_step r p)).
Proof.
  intros I. destruct (revive_step_cases r p) as [->|[t ->]]; [exact I|].
  destruct I as (C & P & V & D & ND & NK). cbn.
  repeat split; try assumption. now apply NoDup_keys_set.
Qed.

(** A revival touches the next store at its candidate only. *)
Lemma revive_step_keys r p k :
  In k (PyDict.keys (new_cells (state_of (revive_step r p)))) ->
  k = p \/ In k (PyDict.keys (new_cells r)).
Proof.
  destruct (revive_step_cases r p) as [->|[t ->]]; cbn [state_of];
    [now right|].
  cbn [revived new_cells]. now rewrite In_keys_set.
Qed.

Lemma revive_step_get r p k :
  k <> p ->
  PyDict.get (new_cells (state_of (revive_step r p))) k
  = PyDict.get (new_cells r) k.
Proof.
  intros ne. destruct (revive_step_cases r p) as [->|[t ->]]; cbn [state_of];
    [reflexivity|].
  cbn [revived new_cells]. now apply get_set_other.
Qed.

Lemma revivals_keys g l r :
  round_inv g r ->
  let r' := state_of (for_each revive_step l r) in
  round_inv g r' /\
  (forall k, In k (PyDict.keys (new_cells r')) ->
             In k l \/ In k (PyDict.keys (new_cells r))) /\
  (forall k, ~ In k l ->
             PyDict.get (new_cells r') k = PyDict.get (new_cells r) k).
Proof.
  revert r. induction l as [|p l IH]; intros r I; cbn [for_each].
  - cbn [state_of]. split; [exact I|].
    split; [intros k J; now right | reflexivity].
  - assert (Ip := revive_step_inv p I).
    assert (Kp := revive_step_keys r p).
    assert (Gp := fun k => @revive_step_get r p k).
    destruct (revive_step_total r p) as [r1 E]. rewrite E in *.
    cbn [bind state_of] in *.
    destruct (IH r1 Ip) as (I' & K' & G'). cbv zeta. split; [exact I'|].
    split.
    + intros k J. destruct (K' k J) as [J'|J']; [left; now right|].
      destruct (Kp k J') as [->|J'']; [left; now left | now right].
    + intros k N. rewrite G' by (intros J; apply N; now right).
      apply Gp. intros ->. apply N. now left.
Qed.

Lemma age_step_store g r c :
  round_inv g r -> next_store_ok r -> next_store_ok (state_of (age_step r c)).
Proof.
  intros (C & P & _) N. rewrite (@age_step_eq g r c C P).
  destruct (dies_of_age c); [exact N|]. cbv zeta.
  destruct (survives g c).
  - intros k c' I. cbn [state_of new_cells] in I. apply In_set in I.
    destruct I as [[-> ->]|I]; [reflexivity | now apply N].
  - destruct (_ =? 0); [destruct (PyDict.del _ _)|]; exact N.
Qed.

Lemma revive_step_store r p :
  next_store_ok r -> next_store_ok (state_of (revive_step r p)).
Proof.
  intros N. destruct (revive_step_cases r p) as [->|[t ->]]; [exact N|].
  intros k c I. cbn [state_of revived new_cells] in I. apply In_set in I.
  destruct I as [[-> ->]|I]; [now destruct p | now apply N].
Qed.

Lemma pass_A_store g : next_store_ok (state_of (pass_A g)).
Proof.
  assert (X : round_inv g (state_of (pass_A g))
              /\ next_store_ok (state_of (pass_A g))); [|apply X].
  unfold pass_A.
  apply (for_each_invariant (fun r => round_inv g r /\ next_store_ok r)).
  - split; [|intros k c []].
    repeat split; try constructor. intros p [].
  - intros r c [I N] _. split; [now apply age_step_inv|].
    eapply age_step_store; eauto.
Qed.

Lemma revivals_store l r :
  next_store_ok r -> next_store_ok (state_of (for_each revive_step l r)).
Proof.
  intros N. apply for_each_invariant; [exact N|].
  intros r' p N' _. now apply revive_step_store.
Qed.

(** ** C5: one cell per position *)

Lemma place_NoDup y v g x :
  NoDup (PyDict.keys (cells g)) ->
  NoDup (PyDict.keys (cells (place y v g x))).
Proof.
  intros ND. unfold place.
  set (g0 := if negb (PyDict.mem (teams g) v) then new_team g v else g).
  assert (C : cells g0 = cells g) by (unfold g0; now destruct (negb _)).
  destruct (PyDict.get (teams g0) v); [|now rewrite C].
  cbn [with_score with_cells cells]. rewrite C. now apply NoDup_keys_set.
Qed.

Lemma token_NoDup y amount v g x :
  NoDup (PyDict.keys (cells g)) ->
  NoDup (PyDict.keys (cells (fst (state_of (token y amount v g x))))).
Proof.
  intros ND. unfold token, str_eq_int. cbn [andb].
  destruct (String.eqb v "."); cbn [state_of fst]; [exact ND|].
  generalize (py_range x (x + amount)). intros xs. revert g ND.
  induction xs as [|x' xs IH]; intros g ND; cbn [fold_left]; [exact ND|].
  now apply IH, place_NoDup.
Qed.

Lemma row_NoDup y l amount g x :
  NoDup (PyDict.keys (cells g)) ->
  NoDup (PyDict.keys (cells (fst (state_of (row y l amount g x))))).
Proof.
  revert amount g x. induction l as [|c l IH]; intros amount g x ND;
    cbn [row].
  - destruct amount; [exact ND | now apply token_NoDup].
  - destruct (char_isdigit c); [now apply IH|].
    destruct amount as [|d ds]; [exact ND|].
    assert (T := @token_NoDup y (int_of_digits (rev (d :: ds)))
                   (String c EmptyString) g x ND).
    destruct (token y _ _ g x) as [[g' x'] []|[g' x'] e];
      cbn [bind state_of fst snd] in *; [now apply IH | exact T].
Qed.

Lemma load_cells_NoDup file g :
  NoDup (PyDict.keys (cells g)) ->
  NoDup (PyDict.keys (cells (state_of (load_cells file g)))).
Proof.
  unfold load_cells. generalize 0. revert g.
  induction file as [|l file IH]; intros g y ND; cbn [rows]; [exact ND|].
  assert (R := @row_NoDup y (chars (strip l)) [] g 0 ND).
  destruct (row y (chars (strip l)) [] g 0) as [[g' x'] []|[g' x'] e];
    cbn [state_of fst] in *; [now apply IH | exact R].
Qed.

(** C5. In a round update every candidate of the second loop is a position
    with no cell in the store the round starts from, and the second loop
    adds keys to the next store at candidates only; so no position that held
    a cell, dropped or not by the first loop, receives a revived cell in the
    same round. The next store, like the store that [load_cells] builds, has
    no key twice, and each of its cells sits at the position of its key. *)
Theorem revivals_on_unoccupied set_order g :
  set_order_ok set_order ->
  let rA := state_of (pass_A g) in
  let rB := state_of (pass_B set_order rA) in
  (forall p, In p (dead_cells rA) -> ~ In p (PyDict.keys (cells g))) /\
  (forall p, In p (PyDict.keys (new_cells rB)) ->
             ~ In p (PyDict.keys (new_cells rA)) ->
             In p (dead_cells rA) /\ ~ In p (PyDict.keys (cells g))) /\
  NoDup (PyDict.keys (new_cells rB)) /\
  (forall k c, In (k, c) (new_cells rB) -> position c = k) /\
  match _update_cells set_order g with
  | Done g' _ => cells g' = new_cells rB
  | Raised _ _ => True
  end /\
  forall file,
    NoDup (PyDict.keys (cells (state_of (load_cells file init)))).
Proof.
  intros H rA rB.
  assert (IA : round_inv g rA) by apply pass_A_inv.
  destruct (@revivals_keys g (set_order (dead_cells rA)) rA IA)
    as (IB & K & _).
  fold (pass_B set_order rA) in IB, K. fold rB in IB, K.
  assert (U : forall p, In p (dead_cells rA) ->
                        ~ In p (PyDict.keys (cells g))).
  { intros p I. apply get_None. now apply IA. }
  split; [exact U|]. split; [|split; [|split; [|split]]].
  - intros p I N. destruct (K p I) as [J|J]; [|contradiction].
    apply (proj1 (set_order_in _ _ H)) in J. split; [exact J | now apply U].
  - apply IB.
  - apply revivals_store, pass_A_store.
  - unfold _update_cells. subst rB rA.
    destruct (pass_A g) as [r []|r e]; [|exact Logic.I].
    cbn [state_of]. destruct (pass_B_total set_order r) as [r' ->].
    reflexivity.
  - intros file. apply load_cells_NoDup. constructor.
Qed.

Lemma revivals_on_unoccupied_witness :
  NoDup (PyDict.keys
           (new_cells (state_of (pass_B insertion_order
                                        (state_of (pass_A game_tie)))))).
Proof.
  exact (proj1 (proj2 (proj2
           (@revivals_on_unoccupied insertion_order game_tie
              insertion_order_ok)))).
Defined.

(** ** What the first loop does to every cell of a sound game *)

Lemma fate_cases g c :
  (dies_of_age c = true /\ killed_by_enemies g c = false
   /\ survives g c = false) \/
  (dies_of_age c = false /\ killed_by_enemies g c = true
   /\ survives g c = false) \/
  (dies_of_age c = false /\ killed_by_enemies g c = false
   /\ survives g c = true).
Proof.
  unfold killed_by_enemies, survives.
  destruct (dies_of_age c); cbn [negb andb]; [tauto|].
  destruct (Z.ltb_spec (enemies_of g c) (to_kill (properties g))) as [L|L].
  - right; right. repeat split. apply Z.leb_gt. lia.
  - right; left. repeat split. apply Z.leb_le. lia.
Qed.

Lemma kills_app g pre c t :
  kills g (pre ++ [c]) t
  = kills g pre t
    + (if N.eqb (cell_team c) t && killed_by_enemies g c then 1 else 0).
Proof.
  unfold kills, len. rewrite filter_app, length_app. cbn [filter].
  destruct (_ && _); cbn [List.length]; lia.
Qed.

Lemma kills_nonneg g cs t : 0 <= kills g cs t.
Proof. unfold kills, len. lia. Qed.

Lemma ages_inv_same_store g pre c r r1 :
  survives g c = false ->
  new_cells r1 = new_cells r ->
  (forall k, In k (PyDict.keys (new_cells r)) ->
             exists c, In c pre /\ survives g c = true /\ position c = k) ->
  (forall c, In c pre -> survives g c = true ->
             PyDict.get (new_cells r) (position c) = Some (aged c)) ->
  (forall k, In k (PyDict.keys (new_cells r1)) ->
             exists c', In c' (pre ++ [c]) /\ survives g c' = true
                        /\ position c' = k) /\
  (forall c', In c' (pre ++ [c]) -> survives g c' = true ->
              PyDict.get (new_cells r1) (position c') = Some (aged c')).
Proof.
  intros Sv -> N1 N2. split.
  - intros k I. destruct (N1 k I) as (c' & J & S & E).
    exists c'. rewrite in_app_iff. tauto.
  - intros c' I S. apply in_app_iff in I. destruct I as [I|[<-|[]]];
      [now apply N2 | congruence].
Qed.

Lemma kills_not_killed g pre c t :
  killed_by_enemies g c = false -> kills g (pre ++ [c]) t = kills g pre t.
Proof. intros K. rewrite kills_app, K, andb_false_r. lia. Qed.

Lemma removed_not_killed g pre c t :
  killed_by_enemies g c = false -> removed g (pre ++ [c]) t = removed g pre t.
Proof. intros K. unfold removed. now rewrite kills_not_killed. Qed.

Lemma kills_killed g pre c t :
  killed_by_enemies g c = true ->
  kills g (pre ++ [c]) t
  = kills g pre t + (if N.eqb t (cell_team c) then 1 else 0).
Proof.
  intros K. rewrite kills_app, K, andb_true_r. now rewrite N.eqb_sym.
Qed.

Lemma removed_other_team g pre c t :
  t <> cell_team c -> removed g (pre ++ [c]) t = removed g pre t.
Proof.
  intros ne. unfold removed. rewrite kills_app.
  destruct (N.eqb_spec (cell_team c) t) as [e|_]; [congruence|].
  cbn [andb]. now rewrite Z.add_0_r.
Qed.

(** The first loop on one more cell of a game whose registry is sound *)
Lemma age_step_ages g pre c r :
  registry_ok g ->
  In c (PyDict.values (cells g)) ->
  ~ In (position c) (map position pre) ->
  ages_inv g pre r ->
  exists r1, age_step r c = Done r1 tt /\ ages_inv g (pre ++ [c]) r1.
Proof.
  intros (RN & RV & RC) Ic Np (RI & S & TN & TR & N1 & N2).
  assert (RI' := age_step_inv c RI).
  pose proof RI as (C & P & V & _).
  rewrite (@age_step_eq g r c C P) in *.
  destruct (fate_cases g c) as [(Da & Ki & Su)|[(Da & Ki & Su)|(Da & Ki & Su)]];
    rewrite Da in *; cbv zeta in *; try rewrite Su in *.
  - (* the cell dies of age *)
    exists r. split; [reflexivity|]. cbn [state_of] in RI'.
    destruct (@ages_inv_same_store g pre c r r Su eq_refl N1 N2) as [N1' N2'].
    split; [exact RI'|].
    split; [intros t; now rewrite kills_not_killed|].
    split; [exact TN|].
    split; [intros v t; rewrite TR; now rewrite removed_not_killed|].
    split; assumption.
  - (* the enemies kill the cell *)
    set (t0 := cell_team c) in *.
    set (dead' := fold_left set_add _ (dead_cells r)) in *.
    set (g1 := with_score (game r) t0 (team_score (game r) t0 - 1)) in *.
    assert (S1 : forall t, team_score g1 t
                           = team_score g t - kills g (pre ++ [c]) t).
    { intros t. unfold g1. cbn [with_score team_score].
      rewrite kills_killed by exact Ki. fold t0.
      destruct (N.eqb_spec t t0) as [->|ne]; rewrite S; lia. }
    destruct (Z.eqb_spec (team_score (game r) t0 - 1) 0) as [Z0|Z0].
    + (* the score reaches zero: the team leaves the registry *)
      assert (Rm : removed g pre t0 = false).
      { unfold removed. rewrite S in Z0.
        replace (team_score g t0 <=? kills g pre t0) with false
          by (symmetry; apply Z.leb_gt; lia).
        apply andb_false_r. }
      assert (Rm' : removed g (pre ++ [c]) t0 = true).
      { unfold removed. rewrite kills_killed by exact Ki. fold t0.
        rewrite N.eqb_refl. rewrite S in Z0.
        assert (Kn := kills_nonneg g pre t0).
        apply andb_true_iff. split; [apply Z.ltb_lt | apply Z.leb_le]; lia. }
      assert (G0 : PyDict.get (teams (game r)) (team_view (game r) t0)
                   = Some t0).
      { apply TR. split; [|exact Rm]. rewrite V. now apply RC. }
      destruct (del_Some (teams (game r)) (team_view (game r) t0)
                         (get_Some_key _ _ G0)) as [teams' Dl].
      rewrite Dl in *. cbn [state_of] in RI'.
      exists (mkRound (with_teams g1 teams') (new_cells r) dead').
      split; [reflexivity|].
      destruct (@ages_inv_same_store g pre c r
                  (mkRound (with_teams g1 teams') (new_cells r) dead')
                  Su eq_refl N1 N2) as [N1' N2'].
      split; [exact RI'|]. split; [exact S1|].
      split; [eapply NoDup_keys_del; eassumption|].
      split; [|split; assumption].
      intros v t. cbn [game with_teams teams].
      erewrite get_del; [|exact TN|exact Dl]. cbn [keq PyKey_string].
      destruct (String.eqb_spec v (team_view (game r) t0)) as [->|ne].
      * split; [discriminate|]. intros [G R]. exfalso.
        rewrite V in G. unfold t0 in G. rewrite RC in G by exact Ic.
        injection G as <-. fold t0 in R. congruence.
      * rewrite TR. split; intros [G R]; (split; [exact G|]).
        -- destruct (N.eq_dec t t0) as [->|net].
           ++ exfalso. apply ne. apply get_In in G. rewrite V.
              symmetry. now apply RV.
           ++ now rewrite removed_other_team.
        -- destruct (N.eq_dec t t0) as [->|net]; [exact Rm|].
           now rewrite removed_other_team in R.
    + (* the score stays away from zero *)
      cbn [state_of] in RI'.
      exists (mkRound g1 (new_cells r) dead'). split; [reflexivity|].
      destruct (@ages_inv_same_store g pre c r
                  (mkRound g1 (new_cells r) dead') Su eq_refl N1 N2)
        as [N1' N2'].
      assert (Rs : forall t, removed g (pre ++ [c]) t = removed g pre t).
      { intros t. destruct (N.eq_dec t t0) as [->|net];
          [|now apply removed_other_team].
        unfold removed. rewrite kills_killed by exact Ki. fold t0.
        rewrite N.eqb_refl. rewrite S in Z0.
        destruct (Z.ltb_spec 0 (team_score g t0)); cbn [andb]; [|reflexivity].
        destruct (Z.leb_spec (team_score g t0) (kills g pre t0));
          destruct (Z.leb_spec (team_score g t0) (kills g pre t0 + 1));
          try reflexivity; lia. }
      split; [exact RI'|]. split; [exact S1|]. split; [exact TN|].
      split; [|split; assumption].
      intros v t. cbn [game g1 with_score teams]. rewrite TR.
      now rewrite Rs.
  - (* the cell survives *)
    cbn [state_of] in RI'.
    eexists. split; [reflexivity|].
    split; [exact RI'|]. cbn [game new_cells].
    split; [intros t; now rewrite kills_not_killed|].
    split; [exact TN|].
    split; [intros v t; rewrite TR; now rewrite removed_not_killed|].
    split.
    + intros k I. apply In_keys_set in I. destruct I as [->|I].
      * exists c. rewrite in_app_iff. cbn. tauto.
      * destruct (N1 k I) as (c' & J & Sc & E). exists c'.
        rewrite in_app_iff. tauto.
    + intros c' I Sc. apply in_app_iff in I. destruct I as [I|[<-|[]]].
      * rewrite get_set_other; [now apply N2|].
        intros E. apply Np. rewrite <- E. now apply in_map.
      * apply get_set_same.
Qed.

Lemma pass_A_ages g cs pre r :
  registry_ok g ->
  (forall c, In c cs -> In c (PyDict.values (cells g))) ->
  NoDup (map position (pre ++ cs)) ->
  ages_inv g pre r ->
  exists r', for_each age_step cs r = Done r' tt /\ ages_inv g (pre ++ cs) r'.
Proof.
  intros R. revert pre r. induction cs as [|c cs IH]; intros pre r Ic ND I.
  - exists r. rewrite app_nil_r. now split.
  - assert (Np : ~ In (position c) (map position pre)).
    { rewrite map_app in ND. cbn [map] in ND.
      apply NoDup_remove_2 in ND. rewrite in_app_iff in ND. tauto. }
    destruct (@age_step_ages g pre c r R (Ic c (or_introl eq_refl)) Np I)
      as (r1 & E & I1).
    cbn [for_each]. rewrite E. cbn [bind].
    replace (pre ++ c :: cs) with ((pre ++ [c]) ++ cs) in *
      by now rewrite <- app_assoc.
    apply IH; [|exact ND|exact I1]. intros c' J. apply Ic. now right.
Qed.

Lemma store_positions g :
  store_ok g -> map position (PyDict.values (cells g)) = PyDict.keys (cells g).
Proof.
  intros [_ K]. unfold PyDict.values, PyDict.keys. rewrite map_map.
  apply map_ext_in. intros [k c] I. cbn. now apply K.
Qed.

Lemma ages_inv_start g :
  registry_ok g -> ages_inv g [] (mkRound g [] []).
Proof.
  intros (RN & _ & _). split.
  { repeat split; try constructor. intros p []. }
  split. { intros t. change (kills g [] t) with 0. cbn. lia. }
  split; [exact RN|]. split.
  { intros v t. cbn [game]. unfold removed. change (kills g [] t) with 0.
    destruct (Z.ltb_spec 0 (team_score g t)); cbn [andb];
      [|tauto].
    replace (team_score g t <=? 0) with false
      by (symmetry; apply Z.leb_gt; lia).
    tauto. }
  split; [intros k []|intros c []].
Qed.

(** The first loop where the registry holds the team of every cell. On a
    game whose store and registry are sound, the first loop of the
    round update ends without error, and for every cell [c] of the store,
    at key [k]: if its decremented lifespan is at most 0 it is dropped; else
    if at least to-kill of its alive neighbours belong to another team it is
    removed; else it is in the next store, and in the store of the next
    generation, at the same position, with the same team and the decremented
    lifespan. After the loop the score of every team is down by the number
    of its cells that the enemies killed, and the registry has lost exactly
    the teams whose score reached zero at one of those kills. *)
Theorem pass_A_spec set_order g :
  set_order_ok set_order -> store_ok g -> registry_ok g ->
  exists rA g',
    pass_A g = Done rA tt /\
    _update_cells set_order g = Done g' tt /\
    (forall k c, In (k, c) (cells g) ->
       (dies_of_age c = true ->
        ~ In k (PyDict.keys (new_cells rA)) /\
        ~ In k (PyDict.keys (cells g'))) /\
       (killed_by_enemies g c = true ->
        ~ In k (PyDict.keys (new_cells rA)) /\
        ~ In k (PyDict.keys (cells g'))) /\
       (survives g c = true ->
        let c' := mkCell (cell_x c) (cell_y c) (cell_team c) (cell_age c - 1) in
        PyDict.get (new_cells rA) k = Some c' /\
        PyDict.get (cells g') k = Some c')) /\
    (forall t, team_score (game rA) t
               = team_score g t - kills g (PyDict.values (cells g)) t) /\
    (forall v t, PyDict.get (teams (game rA)) v = Some t <->
                 PyDict.get (teams g) v = Some t /\
                 removed g (PyDict.values (cells g)) t = false).
Proof.
  intros H St Rg.
  assert (NP : NoDup (map position ([] ++ PyDict.values (cells g)))).
  { cbn [app]. rewrite store_positions by exact St. apply St. }
  destruct (@pass_A_ages g (PyDict.values (cells g)) [] (mkRound g [] []) Rg
              (fun c I => I) NP (ages_inv_start Rg)) as (rA & EA & IA).
  cbn [app] in IA. destruct IA as (RI & S & TN & TR & N1 & N2).
  fold (pass_A g) in EA.
  destruct (pass_B_total set_order rA) as [rB EB].
  destruct (@revivals_keys g (set_order (dead_cells rA)) rA RI)
    as (_ & _ & GB).
  fold (pass_B set_order rA) in GB. rewrite EB in GB. cbn [state_of] in GB.
  exists rA, (with_cells (game rB) (new_cells rB)).
  split; [exact EA|]. split; [eapply update_cells_run; eassumption|].
  split; [|split; assumption].
  intros k c I. cbn [with_cells cells].
  assert (Pk : position c = k) by now apply St.
  assert (Iv : In c (PyDict.values (cells g)))
    by (eapply keys_values_In; eauto).
  assert (Nc : ~ In k (set_order (dead_cells rA))).
  { intros J. apply (proj1 (set_order_in _ _ H)) in J.
    destruct RI as (_ & _ & _ & D & _). apply D in J.
    apply get_None in J. apply J. now apply (in_map fst) in I. }
  rewrite (GB k Nc).
  assert (Out : survives g c = false ->
                ~ In k (PyDict.keys (new_cells rA)) /\
                ~ In k (PyDict.keys (new_cells rB))).
  { intros Su.
    assert (X : ~ In k (PyDict.keys (new_cells rA))).
    { intros J. destruct (N1 k J) as (c' & J' & Sc & E).
      assert (c' = c); [|congruence].
      destruct (values_In _ _ J') as (k' & J'').
      assert (k' = k) by (rewrite <- E; symmetry; now apply St).
      subst k'. destruct St as [NK _].
      assert (G1 := In_get _ _ _ NK J''). assert (G2 := In_get _ _ _ NK I).
      congruence. }
    split; [exact X|]. rewrite <- get_None. rewrite (GB k Nc).
    now apply get_None. }
  destruct (fate_cases g c) as [(Da & Ki & Su)|[(Da & Ki & Su)|(Da & Ki & Su)]];
    rewrite Da, Ki, Su.
  - split; [intros _; now apply Out|]. split; discriminate.
  - split; [discriminate|]. split; [intros _; now apply Out | discriminate].
  - split; [discriminate|]. split; [discriminate|]. intros _.
    cbv zeta. rewrite <- Pk. split; apply (N2 c Iv Su).
Qed.

(** ** The games that the loaders build are sound *)

Lemma sound_init p : sound (with_properties init p).
Proof.
  repeat split; cbn; try constructor; try (intros ? ? []); intros ? [].
Qed.

Lemma sound_new_team g v :
  sound g -> PyDict.mem (teams g) v = false -> sound (new_team g v).
Proof.
  intros ((SN & SP) & (RN & RV & RC) & U) M.
  assert (Nv : ~ In v (PyDict.keys (teams g)))
    by (rewrite <- mem_keys, M; discriminate).
  assert (Old : forall v' t, In (v', t) (teams g) ->
                             N.eqb t (next_uuid g) = false).
  { intros v' t I. apply N.eqb_neq. specialize (U _ _ I). lia. }
  split; [|split].
  - split; [exact SN | exact SP].
  - split; [|split]; cbn [new_team teams team_view cells].
    + now apply NoDup_keys_set.
    + intros v' t I. apply In_set in I. destruct I as [[-> ->]|I].
      * now rewrite N.eqb_refl.
      * rewrite (Old _ _ I). now apply RV.
    + intros c I. specialize (RC c I).
      assert (J := get_In _ _ RC). rewrite (Old _ _ J).
      rewrite get_set_other; [exact RC|].
      intros E. apply Nv. rewrite <- E. eapply get_Some_key; eauto.
  - intros v' t I. cbn [new_team teams next_uuid] in *.
    apply In_set in I. destruct I as [[-> ->]|I]; [lia|].
    specialize (U _ _ I). lia.
Qed.

Lemma sound_place y v g x : sound g -> sound (place y v g x).
Proof.
  intros Sg. unfold place.
  set (g0 := if negb (PyDict.mem (teams g) v) then new_team g v else g).
  assert (S0 : sound g0).
  { unfold g0. destruct (PyDict.mem (teams g) v) eqn:M; cbn [negb];
      [exact Sg | now apply sound_new_team]. }
  clearbody g0. destruct (PyDict.get (teams g0) v) as [team|] eqn:G;
    [|exact S0].
  destruct S0 as ((SN & SP) & (RN & RV & RC) & U).
  split; [|split].
  - split; cbn [with_score with_cells cells].
    + now apply NoDup_keys_set.
    + intros k c I. apply In_set in I. destruct I as [[-> ->]|I];
        [reflexivity | now apply SP].
  - split; [exact RN|]. split; [exact RV|].
    cbn [with_score with_cells cells teams team_view]. intros c I.
    destruct (values_In _ _ I) as (k & J). apply In_set in J.
    destruct J as [[_ ->]|J].
    + cbn [cell_team]. rewrite (RV _ _ (get_In _ _ G)). exact G.
    + apply RC. eapply keys_values_In; eauto.
  - exact U.
Qed.

Lemma sound_token y amount v g x :
  sound g -> sound (fst (state_of (token y amount v g x))).
Proof.
  intros Sg. unfold token, str_eq_int. cbn [andb].
  destruct (String.eqb v "."); cbn [state_of fst]; [exact Sg|].
  generalize (py_range x (x + amount)). intros xs. revert g Sg.
  induction xs as [|x' xs IH]; intros g Sg; cbn [fold_left]; [exact Sg|].
  now apply IH, sound_place.
Qed.

Lemma sound_row y l amount g x :
  sound g -> sound (fst (state_of (row y l amount g x))).
Proof.
  revert amount g x. induction l as [|c l IH]; intros amount g x Sg;
    cbn [row].
  - destruct amount; [exact Sg | now apply sound_token].
  - destruct (char_isdigit c); [now apply IH|].
    destruct amount as [|d ds]; [exact Sg|].
    assert (T := @sound_token y (int_of_digits (rev (d :: ds)))
                   (String c EmptyString) g x Sg).
    destruct (token y _ _ g x) as [[g' x'] []|[g' x'] e];
      cbn [bind state_of fst snd] in *; [now apply IH | exact T].
Qed.

Lemma sound_load_cells file g :
  sound g -> sound (state_of (load_cells file g)).
Proof.
  unfold load_cells. generalize 0. revert g.
  induction file as [|l file IH]; intros g y Sg; cbn [rows]; [exact Sg|].
  assert (R := @sound_row y (chars (strip l)) [] g 0 Sg).
  destruct (row y (chars (strip l)) [] g 0) as [[g' x'] []|[g' x'] e];
    cbn [state_of fst] in *; [now apply IH | exact R].
Qed.

Lemma load_config_state config g :
  exists p, state_of (load_config config g) = with_properties g p.
Proof.
  unfold load_config. revert g.
  induction config as [|l config IH]; intros g; cbn [for_each].
  - exists (properties g). now destruct g.
  - destruct (accepted l) eqn:A.
    + destruct (config_line_accepted g l A) as [p ->]. cbn [bind].
      destruct (IH (with_properties g p)) as [p' ->]. now exists p'.
    + destruct (config_line_rejected g l A) as [e ->]. cbn.
      exists (properties g). now destruct g.
Qed.

(** Every game that [load_game] leaves, from a fresh object, is sound. *)
Lemma sound_load_game config file :
  sound (state_of (load_game config file init)).
Proof.
  unfold load_game. destruct (load_config_state config init) as [p E].
  destruct (load_config config init) as [g []|g e]; cbn [state_of bind] in *;
    subst g; [apply sound_load_cells|]; apply sound_init.
Qed.

(** ** C10: the scores that the tie-break reads *)

Lemma revive_step_score r p t :
  ~ In p (PyDict.keys (new_cells r)) ->
  let r' := state_of (revive_step r p) in
  team_score (game r') t
  = team_score (game r) t
    + (match PyDict.get (new_cells r') p with
       | Some c => if N.eqb (cell_team c) t then 1 else 0
       | None => 0
       end).
Proof.
  intros Nk. destruct (revive_step_cases r p) as [->|[t0 ->]];
    cbn [state_of].
  - apply get_None in Nk. rewrite Nk. lia.
  - cbn [revived game new_cells with_score team_score].
    rewrite get_set_same. cbn [cell_team]. rewrite (N.eqb_sym t0 t).
    destruct (N.eqb_spec t t0) as [->|ne]; lia.
Qed.

Lemma revivals_cons r p l t :
  revivals r (p :: l) t
  = (match PyDict.get (new_cells r) p with
     | Some c => if N.eqb (cell_team c) t then 1 else 0
     | None => 0
     end) + revivals r l t.
Proof.
  unfold revivals, len. cbn [filter].
  destruct (PyDict.get (new_cells r) p) as [c|];
    [destruct (N.eqb (cell_team c) t)|]; cbn [List.length]; lia.
Qed.

(** After the candidates [l], the score of a team is up by the number of
    candidates of [l] revived for it. *)
Lemma revivals_score g l r :
  round_inv g r -> NoDup l ->
  (forall p, In p l -> ~ In p (PyDict.keys (new_cells r))) ->
  let r' := state_of (for_each revive_step l r) in
  forall t, team_score (game r') t = team_score (game r) t + revivals r' l t.
Proof.
  revert r. induction l as [|p l IH]; intros r I ND Nk; cbn [for_each].
  - cbv zeta. intros t. cbn [state_of]. change (revivals r [] t) with 0. lia.
  - inversion ND as [|? ? Np ND']; subst.
    assert (Ip := revive_step_inv p I).
    assert (Sp := fun t => @revive_step_score r p t (Nk p (or_introl eq_refl))).
    assert (Kp := revive_step_keys r p).
    destruct (revive_step_total r p) as [r1 E]. rewrite E in *.
    cbn [bind state_of] in *.
    assert (Nk1 : forall q, In q l -> ~ In q (PyDict.keys (new_cells r1))).
    { intros q J K. destruct (Kp q K) as [->|K']; [contradiction|].
      apply (Nk q); [now right | exact K']. }
    destruct (@revivals_keys g l r1 Ip) as (_ & _ & G).
    cbv zeta. intros t. rewrite (IH r1 Ip ND' Nk1 t), revivals_cons.
    rewrite (G p Np), (Sp t). lia.
Qed.

Lemma rev_order_ok : set_order_ok (@rev pos).
Proof. intros l. apply Permutation_rev. Qed.

(** C10. In the round update of a sound game, let the candidates be visited
    in the order [l1], [p], [l2]. The step for [p] runs in the state [r1]
    that the first loop and the steps for [l1] leave: there the score of a
    team is its score before the round, less its cells that the enemies
    killed in the first loop, plus the candidates of [l1] revived for it;
    the neighbours are those of the store before the round; and [p] is
    revived for the team that controls under the scores of [r1]. With the
    game [game_tie], where the teams a and b have 5 cells each and the dead
    position (10, 6) has two neighbours of each, the position is revived for
    a when the candidates are visited in insertion order (the revival at
    (1, 1) comes first) and stays dead when they are visited in the reverse
    order. *)
Theorem tie_break_reads_current_scores :
  (forall set_order g,
     set_order_ok set_order -> store_ok g -> registry_ok g ->
     exists rA,
       pass_A g = Done rA tt /\
       forall l1 p l2,
         set_order (dead_cells rA) = l1 ++ p :: l2 ->
         let alive := fst (_get_neighbours g (fst p) (snd p)) in
         exists r1,
           for_each revive_step l1 rA = Done r1 tt /\
           pass_B set_order rA
           = bind (revive_step r1 p)
                  (fun r2 _ => for_each revive_step l2 r2) /\
           (forall t, team_score (game r1) t
                      = team_score g t - kills g (PyDict.values (cells g)) t
                        + revivals r1 l1 t) /\
           (forall t, 3 <= len alive ->
                      controls (team_score (game r1)) alive t ->
                      revive_step r1 p = Done (revived r1 p t) tt) /\
           (len alive < 3 \/
            (forall t, ~ controls (team_score (game r1)) alive t) ->
            revive_step r1 p = Done r1 tt)) /\
  (let alive := fst (_get_neighbours game_tie 10 6) in
   tally_of alive 0%N = 2 /\ tally_of alive 1%N = 2 /\
   team_score game_tie 0%N = 5 /\ team_score game_tie 1%N = 5 /\
   PyDict.get (cells (state_of (_update_cells insertion_order game_tie)))
              (10, 6) = Some (mkCell 10 6 0%N 4) /\
   PyDict.get (cells (state_of (_update_cells (@rev pos) game_tie)))
              (10, 6) = None).
Proof.
  split; [|vm_compute; repeat split; reflexivity].
  intros set_order g H St Rg.
  assert (NP : NoDup (map position ([] ++ PyDict.values (cells g)))).
  { cbn [app]. rewrite store_positions by exact St. apply St. }
  destruct (@pass_A_ages g (PyDict.values (cells g)) [] (mkRound g [] []) Rg
              (fun c I => I) NP (ages_inv_start Rg)) as (rA & EA & IA).
  cbn [app] in IA. destruct IA as (RI & S & _ & _ & N1 & _).
  exists rA. split; [exact EA|]. intros l1 p l2 El alive.
  assert (NDl : NoDup (l1 ++ p :: l2)).
  { rewrite <- El. eapply Permutation_NoDup; [apply H | apply RI]. }
  assert (ND1 : NoDup l1) by (eapply NoDup_app_remove_r; eauto).
  assert (Nk : forall q, In q l1 -> ~ In q (PyDict.keys (new_cells rA))).
  { intros q J K.
    assert (J' : In q (dead_cells rA)).
    { apply (set_order_in _ _ H). rewrite El, in_app_iff. now left. }
    destruct RI as (_ & _ & _ & D & _). apply D, get_None in J'. apply J'.
    destruct (N1 q K) as (c & Ic & _ & E).
    destruct (values_In _ _ Ic) as (k & Ik).
    assert (Pk : position c = k) by now apply St.
    rewrite <- E, Pk. now apply (in_map fst) in Ik. }
  destruct (@revivals_keys g l1 rA RI) as (I1 & _ & _).
  assert (Sc := @revivals_score g l1 rA RI ND1 Nk).
  destruct (for_each_total revive_step l1 rA revive_step_total) as [r1 E1].
  rewrite E1 in *. cbn [state_of] in *. cbv zeta in Sc.
  exists r1. split; [reflexivity|]. split; [|split; [|split]].
  - unfold pass_B. rewrite El, for_each_app, E1. reflexivity.
  - intros t. rewrite Sc, S. reflexivity.
  - intros t L C. apply revive_step_controls; cbv zeta;
      rewrite (@get_neighbours_ext g (game r1)) by apply I1; assumption.
  - intros N. apply revive_step_no_control; cbv zeta.
    rewrite (@get_neighbours_ext g (game r1)) by apply I1. exact N.
Qed.

(** ** The theorems on the example games *)

Lemma sound_game_kill : sound game_kill.
Proof. apply sound_load_game. Qed.

Lemma sound_game_tie : sound game_tie.
Proof. apply sound_load_game. Qed.

Lemma pass_A_spec_witness :
  store_ok game_kill /\ registry_ok game_kill /\
  exists rA g',
    pass_A game_kill = Done rA tt /\
    _update_cells insertion_order game_kill = Done g' tt /\
    ~ In (1, 1) (PyDict.keys (cells g')) /\
    PyDict.get (cells g') (0, 0) = Some (mkCell 0 0 0%N 3) /\
    team_score (game rA) 1%N = 0 /\
    PyDict.get (teams (game rA)) "x"%string = None /\
    PyDict.get (teams (game rA)) "o"%string = Some 0%N.
Proof.
  destruct sound_game_kill as (St & Rg & _).
  split; [exact St|]. split; [exact Rg|].
  destruct (@pass_A_spec insertion_order game_kill insertion_order_ok St Rg)
    as (rA & g' & EA & EU & Cs & Sc & Tm).
  exists rA, g'. split; [exact EA|]. split; [exact EU|].
  split; [|split; [|split; [|split]]].
  - apply (Cs (1, 1) (mkCell 1 1 1%N 4)).
    + vm_compute. tauto.
    + vm_compute. reflexivity.
  - apply (Cs (0, 0) (mkCell 0 0 0%N 4)).
    + vm_compute. tauto.
    + vm_compute. reflexivity.
  - rewrite Sc. vm_compute. reflexivity.
  - destruct (PyDict.get (teams (game rA)) "x"%string) as [t|] eqn:G;
      [|reflexivity].
    apply Tm in G. destruct G as [G R]. vm_compute in G.
    injection G as <-. vm_compute in R. discriminate R.
  - apply Tm. split; vm_compute; reflexivity.
Defined.

Lemma tie_break_reads_current_scores_witness :
  store_ok game_tie /\ registry_ok game_tie /\
  exists rA,
    pass_A game_tie = Done rA tt /\
    forall l1 p l2,
      insertion_order (dead_cells rA) = l1 ++ p :: l2 ->
      exists r1,
        for_each revive_step l1 rA = Done r1 tt /\
        forall t, team_score (game r1) t
                  = team_score game_tie t
                    - kills game_tie (PyDict.values (cells game_tie)) t
                    + revivals r1 l1 t.
Proof.
  destruct sound_game_tie as (St & Rg & _).
  split; [exact St|]. split; [exact Rg|].
  destruct (proj1 tie_break_reads_current_scores insertion_order game_tie
              insertion_order_ok St Rg) as (rA & EA & F).
  exists rA. split; [exact EA|]. intros l1 p l2 E.
  destruct (F l1 p l2 E) as (r1 & E1 & _ & Sc & _).
  exists r1. split; assumption.
Defined.

(** ** A team that a revival brings back after its removal *)

Lemma Permutation_filter_keep {A} (f : A -> bool) l l' :
  Permutation l l' -> Permutation (filter f l) (filter f l').
Proof.
  induction 1 as [|x l l' P IH|x y l|l l' l'' P1 IH1 P2 IH2]; cbn.
  - constructor.
  - destruct (f x); [now constructor | exact IH].
  - destruct (f x), (f y); try apply Permutation_refl. apply perm_swap.
  - eapply perm_trans; eauto.
Qed.

(** The candidates with fewer than three alive neighbours can be left out
    of the second loop. *)
Lemma revive_filter g l r :
  round_inv g r ->
  for_each revive_step l r = for_each revive_step (filter (effective g) l) r.
Proof.
  revert r. induction l as [|p l IH]; intros r I; cbn [filter for_each];
    [reflexivity|].
  destruct (effective g p) eqn:E.
  - cbn [for_each]. assert (Ip := revive_step_inv p I).
    destruct (revive_step_total r p) as [r1 E1]. rewrite E1 in *.
    cbn [bind state_of] in *. now apply IH.
  - rewrite revive_step_few; [cbn [bind]; now apply IH|].
    destruct I as (C & P & _).
    rewrite (@get_neighbours_ext g (game r) _ _ C P).
    unfold effective in E. apply Z.leb_gt in E. now apply Z.ltb_lt.
Qed.

Lemma permutations_of_three (a b c : pos) l :
  NoDup [a; b; c] -> Permutation [a; b; c] l ->
  In l [[a; b; c]; [a; c; b]; [b; a; c]; [b; c; a]; [c; a; b]; [c; b; a]].
Proof.
  intros ND P.
  assert (L := Permutation_length P).
  assert (ND' : NoDup l) by (eapply Permutation_NoDup; eauto).
  assert (I : forall x, In x l -> In x [a; b; c])
    by (intros x J; eapply Permutation_in;
        [apply Permutation_sym, P | exact J]).
  destruct l as [|x [|y [|z [|]]]]; try discriminate L.
  assert (Ix := I x (or_introl eq_refl)).
  assert (Iy := I y (or_intror (or_introl eq_refl))).
  assert (Iz := I z (or_intror (or_intror (or_introl eq_refl)))).
  inversion ND' as [|? ? N1 ND1]; subst.
  inversion ND1 as [|? ? N2 ND2]; subst.
  cbn in Ix, Iy, Iz, N1, N2 |- *.
  destruct Ix as [<-|[<-|[<-|[]]]], Iy as [<-|[<-|[<-|[]]]],
           Iz as [<-|[<-|[<-|[]]]]; tauto.
Qed.

Lemma update_cells_raised set_order g :
  raised (pass_A g) <> None ->
  raised (_update_cells set_order g) = raised (pass_A g).
Proof.
  unfold _update_cells. destruct (pass_A g) as [r []|r e]; cbn;
    [congruence | reflexivity].
Qed.

(** Whatever the order of the candidates, [start] on the game
    [game_revived] raises KeyError in its second round: team x, removed from
    the registry and revived in the first round, loses its cell, and
    [del self.teams] does not find it. *)
Lemma revived_team_key_error set_order :
  set_order_ok set_order ->
  raised (start set_order game_revived) = Some KeyError.
Proof.
  intros H.
  assert (EA : pass_A game_revived = Done (state_of (pass_A game_revived)) tt)
    by (vm_compute; reflexivity).
  assert (RI := pass_A_inv game_revived).
  set (rA := state_of (pass_A game_revived)) in *.
  assert (P : Permutation [(1, 1); (2, 1); (3, 1)]
                (filter (effective game_revived)
                        (set_order (dead_cells rA)))).
  { assert (F := Permutation_filter_keep (effective game_revived)
                   (H (dead_cells rA))).
    assert (E : filter (effective game_revived) (dead_cells rA)
                = [(1, 1); (2, 1); (3, 1)]) by (vm_compute; reflexivity).
    now rewrite E in F. }
  apply permutations_of_three in P;
    [|repeat constructor; cbn; intuition discriminate].
  set (o := filter (effective game_revived) (set_order (dead_cells rA))) in *.
  assert (K : second_round_fails (after_revivals game_revived o) = true).
  { cbn [In] in P.
    destruct P as [<-|[<-|[<-|[<-|[<-|[<-|[]]]]]]]; vm_compute; reflexivity. }
  assert (U : _update_cells set_order game_revived
              = Done (after_revivals game_revived o) tt).
  { unfold _update_cells. rewrite EA. unfold pass_B.
    rewrite (revive_filter _ RI). fold o. unfold after_revivals. fold rA.
    destruct (for_each_total revive_step o rA revive_step_total) as [rB ->].
    reflexivity. }
  unfold second_round_fails in K.
  apply andb_true_iff in K. destruct K as [K K3].
  apply andb_true_iff in K. destruct K as [K1 K2].
  set (g1 := after_revivals game_revived o) in *.
  clearbody g1. clear P. clearbody o. clearbody rA.
  assert (R2 : raised (_update_cells set_order g1) = Some KeyError).
  { destruct (raised (pass_A g1)) as [e|] eqn:RA; [|discriminate K1].
    rewrite update_cells_raised, RA by (rewrite RA; discriminate).
    destruct e; try discriminate K1. reflexivity. }
  destruct (_update_grid g1 (_generate_grid g1)) as [grid1|] eqn:G1;
    [|discriminate K2].
  apply negb_true_iff in K3.
  unfold start.
  replace (refresh (properties game_revived) =? 0) with false
    by (vm_compute; reflexivity).
  destruct (_update_grid game_revived (_generate_grid game_revived))
    as [grid0|] eqn:G0; [|vm_compute in G0; discriminate G0].
  replace (Z.to_nat (win_round (properties game_revived))) with (S (S 510))
    by (vm_compute; reflexivity).
  rewrite game_loop_S, U, G1, K3. cbv zeta.
  rewrite game_loop_S.
  destruct (_update_cells set_order g1) as [g2 []|g2 e];
    cbn [raised] in R2; [discriminate R2|].
  cbn [bind raised]. exact R2.
Qed.

(** ** C7: runtime errors of the round loop *)

(** C7. The round loop is not free of runtime errors. Whenever a first
    round leaves exactly one team in the registry, [start] raises TypeError
    at the lookup of that team, [self.teams.values()[0]]. And on the loaded
    game [game_revived] the round update itself raises KeyError in the
    second round, at [del self.teams[cell.team.view]], for a team that was
    removed from the registry and revived in the first round. *)
Theorem round_loop_raises set_order :
  set_order_ok set_order ->
  (forall g g' grid grid',
      refresh (properties g) <> 0 ->
      0 < win_round (properties g) ->
      _update_grid g (_generate_grid g) = Some grid ->
      _update_cells set_order g = Done g' tt ->
      _update_grid g' (_generate_grid g') = Some grid' ->
      len (teams g') = 1 ->
      raised (start set_order g) = Some TypeError) /\
  raised (start set_order game_revived) = Some KeyError.
Proof.
  intros H. split.
  - intros g g' grid grid'. apply one_team_type_error.
  - now apply revived_team_key_error.
Qed.

Lemma round_loop_raises_witness :
  len (teams (state_of (_update_cells insertion_order game_1x))) = 1 /\
  raised (start insertion_order game_1x) = Some TypeError /\
  raised (start insertion_order game_revived) = Some KeyError.
Proof.
  split; [vm_compute; reflexivity|].
  destruct (round_loop_raises insertion_order_ok) as [T K].
  split; [|exact K].
  eapply (T game_1x (state_of (_update_cells insertion_order game_1x))).
  - vm_compute. discriminate.
  - vm_compute. reflexivity.
  - vm_compute. reflexivity.
  - vm_compute. reflexivity.
  - vm_compute. reflexivity.
  - vm_compute. reflexivity.
Defined.

(** ** C3: the second loop, candidate by candidate *)

(** The first loop puts cells at positions of the store only. *)
Lemma pass_A_keys g :
  (forall k c, In (k, c) (cells g) -> position c = k) ->
  forall k, In k (PyDict.keys (new_cells (state_of (pass_A g)))) ->
            In k (PyDict.keys (cells g)).
Proof.
  intros Pk.
  assert (Q : round_inv g (state_of (pass_A g)) /\
              forall k, In k (PyDict.keys (new_cells (state_of (pass_A g)))) ->
                        In k (PyDict.keys (cells g))); [|apply Q].
  unfold pass_A.
  apply (for_each_invariant
           (fun r => round_inv g r /\
                     forall k, In k (PyDict.keys (new_cells r)) ->
                               In k (PyDict.keys (cells g)))).
  - split; [|intros k []].
    repeat split; try constructor. intros p [].
  - intros r c (I & K) Ic. split; [now apply age_step_inv|].
    destruct I as (C & P & _). rewrite (@age_step_eq g r c C P).
    destruct (dies_of_age c); [exact K|]. cbv zeta.
    destruct (survives g c).
    + cbn [state_of new_cells]. intros k J.
      apply In_keys_set in J. destruct J as [->|J]; [|now apply K].
      destruct (values_In _ _ Ic) as (k & Ik).
      rewrite (Pk _ _ Ik). now apply (in_map fst) in Ik.
    + destruct (_ =? 0); [destruct (PyDict.del _ _)|]; exact K.
Qed.

(** C3. The second loop of the round update, on the round state [rA] that
    the first loop leaves for a game whose store is keyed by the positions
    of its cells (as every loaded game and every next generation is). The
    loop visits every candidate once and never raises; when the first loop
    returned, the round update returns the store that the second loop
    leaves, which is again keyed by the positions of its cells. The loop
    adds cells at candidates only and leaves every other position of the
    next store as the first loop left it. Let the candidates
    be visited in the order [l1], [p], [l2]. Then [p] holds no
    cell in the store before the round nor in the next store when its turn
    comes. If [p] has at least 3 alive neighbours in the store before the
    round (3 is a literal, whatever to-kill is) and a team [t] controls (it
    has the maximum tally among these neighbours and a strictly higher
    score, at that moment, than every other team with that tally), the
    step for [p] raises the score of [t] by one, leaves the other scores,
    and the next store ends with a cell of [t] at [p] whose lifespan is the
    death age. Otherwise the step changes no score and the next store ends
    with no cell at [p]. *)
Theorem pass_B_spec set_order g :
  set_order_ok set_order -> store_ok g ->
  let rA := state_of (pass_A g) in
  exists rB,
    pass_B set_order rA = Done rB tt /\
    (pass_A g = Done rA tt ->
     _update_cells set_order g
     = Done (with_cells (game rB) (new_cells rB)) tt) /\
    store_ok (with_cells (game rB) (new_cells rB)) /\
    (forall k, In k (PyDict.keys (new_cells rB)) ->
               In k (dead_cells rA) \/ In k (PyDict.keys (new_cells rA))) /\
    (forall k, ~ In k (dead_cells rA) ->
               PyDict.get (new_cells rB) k = PyDict.get (new_cells rA) k) /\
    (forall p, In p (dead_cells rA) ->
               exists l1 l2, set_order (dead_cells rA) = l1 ++ p :: l2) /\
    NoDup (set_order (dead_cells rA)) /\
    forall l1 p l2,
      set_order (dead_cells rA) = l1 ++ p :: l2 ->
      let alive := fst (_get_neighbours g (fst p) (snd p)) in
      exists r1 r2,
        for_each revive_step l1 rA = Done r1 tt /\
        revive_step r1 p = Done r2 tt /\
        for_each revive_step l2 r2 = Done rB tt /\
        PyDict.get (cells g) p = None /\
        PyDict.get (new_cells r1) p = None /\
        (forall t,
           3 <= len alive -> controls (team_score (game r1)) alive t ->
           PyDict.get (new_cells rB) p
           = Some (mkCell (fst p) (snd p) t (death_age (properties g))) /\
           team_score (game r2) t = team_score (game r1) t + 1 /\
           (forall t', t' <> t ->
                       team_score (game r2) t' = team_score (game r1) t')) /\
        (len alive < 3 \/
         (forall t, ~ controls (team_score (game r1)) alive t) ->
         PyDict.get (new_cells rB) p = None /\
         (forall t', team_score (game r2) t' = team_score (game r1) t')).
Proof.
  intros H [NK Pk] rA.
  assert (RI : round_inv g rA) by apply pass_A_inv.
  assert (KA := pass_A_keys g Pk). fold rA in KA.
  destruct (pass_B_total set_order rA) as [rB EB].
  exists rB. split; [exact EB|]. split.
  { intros EA. eapply update_cells_run; eassumption. }
  split.
  { split; cbn [with_cells cells].
    - destruct (@revivals_keys g (set_order (dead_cells rA)) rA RI)
        as (RIB & _). fold (pass_B set_order rA) in RIB.
      rewrite EB in RIB. apply RIB.
    - assert (N := revivals_store (set_order (dead_cells rA))
                     (pass_A_store g)).
      fold rA in N. fold (pass_B set_order rA) in N. rewrite EB in N.
      exact N. }
  destruct (@revivals_keys g (set_order (dead_cells rA)) rA RI)
    as (_ & KB & GB).
  fold (pass_B set_order rA) in KB, GB. rewrite EB in KB, GB.
  cbn [state_of] in KB, GB.
  split.
  { intros k J. destruct (KB k J) as [J'|J']; [left|now right].
    now apply (proj1 (set_order_in _ _ H)). }
  split.
  { intros k N. apply GB. intros J. apply N.
    now apply (proj1 (set_order_in _ _ H)). }
  split.
  { intros p I. apply in_split. now apply (set_order_in _ _ H). }
  split.
  { eapply Permutation_NoDup; [apply H | apply RI]. }
  intros l1 p l2 El alive.
  assert (NDl : NoDup (l1 ++ p :: l2)).
  { rewrite <- El. eapply Permutation_NoDup; [apply H | apply RI]. }
  assert (Np := NoDup_remove_2 _ _ _ NDl). rewrite in_app_iff in Np.
  assert (Ip : In p (dead_cells rA)).
  { apply (set_order_in _ _ H). rewrite El, in_app_iff. right; now left. }
  assert (Gp : PyDict.get (cells g) p = None).
  { destruct RI as (_ & _ & _ & D & _). now apply D. }
  assert (GA : PyDict.get (new_cells rA) p = None).
  { apply get_None. intros J. apply KA in J. now apply get_None in Gp. }
  destruct (for_each_total revive_step l1 rA revive_step_total) as [r1 E1].
  destruct (@revivals_keys g l1 rA RI) as (I1 & _ & G1).
  rewrite E1 in I1, G1. cbn [state_of] in I1, G1.
  destruct (revive_step_total r1 p) as [r2 E2].
  assert (I2 := revive_step_inv p I1). rewrite E2 in I2. cbn [state_of] in I2.
  destruct (@revivals_keys g l2 r2 I2) as (_ & _ & G2).
  assert (E3 : for_each revive_step l2 r2 = Done rB tt).
  { unfold pass_B in EB. rewrite El, for_each_app, E1 in EB.
    cbn [bind for_each] in EB. rewrite E2 in EB. exact EB. }
  rewrite E3 in G2. cbn [state_of] in G2.
  exists r1, r2. split; [exact E1|]. split; [exact E2|].
  split; [exact E3|]. split; [exact Gp|].
  assert (G1p : PyDict.get (new_cells r1) p = None).
  { rewrite G1 by tauto. exact GA. }
  split; [exact G1p|].
  assert (Nb : _get_neighbours (game r1) (fst p) (snd p)
               = _get_neighbours g (fst p) (snd p)).
  { apply get_neighbours_ext; apply I1. }
  split.
  - intros t L C.
    assert (Er : revive_step r1 p = Done (revived r1 p t) tt).
    { apply revive_step_controls; cbv zeta; rewrite Nb; assumption. }
    rewrite Er in E2. injection E2 as <-.
    rewrite G2 by tauto. cbn [revived new_cells game with_score team_score].
    rewrite get_set_same. destruct I1 as (_ & -> & _).
    split; [reflexivity|]. rewrite N.eqb_refl. split; [reflexivity|].
    intros t' ne. apply N.eqb_neq in ne. now rewrite ne.
  - intros N.
    assert (Er : revive_step r1 p = Done r1 tt).
    { apply revive_step_no_control; cbv zeta. rewrite Nb. exact N. }
    rewrite Er in E2. injection E2 as <-.
    rewrite G2 by tauto. split; [exact G1p | reflexivity].
Qed.

Lemma In_pos_dec (p : pos) l : existsb (pos_eqb p) l = true -> In p l.
Proof.
  intros E. apply existsb_exists in E. destruct E as (q & I & E).
  now destruct (pos_eqb_spec p q); [subst|].
Qed.

Lemma pass_B_spec_witness :
  store_ok game_tie /\
  exists rB,
    pass_B insertion_order (state_of (pass_A game_tie)) = Done rB tt /\
    _update_cells insertion_order game_tie
    = Done (with_cells (game rB) (new_cells rB)) tt /\
    PyDict.get (cells game_tie) (1, 1) = None /\
    PyDict.get (new_cells rB) (1, 1)
    = Some (mkCell 1 1 0%N (death_age (properties game_tie))).
Proof.
  destruct sound_game_tie as (St & _).
  split; [exact St|].
  destruct (@pass_B_spec insertion_order game_tie insertion_order_ok St)
    as (rB & EB & U & _ & _ & _ & S & _ & F).
  exists rB. split; [exact EB|].
  split; [apply U; vm_compute; reflexivity|].
  destruct (S (1, 1)) as (l1 & l2 & El);
    [apply In_pos_dec; vm_compute; reflexivity|].
  destruct (F l1 (1, 1) l2 El) as (r1 & r2 & _ & _ & _ & Gp & _ & R & _).
  split; [exact Gp|].
  apply (R 0%N).
  - vm_compute. discriminate.
  - unfold controls.
    let v := eval vm_compute in (fst (_get_neighbours game_tie 1 1)) in
    change (fst (_get_neighbours game_tie (fst (1, 1)) (snd (1, 1)))) with v.
    unfold tally_of, len. cbn [filter cell_team N.eqb List.length].
    split; [lia|]. split.
    + intros t'. destruct t'; cbn [filter List.length]; lia.
    + intros t' ne. destruct t'; [congruence|].
      cbn [filter List.length]. lia.
Defined.

(** ** C2: the first loop on a generation with a revived team *)

(** The first round of [game_revived], whatever the order of the
    candidates *)
Lemma game_revived_round set_order :
  set_order_ok set_order ->
  exists o,
    In o [[(1, 1); (2, 1); (3, 1)]; [(1, 1); (3, 1); (2, 1)];
          [(2, 1); (1, 1); (3, 1)]; [(2, 1); (3, 1); (1, 1)];
          [(3, 1); (1, 1); (2, 1)]; [(3, 1); (2, 1); (1, 1)]] /\
    _update_cells set_order game_revived
    = Done (after_revivals game_revived o) tt.
Proof.
  intros H.
  assert (EA : pass_A game_revived = Done (state_of (pass_A game_revived)) tt)
    by (vm_compute; reflexivity).
  assert (RI := pass_A_inv game_revived).
  set (rA := state_of (pass_A game_revived)) in *.
  assert (P : Permutation [(1, 1); (2, 1); (3, 1)]
                (filter (effective game_revived)
                        (set_order (dead_cells rA)))).
  { assert (F := Permutation_filter_keep (effective game_revived)
                   (H (dead_cells rA))).
    assert (E : filter (effective game_revived) (dead_cells rA)
                = [(1, 1); (2, 1); (3, 1)]) by (vm_compute; reflexivity).
    now rewrite E in F. }
  apply permutations_of_three in P;
    [|repeat constructor; cbn; intuition discriminate].
  set (o := filter (effective game_revived) (set_order (dead_cells rA))) in *.
  exists o. split; [exact P|].
  unfold _update_cells. rewrite EA. unfold pass_B.
  rewrite (revive_filter _ RI). fold o. unfold after_revivals. fold rA.
  destruct (for_each_total revive_step o rA revive_step_total) as [rB ->].
  reflexivity.
Qed.

(** C2. The first loop does not treat every cell of every generation as
    claimed. Load [game_revived] (to-kill at 2) and apply one round, with
    any order of the candidates: the round returns a generation in which
    team x, removed from the registry in that round, has a revived cell at
    (2, 1) and score 1. In the first loop of the next round the enemies
    kill that cell, the score of x reaches zero, and the removal of x from
    the registry raises KeyError: the loop stops there, the round update
    raises, and no next generation is made, although the generation holds
    a cell, at (0, 0), that survives. *)
Theorem first_loop_raises_on_revived_team set_order :
  set_order_ok set_order ->
  exists g1 g2 c c0,
    load_game [line "to-kill:2"]
              [line "1f1x1.1x1f"; line "1f3.1f"; line "1.1e1.1g"] init
    = Done g1 tt /\
    _update_cells set_order g1 = Done g2 tt /\
    PyDict.get (teams g1) "x"%string = Some (cell_team c) /\
    PyDict.get (teams g2) "x"%string = None /\
    PyDict.get (cells g2) (2, 1) = Some c /\
    team_view g2 (cell_team c) = "x"%string /\
    team_score g2 (cell_team c) = 1 /\
    killed_by_enemies g2 c = true /\
    PyDict.get (cells g2) (0, 0) = Some c0 /\ survives g2 c0 = true /\
    raised (pass_A g2) = Some KeyError /\
    raised (_update_cells set_order g2) = Some KeyError.
Proof.
  intros H. destruct (game_revived_round H) as (o & P & U).
  assert (K : revived_team_breaks (after_revivals game_revived o) = true).
  { cbn [In] in P.
    destruct P as [<-|[<-|[<-|[<-|[<-|[<-|[]]]]]]]; vm_compute; reflexivity. }
  assert (T1 : PyDict.get (teams game_revived) "x"%string = Some 1%N)
    by (vm_compute; reflexivity).
  assert (L : load_game [line "to-kill:2"]
                [line "1f1x1.1x1f"; line "1f3.1f"; line "1.1e1.1g"] init
              = Done game_revived tt) by (vm_compute; reflexivity).
  set (g2 := after_revivals game_revived o) in *.
  clearbody g2. clear P.
  unfold revived_team_breaks in K.
  destruct (PyDict.get (cells g2) (2, 1)) as [c|] eqn:Gc; [|discriminate K].
  destruct (PyDict.get (cells g2) (0, 0)) as [c0|] eqn:G0; [|discriminate K].
  repeat (apply andb_true_iff in K;
          let K' := fresh "K" in destruct K as [K K']).
  apply N.eqb_eq in K. apply negb_true_iff in K5.
  apply String.eqb_eq in K4. apply Z.eqb_eq in K3.
  assert (RA : raised (pass_A g2) = Some KeyError).
  { destruct (raised (pass_A g2)) as [e|]; [|discriminate K0].
    destruct e; try discriminate K0. reflexivity. }
  exists game_revived, g2, c, c0. rewrite K.
  split; [exact L|]. split; [exact U|]. split; [exact T1|].
  split.
  { unfold PyDict.mem in K5.
    destruct (PyDict.get (teams g2) "x"%string); [discriminate K5|].
    reflexivity. }
  split; [exact Gc|]. split; [exact K4|]. split; [exact K3|].
  split; [exact K2|]. split; [exact G0|]. split; [exact K1|].
  split; [exact RA|].
  rewrite update_cells_raised by (rewrite RA; discriminate). exact RA.
Qed.

Lemma first_loop_raises_on_revived_team_witness :
  exists g1 g2,
    load_game [line "to-kill:2"]
              [line "1f1x1.1x1f"; line "1f3.1f"; line "1.1e1.1g"] init
    = Done g1 tt /\
    _update_cells insertion_order g1 = Done g2 tt /\
    raised (pass_A g2) = Some KeyError /\
    raised (_update_cells insertion_order g2) = Some KeyError.
Proof.
  destruct (first_loop_raises_on_revived_team insertion_order_ok)
    as (g1 & g2 & c & c0 & L & U & _ & _ & _ & _ & _ & _ & _ & _ & RA & RU).
  exists g1, g2. repeat split; assumption.
Defined.

(** * Further properties of the code *)

(** ** Loading *)

(** X1. Whatever the configuration and cells files, the game that
    [load_game] leaves on a fresh object has a cell store with one entry per
    position, each cell stored at its own position, and a registry that
    holds every team once, under its view, the teams of all cells
    included. *)
Theorem loaded_game_well_formed config file :
  let g := state_of (load_game config file init) in
  NoDup (PyDict.keys (cells g)) /\
  (forall k c, In (k, c) (cells g) -> position c = k) /\
  NoDup (PyDict.keys (teams g)) /\
  (forall v t, In (v, t) (teams g) -> team_view g t = v) /\
  (forall c, In c (PyDict.values (cells g)) ->
             PyDict.get (teams g) (team_view g (cell_team c))
             = Some (cell_team c)).
Proof.
  destruct (sound_load_game config file) as ((A & B) & (C & D & E) & _).
  cbv zeta. repeat split; assumption.
Qed.

Lemma set_property_valid prop val g :
  props_valid (properties g) ->
  props_valid (properties (state_of (set_property prop val g))).
Proof.
  intros V. unfold set_property.
  destruct (is_property prop) eqn:IP; cbn [negb]; [|exact V].
  destruct (_validate prop _) as [e|[|]] eqn:Va; cbn [state_of]; try exact V.
  cbn [with_properties properties].
  destruct V as (V1 & V2 & V3 & V4 & V5 & V6 & V7).
  unfold _validate, validations in Va. unfold store. revert Va.
  destruct (isdigit val).
  - case_prop prop; intros Va; try discriminate Va; injection Va as Va;
      unfold between in Va; apply andb_true_iff in Va; destruct Va as [L U];
      apply Z.leb_le in L, U; unfold props_valid; cbn; repeat split;
      try tauto; lia.
  - case_prop prop; intros Va; try discriminate Va. injection Va as Va.
    rewrite lower_lower in Va. apply orb_true_iff in Va.
    unfold props_valid; cbn. repeat split; try tauto; try lia.
    destruct Va as [Va|Va]; apply String.eqb_eq in Va; tauto.
Qed.

(** X2. Loading a configuration never takes a property out of its
    documented range: if the properties are within their ranges before
    [load_config], they are within them afterwards, whether the load ends
    normally or raises half-way. In particular refresh stays non-zero. *)
Theorem load_config_keeps_ranges config g :
  props_valid (properties g) ->
  props_valid (properties (state_of (load_config config g))).
Proof.
  unfold load_config. intros V.
  apply (for_each_invariant (fun g => props_valid (properties g)));
    [exact V|].
  intros g' l V' _. unfold config_line.
  destruct (split (strip l)) as [|prop [|val [|? ?]]]; try exact V'.
  now apply set_property_valid.
Qed.

Lemma load_config_keeps_ranges_witness :
  props_valid (properties init) /\
  props_valid
    (properties
       (state_of (load_config [line "width:20"; line "refresh:0"] init))).
Proof.
  assert (V : props_valid (properties init))
    by (unfold props_valid; cbn; repeat split; try lia; tauto).
  split; [exact V|]. exact (load_config_keeps_ranges _ init V).
Defined.

(** ** What a round leaves alone *)

Lemma In_del_entry {K V} `{PyKeyLaws K} (d d' : dict K V) k e :
  PyDict.del d k = Some d' -> In e d' -> In e d.
Proof.
  revert d'. induction d as [|[k0 v0] d IH]; cbn; [discriminate|].
  intros d' E I. destruct (keq k k0).
  - injection E as <-. now right.
  - destruct (PyDict.del d k) as [d''|] eqn:D; [|discriminate].
    injection E as <-. destruct I as [I|I]; [now left|].
    right. now apply IH with d''.
Qed.

Lemma age_step_frame g r c : frame g r -> frame g (state_of (age_step r c)).
Proof.
  intros (C & P & V & U & T). rewrite (@age_step_eq g r c C P).
  destruct (dies_of_age c); [repeat split; assumption|]. cbv zeta.
  destruct (survives g c); [repeat split; assumption|].
  destruct (_ =? 0); [|repeat split; assumption].
  destruct (PyDict.del _ _) as [teams'|] eqn:D; [|repeat split; assumption].
  repeat split; try assumption. cbn [state_of game with_teams teams].
  intros e I. apply T. eapply In_del_entry; eauto.
Qed.

Lemma revive_step_frame g r p :
  frame g r -> frame g (state_of (revive_step r p)).
Proof.
  intros F. destruct (revive_step_cases r p) as [->|[t ->]]; [exact F|].
  destruct F as (C & P & V & U & T). repeat split; assumption.
Qed.

(** X3. A round never adds a team to the registry and never changes the
    properties, the views of the teams or the supply of identities: whether
    [_update_cells] returns or raises, every registry entry it leaves was
    there before. So a team that is removed never comes back, even if one of
    its cells is revived. *)
Theorem round_never_registers set_order g :
  let g' := state_of (_update_cells set_order g) in
  (forall v t, In (v, t) (teams g') -> In (v, t) (teams g)) /\
  properties g' = properties g /\
  team_view g' = team_view g /\
  next_uuid g' = next_uuid g.
Proof.
  assert (FA : frame g (state_of (pass_A g))).
  { unfold pass_A. apply for_each_invariant.
    - repeat split. tauto.
    - intros r c F _. now apply age_step_frame. }
  assert (FB : forall r, frame g r ->
                         frame g (state_of (pass_B set_order r))).
  { intros r F. unfold pass_B. apply for_each_invariant; [exact F|].
    intros r' p F' _. now apply revive_step_frame. }
  unfold _update_cells. destruct (pass_A g) as [rA []|rA e];
    cbn [state_of] in *.
  - specialize (FB rA FA).
    destruct (pass_B set_order rA) as [rB []|rB e]; cbn [state_of] in *;
      destruct FB as (C & P & V & U & T); repeat split; try assumption;
      intros v t; apply T.
  - destruct FA as (C & P & V & U & T); repeat split; try assumption.
    intros v t; apply T.
Qed.

Lemma for_each_raises {S X} (body : S -> X -> outcome S unit) (e : exn) l s :
  (forall s' x, raised (body s' x) = None \/ raised (body s' x) = Some e) ->
  raised (for_each body l s) = None \/ raised (for_each body l s) = Some e.
Proof.
  intros B. revert s. induction l as [|x l IH]; intros s; cbn [for_each];
    [now left|].
  destruct (B s x) as [R|R]; destruct (body s x) as [s' []|s' e'];
    cbn in R |- *; try discriminate R; auto.
Qed.

Lemma pass_A_raises g :
  raised (pass_A g) = None \/ raised (pass_A g) = Some KeyError.
Proof.
  unfold pass_A. apply for_each_raises. intros r c. unfold age_step.
  destruct (update c) as [c' []]; [|now left].
  destruct (_get_neighbours _ _ _) as [alive dead].
  destruct (_ <? _); [now left|].
  destruct (_ =? 0); [|now left].
  destruct (PyDict.del _ _); [now left | now right].
Qed.

(** X4. The only exception that the round update can raise is the KeyError
    of [del self.teams[cell.team.view]]: the selections
    [dominant_teams[0]] and [highest[0]] of the second loop never fail, on
    any game. *)
Theorem round_raises_key_error_only set_order g :
  raised (_update_cells set_order g) = None \/
  raised (_update_cells set_order g) = Some KeyError.
Proof.
  assert (A := pass_A_raises g).
  unfold _update_cells. destruct (pass_A g) as [rA []|rA e]; cbn in A |- *.
  - destruct (pass_B_total set_order rA) as [rB ->]. now left.
  - exact A.
Qed.

(** ** The grid *)

Lemma dead_neighbour_in_bounds g x y q :
  In q (snd (_get_neighbours g x y)) -> in_bounds g q.
Proof.
  rewrite get_neighbours_flat. cbn [snd]. intros I.
  apply in_dead_at in I. destruct I as [I _]. apply filter_In in I.
  now apply in_boundsb_iff.
Qed.

Lemma in_bounds_ext g g' q :
  properties g' = properties g -> in_bounds g q -> in_bounds g' q.
Proof. unfold in_bounds. now intros ->. Qed.

(** X5. Cells never leave the grid: if every cell of a game is stored at
    its own position and lies inside [0, width) x [0, height), the same
    holds for the store that [_update_cells] builds, both after its first
    loop and at its end, for every iteration order of the candidates. *)
Theorem round_stays_on_grid set_order g :
  set_order_ok set_order ->
  (forall k c, In (k, c) (cells g) -> position c = k) ->
  on_grid g ->
  let rB := state_of (pass_B set_order (state_of (pass_A g))) in
  (forall k, In k (PyDict.keys (new_cells rB)) -> in_bounds g k) /\
  match _update_cells set_order g with
  | Done g' _ => on_grid g'
  | Raised _ _ => True
  end.
Proof.
  intros H Pk G.
  assert (IA := pass_A_inv g).
  set (Q := fun r : Round =>
              round_inv g r /\
              (forall p, In p (dead_cells r) -> in_bounds g p) /\
              (forall k, In k (PyDict.keys (new_cells r)) -> in_bounds g k)).
  assert (QA : Q (state_of (pass_A g))).
  { unfold pass_A. apply for_each_invariant.
    - split; [|split; intros ? []].
      repeat split; try constructor. intros p [].
    - intros r c (I & D & K) Ic. split; [now apply age_step_inv|].
      destruct I as (C & P & _). rewrite (@age_step_eq g r c C P).
      destruct (dies_of_age c); [now split|]. cbv zeta.
      assert (D' : forall p,
        In p (fold_left set_add
                (snd (_get_neighbours g (cell_x c) (cell_y c)))
                (dead_cells r)) -> in_bounds g p).
      { intros p J. apply in_fold_set_add in J. destruct J as [J|J];
          [eapply dead_neighbour_in_bounds; eauto | now apply D]. }
      destruct (survives g c).
      + split; [exact D'|]. cbn [state_of new_cells]. intros k J.
        apply In_keys_set in J. destruct J as [->|J]; [|now apply K].
        destruct (values_In _ _ Ic) as (k & Ik).
        rewrite (Pk _ _ Ik). apply G. now apply (in_map fst) in Ik.
      + destruct (_ =? 0); [destruct (PyDict.del _ _)|]; now split. }
  destruct QA as (RA & DA & KA).
  set (rA := state_of (pass_A g)) in *.
  destruct (@revivals_keys g (set_order (dead_cells rA)) rA RA)
    as ((_ & PB & _) & KB & _).
  fold (pass_B set_order rA) in PB, KB.
  assert (KB' : forall k,
    In k (PyDict.keys (new_cells (state_of (pass_B set_order rA)))) ->
    in_bounds g k).
  { intros k J. destruct (KB k J) as [J'|J']; [|now apply KA].
    apply DA. now apply (set_order_in _ _ H). }
  split; [exact KB'|].
  unfold _update_cells. subst rA.
  destruct (pass_A g) as [rA []|rA e]; [|exact I].
  cbn [state_of] in *. destruct (pass_B_total set_order rA) as [rB E].
  rewrite E in *. cbn [state_of] in *.
  intros k J. cbn [with_cells cells] in J.
  apply (@in_bounds_ext g); [exact PB | now apply KB'].
Qed.

Lemma round_stays_on_grid_witness :
  on_grid game_tie /\
  forall k,
    In k (PyDict.keys
            (new_cells (state_of (pass_B insertion_order
                                         (state_of (pass_A game_tie)))))) ->
    in_bounds game_tie k.
Proof.
  assert (G : on_grid game_tie).
  { intros k J. apply in_boundsb_iff. revert k J.
    apply (proj1 (forallb_forall (in_boundsb game_tie)
                    (PyDict.keys (cells game_tie)))).
    vm_compute. reflexivity. }
  split; [exact G|].
  destruct sound_game_tie as ((_ & Pk) & _).
  destruct (@round_stays_on_grid insertion_order game_tie
              insertion_order_ok Pk G) as [R _].
  exact R.
Defined.

(** ** Lifespans *)

Lemma ages_okb_ok g : ages_okb g = true -> ages_ok g.
Proof.
  unfold ages_okb, ages_ok. rewrite forallb_forall. intros F c I.
  specialize (F c I). apply andb_true_iff in F. destruct F as [L U].
  apply Z.leb_le in L, U. lia.
Qed.

(** X6. Lifespans stay within bounds: if the death age is at least 1 and no
    cell of the store has more than death-age rounds to live, then after a
    round update that returns every cell of the store, survivor or revived,
    has between 1 and death-age rounds to live. The lower bound needs
    nothing of the cells before the round. *)
Theorem round_keeps_ages set_order g :
  1 <= death_age (properties g) ->
  (forall c, In c (PyDict.values (cells g)) ->
             cell_age c <= death_age (properties g)) ->
  match _update_cells set_order g with
  | Done g' _ => ages_ok g'
  | Raised _ _ => True
  end.
Proof.
  intros D U.
  set (Q := fun r : Round =>
              round_inv g r /\
              forall c, In c (PyDict.values (new_cells r)) ->
                        1 <= cell_age c <= death_age (properties g)).
  assert (QA : Q (state_of (pass_A g))).
  { unfold pass_A. apply for_each_invariant.
    - split; [|intros c []].
      repeat split; try constructor. intros p [].
    - intros r c (I & A) Ic. split; [now apply age_step_inv|].
      destruct I as (C & P & _). rewrite (@age_step_eq g r c C P).
      destruct (dies_of_age c) eqn:Da; [exact A|]. cbv zeta.
      destruct (survives g c).
      + cbn [state_of new_cells]. intros c' J.
        destruct (values_In _ _ J) as (k & Jk). apply In_set in Jk.
        destruct Jk as [[_ ->]|Jk].
        * unfold dies_of_age in Da. apply Z.leb_gt in Da.
          specialize (U c Ic). cbn [aged cell_age]. lia.
        * apply A. eapply keys_values_In; eauto.
      + destruct (_ =? 0); [destruct (PyDict.del _ _)|]; exact A. }
  assert (QB : forall r, Q r -> Q (state_of (pass_B set_order r))).
  { intros r Qr. unfold pass_B. apply for_each_invariant; [exact Qr|].
    intros r' p (I & A) _. split; [now apply revive_step_inv|].
    destruct (revive_step_cases r' p) as [->|[t ->]]; [exact A|].
    cbn [state_of revived new_cells]. intros c' J.
    destruct (values_In _ _ J) as (k & Jk). apply In_set in Jk.
    destruct Jk as [[_ ->]|Jk].
    - cbn [cell_age]. destruct I as (_ & -> & _). lia.
    - apply A. eapply keys_values_In; eauto. }
  unfold _update_cells. destruct (pass_A g) as [rA []|rA e]; [|exact I].
  cbn [state_of] in QA. specialize (QB rA QA).
  destruct (pass_B set_order rA) as [rB []|rB e]; [|exact I].
  cbn [state_of] in QB. destruct QB as ((_ & P & _) & A).
  intros c J. cbn [with_cells cells properties] in *. rewrite P.
  now apply A.
Qed.

Lemma round_keeps_ages_witness :
  1 <= death_age (properties game_tie) /\
  ages_ok game_tie /\
  match _update_cells insertion_order game_tie with
  | Done g' _ => ages_ok g'
  | Raised _ _ => True
  end.
Proof.
  assert (D : 1 <= death_age (properties game_tie))
    by (vm_compute; discriminate).
  assert (A : ages_ok game_tie)
    by (apply ages_okb_ok; vm_compute; reflexivity).
  split; [exact D|]. split; [exact A|].
  apply (@round_keeps_ages insertion_order game_tie D).
  intros c J. exact (proj2 (A c J)).
Defined.

(** ** Scores and lifespans after loading *)

Lemma set_new {K V} `{PyKeyLaws K} (d : dict K V) k v :
  ~ In k (PyDict.keys d) -> PyDict.set d k v = (d ++ [(k, v)])%list.
Proof.
  induction d as [|[k0 v0] d IH]; cbn; [reflexivity|]. intros N.
  destruct (keq_spec k k0) as [->|ne]; [tauto|].
  rewrite IH by tauto. reflexivity.
Qed.

Lemma count_cells_new g k c t :
  ~ In k (PyDict.keys (cells g)) ->
  count_cells (with_cells g (PyDict.set (cells g) k c)) t
  = count_cells g t + (if N.eqb (cell_team c) t then 1 else 0).
Proof.
  intros N. unfold count_cells, len. cbn [with_cells cells].
  rewrite set_new by exact N. unfold PyDict.values.
  rewrite map_app, filter_app, length_app. cbn [map filter snd].
  destruct (N.eqb (cell_team c) t); cbn [List.length]; lia.
Qed.

Lemma py_range_cons lo hi :
  lo < hi -> py_range lo hi = lo :: py_range (lo + 1) hi.
Proof.
  intros L. unfold py_range.
  replace (Z.to_nat (hi - lo)) with (S (Z.to_nat (hi - (lo + 1)))) by lia.
  cbn [seq map]. rewrite <- seq_shift, map_map. f_equal; [lia|].
  apply map_ext. intros i. lia.
Qed.

Lemma py_range_nil lo hi : hi <= lo -> py_range lo hi = [].
Proof.
  intros L. unfold py_range. now replace (Z.to_nat (hi - lo)) with O by lia.
Qed.

Lemma int_of_digits_nonneg l :
  forallb char_isdigit l = true -> 0 <= int_of_digits l.
Proof.
  unfold int_of_digits.
  assert (G : forall a, 0 <= a -> forallb char_isdigit l = true ->
    0 <= fold_left (fun n c => 10 * n + (Z.of_nat (nat_of_ascii c) - 48))
                   l a).
  { induction l as [|c l IH]; intros a La D; cbn [fold_left]; [exact La|].
    cbn in D. apply andb_true_iff in D. destruct D as [Dc D].
    unfold char_isdigit in Dc. apply andb_true_iff in Dc.
    destruct Dc as [D1 D2]. apply Nat.leb_le in D1.
    apply IH; [lia | exact D]. }
  apply G. lia.
Qed.

Lemma before_next x x' y p : x <= x' -> before x y p -> before x' y p.
Proof. unfold before. intros L [B|[B1 B2]]; [now left | right; lia]. Qed.

Lemma loading_mono g x x' y : x <= x' -> loading g x y -> loading g x' y.
Proof.
  intros L (S & C & A & F). repeat split; try apply S; try assumption.
  intros p I. eapply before_next; eauto.
Qed.

Lemma cell_team_registered g c :
  sound g -> In c (PyDict.values (cells g)) -> (cell_team c < next_uuid g)%N.
Proof.
  intros (_ & (_ & _ & RC) & U) I.
  apply (U (team_view g (cell_team c))). apply get_In. now apply RC.
Qed.

Lemma loading_new_team g v x y :
  loading g x y -> PyDict.mem (teams g) v = false ->
  loading (new_team g v) x y.
Proof.
  intros (S & C & A & F) M. split; [now apply sound_new_team|].
  split; [|split; [exact A | exact F]].
  intros t. cbn [new_team team_score].
  change (count_cells (new_team g v) t) with (count_cells g t).
  destruct (N.eqb_spec t (next_uuid g)) as [->|ne]; [|apply C].
  unfold count_cells. rewrite filter_none; [reflexivity|].
  intros c I. apply N.eqb_neq. apply (@cell_team_registered g c S) in I. lia.
Qed.

Lemma loading_place y v g x :
  loading g x y -> loading (place y v g x) (x + 1) y.
Proof.
  intros L. unfold place.
  set (g0 := if negb (PyDict.mem (teams g) v) then new_team g v else g).
  assert (L0 : loading g0 x y).
  { unfold g0. destruct (PyDict.mem (teams g) v) eqn:M; cbn [negb];
      [exact L | now apply loading_new_team]. }
  assert (Sp : sound (place y v g x)) by (apply sound_place, L).
  unfold place in Sp. fold g0 in Sp. clearbody g0.
  destruct (PyDict.get (teams g0) v) as [team|] eqn:G.
  - destruct L0 as (S0 & C & A & F).
    assert (Nk : ~ In (x, y) (PyDict.keys (cells g0))).
    { intros I. apply F in I. unfold before in I. cbn [fst snd] in I. lia. }
    split; [exact Sp|]. split; [|split].
    + intros t. cbn [with_score team_score].
      change (count_cells (with_score ?a ?b ?c) t) with (count_cells a t).
      rewrite count_cells_new by exact Nk. cbn [cell_team].
      cbn [with_cells team_score]. rewrite (N.eqb_sym team t).
      destruct (N.eqb_spec t team) as [->|ne]; rewrite C; lia.
    + cbn [with_score with_cells cells properties]. intros c I.
      destruct (values_In _ _ I) as (k & J). apply In_set in J.
      destruct J as [[_ ->]|J]; [reflexivity|].
      apply A. eapply keys_values_In; eauto.
    + cbn [with_score with_cells cells]. intros p I.
      apply In_keys_set in I. destruct I as [->|I].
      * right. cbn. lia.
      * apply (@before_next x); [lia | now apply F].
  - apply (@loading_mono _ x); [lia | exact L0].
Qed.

Lemma loading_fold y v n x g :
  loading g x y ->
  loading (fold_left (place y v) (py_range x (x + Z.of_nat n)) g)
          (x + Z.of_nat n) y.
Proof.
  revert x g. induction n as [|n IH]; intros x g L.
  - rewrite py_range_nil by lia. cbn [fold_left].
    apply (@loading_mono _ x); [lia | exact L].
  - rewrite py_range_cons by lia. cbn [fold_left].
    replace (x + Z.of_nat (S n)) with ((x + 1) + Z.of_nat n) by lia.
    apply IH. now apply loading_place.
Qed.

Lemma loading_token y amount v g x :
  0 <= amount -> loading g x y ->
  exists g' x', token y amount v g x = Done (g', x') tt /\ loading g' x' y.
Proof.
  intros N L. unfold token, str_eq_int. cbn [andb].
  destruct (String.eqb v ".").
  - exists g, (x + amount). split; [reflexivity|].
    apply (@loading_mono _ x); [lia | exact L].
  - eexists. eexists. split; [reflexivity|].
    assert (F := @loading_fold y v (Z.to_nat amount) x g L).
    rewrite Z2Nat.id in F by exact N.
    destruct (Z.eq_dec amount 0) as [->|ne].
    + rewrite py_range_nil in * by lia. cbn [last fold_left] in *.
      apply (@loading_mono _ x); [lia | exact L].
    + rewrite last_py_range by lia. exact F.
Qed.

Lemma loading_row y l amount g x :
  forallb char_isdigit amount = true -> loading g x y ->
  exists g' x', row y l amount g x = Done (g', x') tt /\ loading g' x' y.
Proof.
  revert amount g x. induction l as [|c l IH]; intros amount g x D L;
    cbn [row].
  - destruct amount as [|d ds]; [now exists g, x|].
    apply loading_token; [|exact L]. apply int_of_digits_nonneg.
    apply forallb_forall. intros a I. apply in_rev in I.
    now apply (proj1 (forallb_forall _ _) D).
  - destruct (char_isdigit c) eqn:Dc.
    + apply IH; [|exact L]. cbn [forallb]. now rewrite Dc.
    + destruct amount as [|d ds]; [now exists g, x|].
      destruct (@loading_token y (int_of_digits (rev (d :: ds)))
                  (String c EmptyString) g x) as (g1 & x1 & -> & L1);
        [|exact L|].
      * apply int_of_digits_nonneg.
        apply forallb_forall. intros a I. apply in_rev in I.
        now apply (proj1 (forallb_forall _ _) D).
      * cbn [bind fst snd]. now apply IH.
Qed.

Lemma loading_rows lines y g :
  loading g 0 y ->
  exists g' y', rows y lines g = Done g' tt /\ loading g' 0 y'.
Proof.
  revert y g. induction lines as [|l lines IH]; intros y g L; cbn [rows].
  - now exists g, y.
  - destruct (@loading_row y (chars (strip l)) [] g 0 eq_refl L)
      as (g1 & x1 & -> & (S1 & C1 & A1 & F1)).
    cbn [fst]. apply IH. repeat split; try apply S1; try assumption.
    intros p I. left. destruct (F1 p I) as [B|[B _]]; lia.
Qed.

Lemma loading_init p : loading (with_properties init p) 0 0.
Proof.
  split; [apply sound_init|]. split; [reflexivity|].
  split; intros ? [].
Qed.

(** X7. Right after loading, the scores count the cells: whatever the two
    files, in the game that [load_game] leaves on a fresh object the score
    of every team is the number of cells of the store that belong to it,
    and every cell has the death-age property as its lifespan. *)
Theorem loaded_scores_count_cells config file :
  let g := state_of (load_game config file init) in
  (forall t, team_score g t = count_cells g t) /\
  (forall c, In c (PyDict.values (cells g)) ->
             cell_age c = death_age (properties g)).
Proof.
  unfold load_game. destruct (load_config_state config init) as [p E].
  destruct (load_config config init) as [g []|g e]; cbn [state_of bind] in *;
    subst g.
  - destruct (@loading_rows file 0 _ (loading_init p))
      as (g' & y' & R & (_ & C & A & _)).
    unfold load_cells. rewrite R. cbn [state_of]. now split.
  - destruct (loading_init p) as (_ & C & A & _). now split.
Qed.

(** ** The balance of scores and cells over a round *)

Lemma filter_snoc {A} (f : A -> bool) l a :
  filter f (l ++ [a]) = (filter f l ++ if f a then [a] else [])%list.
Proof. rewrite filter_app. cbn [filter]. now destruct (f a). Qed.

(** The next store after the first loop: the survivors, in the order of the
    store *)
Lemma pass_A_cells g cs pre r r' :
  round_inv g r ->
  NoDup (map position (pre ++ cs)) ->
  new_cells r = map survivor (filter (survives g) pre) ->
  for_each age_step cs r = Done r' tt ->
  new_cells r' = map survivor (filter (survives g) (pre ++ cs)).
Proof.
  revert pre r. induction cs as [|c cs IH]; intros pre r I ND N E.
  - cbn in E. injection E as <-. now rewrite app_nil_r.
  - cbn [for_each] in E.
    assert (I1 := age_step_inv c I).
    pose proof I as (C & P & _).
    assert (Np : ~ In (position c) (PyDict.keys (new_cells r))).
    { rewrite N. unfold PyDict.keys. rewrite map_map. cbn [survivor fst].
      intros J. apply in_map_iff in J. destruct J as (c' & Ec & J).
      apply filter_In in J. destruct J as [J _].
      rewrite map_app in ND. cbn [map] in ND. apply NoDup_remove_2 in ND.
      apply ND. rewrite in_app_iff. left. rewrite <- Ec. now apply in_map. }
    assert (N1 : new_cells (state_of (age_step r c))
                 = map survivor (filter (survives g) (pre ++ [c]))).
    { rewrite (@age_step_eq g r c C P), filter_snoc, map_app.
      destruct (dies_of_age c) eqn:Da.
      - assert (Su : survives g c = false)
          by (unfold survives; now rewrite Da).
        rewrite Su. cbn [map state_of]. now rewrite app_nil_r.
      - cbv zeta. destruct (survives g c) eqn:Su.
        + cbn [state_of new_cells map]. rewrite set_new by exact Np.
          now rewrite N.
        + cbn [map]. rewrite app_nil_r.
          destruct (_ =? 0); [destruct (PyDict.del _ _)|]; exact N. }
    destruct (age_step r c) as [r1 []|r1 e]; cbn [bind state_of] in *;
      [|discriminate E].
    replace (pre ++ c :: cs)%list with ((pre ++ [c]) ++ cs)%list in *
      by now rewrite <- app_assoc.
    eapply IH; eauto.
Qed.

Lemma values_survivors l : PyDict.values (map survivor l) = map aged l.
Proof. unfold PyDict.values. rewrite map_map. reflexivity. Qed.

Lemma tally_of_app l1 l2 t :
  tally_of (l1 ++ l2) t = tally_of l1 t + tally_of l2 t.
Proof. unfold tally_of, len. rewrite filter_app, length_app. lia. Qed.

(** Every cell of a team survives, is killed by the enemies, or dies of
    age. *)
Lemma fates_partition g cs t :
  tally_of cs t
  = tally_of (map aged (filter (survives g) cs)) t
    + kills g cs t
    + len (filter (fun c => N.eqb (cell_team c) t && dies_of_age c) cs).
Proof.
  induction cs as [|c cs IH].
  - reflexivity.
  - rewrite tally_of_cons. unfold kills in *. cbn [filter].
    destruct (fate_cases g c)
      as [(Da & Ki & Su)|[(Da & Ki & Su)|(Da & Ki & Su)]];
      rewrite Da, Ki, Su; cbn [map]; try rewrite tally_of_cons;
      cbn [aged cell_team]; rewrite ?andb_true_r, ?andb_false_r;
      destruct (N.eqb (cell_team c) t); unfold len in *;
      cbn [List.length]; lia.
Qed.

Lemma revive_step_count r p t :
  ~ In p (PyDict.keys (new_cells r)) ->
  let r' := state_of (revive_step r p) in
  tally_of (PyDict.values (new_cells r')) t
  = tally_of (PyDict.values (new_cells r)) t
    + (match PyDict.get (new_cells r') p with
       | Some c => if N.eqb (cell_team c) t then 1 else 0
       | None => 0
       end).
Proof.
  intros Nk. destruct (revive_step_cases r p) as [->|[t0 ->]];
    cbn [state_of].
  - apply get_None in Nk. rewrite Nk. lia.
  - cbn [revived new_cells]. rewrite get_set_same. cbn [cell_team].
    rewrite set_new by exact Nk. unfold PyDict.values.
    rewrite map_app, tally_of_app. cbn [map snd].
    unfold tally_of at 2, len. cbn [filter cell_team].
    destruct (N.eqb t0 t); cbn [List.length]; lia.
Qed.

(** After the candidates [l], the next store holds, for every team, as many
    more cells as candidates of [l] were revived for it. *)
Lemma revivals_count g l r :
  round_inv g r -> NoDup l ->
  (forall p, In p l -> ~ In p (PyDict.keys (new_cells r))) ->
  let r' := state_of (for_each revive_step l r) in
  forall t, tally_of (PyDict.values (new_cells r')) t
            = tally_of (PyDict.values (new_cells r)) t + revivals r' l t.
Proof.
  revert r. induction l as [|p l IH]; intros r I ND Nk; cbn [for_each].
  - cbv zeta. intros t. cbn [state_of]. change (revivals r [] t) with 0. lia.
  - inversion ND as [|? ? Np ND']; subst.
    assert (Ip := revive_step_inv p I).
    assert (Sp := fun t => @revive_step_count r p t (Nk p (or_introl eq_refl))).
    assert (Kp := revive_step_keys r p).
    destruct (revive_step_total r p) as [r1 E]. rewrite E in *.
    cbn [bind state_of] in *.
    assert (Nk1 : forall q, In q l -> ~ In q (PyDict.keys (new_cells r1))).
    { intros q J K. destruct (Kp q K) as [->|K']; [contradiction|].
      apply (Nk q); [now right | exact K']. }
    destruct (@revivals_keys g l r1 Ip) as (_ & _ & G).
    cbv zeta. intros t. rewrite (IH r1 Ip ND' Nk1 t), revivals_cons.
    rewrite (G p Np), (Sp t). lia.
Qed.

(** X8. The balance of a round. On a game whose store and registry are
    sound the round update returns, and for every team the excess of its
    score over the number of its cells grows by exactly the number of its
    cells that died of age in the round: enemy kills and revivals are
    booked, deaths of age are not. *)
Theorem round_score_balance set_order g :
  set_order_ok set_order -> store_ok g -> registry_ok g ->
  exists g',
    _update_cells set_order g = Done g' tt /\
    forall t, team_score g' t - count_cells g' t
              = team_score g t - count_cells g t + aged_out g t.
Proof.
  intros H St Rg.
  assert (NP : NoDup (map position ([] ++ PyDict.values (cells g)))).
  { cbn [app]. rewrite store_positions by exact St. apply St. }
  destruct (@pass_A_ages g (PyDict.values (cells g)) [] (mkRound g [] []) Rg
              (fun c I => I) NP (ages_inv_start Rg)) as (rA & EA & IA).
  cbn [app] in IA. destruct IA as (RI & S & _ & _ & N1 & _).
  assert (CA := @pass_A_cells g (PyDict.values (cells g)) [] (mkRound g [] [])
                  rA (proj1 (ages_inv_start Rg)) NP eq_refl EA).
  cbn [app] in CA. fold (pass_A g) in EA.
  set (l := set_order (dead_cells rA)).
  assert (NDl : NoDup l).
  { eapply Permutation_NoDup; [apply H | apply RI]. }
  assert (Nk : forall q, In q l -> ~ In q (PyDict.keys (new_cells rA))).
  { intros q J K. apply (proj1 (set_order_in _ _ H)) in J.
    destruct RI as (_ & _ & _ & D & _). apply D, get_None in J. apply J.
    destruct (N1 q K) as (c & Ic & _ & E).
    destruct (values_In _ _ Ic) as (k & Ik).
    assert (Pk : position c = k) by now apply St.
    rewrite <- E, Pk. now apply (in_map fst) in Ik. }
  assert (Sc := @revivals_score g l rA RI NDl Nk).
  assert (Cn := @revivals_count g l rA RI NDl Nk).
  destruct (pass_B_total set_order rA) as [rB EB].
  unfold pass_B in EB. fold l in EB. rewrite EB in Sc, Cn.
  cbn [state_of] in Sc, Cn. cbv zeta in Sc, Cn.
  exists (with_cells (game rB) (new_cells rB)).
  split; [eapply update_cells_run; eassumption|].
  intros t. cbn [with_cells team_score].
  change (count_cells (with_cells (game rB) (new_cells rB)) t)
    with (tally_of (PyDict.values (new_cells rB)) t).
  change (count_cells g t) with (tally_of (PyDict.values (cells g)) t).
  rewrite Sc, Cn, S, CA, (fates_partition g (PyDict.values (cells g)) t).
  rewrite values_survivors. unfold aged_out. lia.
Qed.

Lemma round_score_balance_witness :
  store_ok game_kill /\ registry_ok game_kill /\
  exists g',
    _update_cells insertion_order game_kill = Done g' tt /\
    forall t, team_score g' t - count_cells g' t
              = team_score game_kill t - count_cells game_kill t
                + aged_out game_kill t.
Proof.
  destruct sound_game_kill as (St & Rg & _).
  split; [exact St|]. split; [exact Rg|].
  exact (@round_score_balance insertion_order game_kill insertion_order_ok
           St Rg).
Defined.

(** ** Rendering *)

Lemma list_set_length {A} (l : list A) n v :
  List.length (list_set l n v) = List.length l.
Proof.
  revert n. induction l as [|a l IH]; intros [|n]; cbn; auto.
Qed.

Lemma nth_error_list_set {A} (l : list A) n v m :
  nth_error (list_set l n v) m
  = if Nat.eqb n m
    then match nth_error l n with Some _ => Some v | None => None end
    else nth_error l m.
Proof.
  revert n m. induction l as [|a l IH]; intros [|n] [|m]; cbn;
    try reflexivity.
  - now destruct (Nat.eqb n m).
  - apply IH.
Qed.

Lemma In_list_set {A} (l : list A) n v a :
  In a (list_set l n v) -> a = v \/ In a l.
Proof.
  revert n. induction l as [|b l IH]; intros [|n]; cbn; try tauto.
  - intros [<-|I]; auto.
  - intros [<-|I]; auto. destruct (IH _ I); auto.
Qed.

Lemma list_index_range {A} (l : list A) i n :
  list_index l i = Some n -> (n < List.length l)%nat.
Proof.
  unfold list_index, len.
  destruct (Z.leb_spec 0 i), (Z.ltb_spec i (Z.of_nat (List.length l)));
    cbn [andb]; try (intros E; injection E as <-; lia);
    destruct (Z.leb_spec (- Z.of_nat (List.length l)) i), (Z.ltb_spec i 0);
    cbn [andb]; try discriminate; intros E; injection E as <-; lia.
Qed.

Lemma list_index_in {A} (l : list A) i :
  0 <= i < len l -> list_index l i = Some (Z.to_nat i).
Proof.
  intros [L U]. unfold list_index.
  destruct (Z.leb_spec 0 i), (Z.ltb_spec i (len l)); try lia. reflexivity.
Qed.

Lemma list_index_high {A} (l : list A) i :
  len l <= i -> list_index l i = None.
Proof.
  intros L. unfold list_index. assert (0 <= len l) by (unfold len; lia).
  destruct (Z.leb_spec 0 i), (Z.ltb_spec i (len l)); try lia.
  cbn [andb]. destruct (Z.leb_spec (- len l) i), (Z.ltb_spec i 0); try lia.
  reflexivity.
Qed.

Lemma grid_set_shaped w h grid x y v grid' :
  shaped w h grid -> grid_set grid x y v = Some grid' -> shaped w h grid'.
Proof.
  intros [H W]. unfold grid_set.
  destruct (list_index grid y) as [j|]; [|discriminate].
  destruct (nth_error grid j) as [line|] eqn:Ej; [|discriminate].
  destruct (list_index line x) as [i|]; [|discriminate].
  intros E. injection E as <-. split.
  - unfold len in *. now rewrite list_set_length.
  - intros line' I. apply In_list_set in I. destruct I as [->|I];
      [|now apply W].
    unfold len. rewrite list_set_length. apply W.
    eapply nth_error_In; eauto.
Qed.

Lemma grid_set_on w h grid x y v :
  shaped w h grid -> 0 <= x < w -> 0 <= y < h ->
  exists grid',
    grid_set grid x y v = Some grid' /\
    forall x' y', 0 <= x' -> 0 <= y' ->
      grid_at grid' x' y'
      = if pos_eqb (x', y') (x, y) then Some v else grid_at grid x' y'.
Proof.
  intros [H W] Bx By. unfold grid_set.
  rewrite list_index_in by lia.
  destruct (nth_error grid (Z.to_nat y)) as [line|] eqn:Ej.
  2:{ apply nth_error_None in Ej. unfold len in H. lia. }
  assert (Wl : len line = w) by (apply W; eapply nth_error_In; eauto).
  rewrite list_index_in by lia. eexists. split; [reflexivity|].
  intros x' y' Px Py. unfold grid_at, pos_eqb. cbn [fst snd].
  rewrite nth_error_list_set, Ej.
  destruct (Nat.eqb_spec (Z.to_nat y) (Z.to_nat y')) as [e|ne].
  - replace (y' =? y) with true by (symmetry; apply Z.eqb_eq; lia).
    rewrite andb_true_r, nth_error_list_set.
    replace (Z.to_nat y') with (Z.to_nat y) by lia. rewrite Ej.
    destruct (Nat.eqb_spec (Z.to_nat x) (Z.to_nat x')) as [e'|ne'].
    + replace (x' =? x) with true by (symmetry; apply Z.eqb_eq; lia).
      destruct (nth_error line (Z.to_nat x)) eqn:Ei; [reflexivity|].
      apply nth_error_None in Ei. unfold len in Wl. lia.
    + replace (x' =? x) with false by (symmetry; apply Z.eqb_neq; lia).
      reflexivity.
  - replace (y' =? y) with false by (symmetry; apply Z.eqb_neq; lia).
    now rewrite andb_false_r.
Qed.

Lemma place_cells_on g w h (items : dict pos Cell) grid :
  shaped w h grid -> NoDup (PyDict.keys items) ->
  (forall k, In k (PyDict.keys items) -> 0 <= fst k < w /\ 0 <= snd k < h) ->
  exists grid',
    place_cells g items grid = Some grid' /\ shaped w h grid' /\
    forall x y, 0 <= x -> 0 <= y ->
      grid_at grid' x y
      = match @PyDict.get pos Cell _ items (x, y) with
        | Some c => Some (team_view g (cell_team c))
        | None => grid_at grid x y
        end.
Proof.
  revert grid. induction items as [|[[x0 y0] c] items IH]; intros grid S ND B.
  - exists grid. split; [reflexivity|]. split; [exact S|]. reflexivity.
  - cbn [PyDict.keys map fst] in ND, B. inversion ND as [|? ? Nk ND']; subst.
    destruct (B (x0, y0) (or_introl eq_refl)) as [Bx By]. cbn [fst snd] in *.
    destruct (@grid_set_on w h grid x0 y0 (team_view g (cell_team c)) S Bx By)
      as (grid1 & E1 & A1).
    cbn [place_cells]. rewrite E1.
    destruct (IH grid1) as (grid' & E & S' & A).
    { eapply grid_set_shaped; eauto. }
    { exact ND'. }
    { intros k I. apply B. now right. }
    exists grid'. split; [exact E|]. split; [exact S'|].
    intros x y Px Py. rewrite (A x y Px Py), (A1 x y Px Py).
    cbn [PyDict.get keq PyKey_pos].
    destruct (pos_eqb_spec (x, y) (x0, y0)) as [e|ne]; [|reflexivity].
    rewrite e. apply get_None in Nk. unfold PyDict.keys in Nk.
    now rewrite Nk.
Qed.

Lemma len_map {A B} (f : A -> B) l : len (map f l) = len l.
Proof. unfold len. now rewrite length_map. Qed.

Lemma len_py_range n : len (py_range 0 n) = Z.max 0 n.
Proof. unfold len, py_range. rewrite length_map, length_seq. lia. Qed.

Lemma generate_grid_shaped g :
  shaped (Z.max 0 (width (properties g))) (Z.max 0 (height (properties g)))
         (_generate_grid g).
Proof.
  unfold _generate_grid. split.
  - now rewrite len_map, len_py_range.
  - intros line I. apply in_map_iff in I. destruct I as (y & <- & _).
    now rewrite len_map, len_py_range.
Qed.

Lemma generate_grid_at g x y :
  in_bounds g (x, y) -> grid_at (_generate_grid g) x y = Some "."%string.
Proof.
  intros [Bx By]. cbn [fst snd] in *. unfold grid_at, _generate_grid.
  assert (N : forall {A} (v : A) n i, 0 <= i < n ->
            nth_error (map (fun _ => v) (py_range 0 n)) (Z.to_nat i)
            = Some v).
  { intros A v n i Bi.
    rewrite nth_error_map. unfold py_range.
    rewrite nth_error_map, nth_error_seq.
    replace (Z.to_nat i <? Z.to_nat (n - 0))%nat with true
      by (symmetry; apply Nat.ltb_lt; lia).
    reflexivity. }
  rewrite N by exact By. now apply N.
Qed.

(** X9. The picture of a game. If the store holds each position once and
    every cell lies inside the grid, [_update_grid] on the grid of
    [_generate_grid] returns a grid of height rows of width columns that
    shows, at every position of the grid, the view of the team of the cell
    stored there and the dead symbol [.] where the store has no cell. *)
Theorem picture_of_game g :
  NoDup (PyDict.keys (cells g)) -> on_grid g ->
  exists grid,
    _update_grid g (_generate_grid g) = Some grid /\
    shaped (Z.max 0 (width (properties g))) (Z.max 0 (height (properties g)))
           grid /\
    forall x y, in_bounds g (x, y) -> grid_at grid x y = Some (shown g (x, y)).
Proof.
  intros ND G. unfold _update_grid.
  destruct (@place_cells_on g _ _ (cells g) (_generate_grid g)
              (generate_grid_shaped g) ND) as (grid & E & S & A).
  { intros k I. destruct (G k I) as [Bx By]. lia. }
  exists grid. split; [exact E|]. split; [exact S|].
  intros x y B. pose proof B as [Bx By]. cbn [fst snd] in *.
  rewrite A by lia. unfold shown.
  destruct (PyDict.get (cells g) (x, y)); [reflexivity|].
  now apply generate_grid_at.
Qed.

Lemma picture_of_game_witness :
  NoDup (PyDict.keys (cells game_tie)) /\ on_grid game_tie /\
  exists grid,
    _update_grid game_tie (_generate_grid game_tie) = Some grid /\
    grid_at grid 1 0 = Some "a"%string /\
    grid_at grid 1 1 = Some "."%string.
Proof.
  destruct sound_game_tie as ((ND & _) & _).
  assert (G : on_grid game_tie).
  { intros k J. apply in_boundsb_iff. revert k J.
    apply (proj1 (forallb_forall (in_boundsb game_tie)
                    (PyDict.keys (cells game_tie)))).
    vm_compute. reflexivity. }
  split; [exact ND|]. split; [exact G|].
  destruct (@picture_of_game game_tie ND G) as (grid & E & _ & A).
  exists grid. split; [exact E|]. split.
  - rewrite (A 1 0) by (vm_compute; repeat split; discriminate).
    vm_compute. reflexivity.
  - rewrite (A 1 1) by (vm_compute; repeat split; discriminate).
    vm_compute. reflexivity.
Defined.

Lemma grid_set_off w h grid x y v :
  shaped w h grid -> w <= x \/ h <= y -> grid_set grid x y v = None.
Proof.
  intros [H W] O. unfold grid_set.
  destruct (list_index grid y) as [j|] eqn:Ey; [|reflexivity].
  destruct (nth_error grid j) as [line|] eqn:Ej; [|reflexivity].
  assert (Wl : len line = w) by (apply W; eapply nth_error_In; eauto).
  destruct O as [O|O].
  - rewrite list_index_high by lia. reflexivity.
  - rewrite list_index_high in Ey by lia. discriminate Ey.
Qed.

Lemma place_cells_off g w h (items : dict pos Cell) grid x y :
  shaped w h grid -> In (x, y) (PyDict.keys items) -> w <= x \/ h <= y ->
  place_cells g items grid = None.
Proof.
  intros S I O. revert grid S.
  induction items as [|[[x0 y0] c] items IH]; intros grid S; [destruct I|].
  cbn [place_cells].
  destruct (grid_set grid x0 y0 _) as [grid1|] eqn:E1; [|reflexivity].
  destruct I as [I|I].
  - cbn [fst] in I. injection I as -> ->.
    rewrite (@grid_set_off w h grid x y _ S O) in E1. discriminate E1.
  - apply IH; [exact I|]. eapply grid_set_shaped; eauto.
Qed.

(** X10. A cell outside the grid stops the game before the first round: if
    the store has a cell at a column from width on or at a row from height
    on (which [load_cells] accepts, as it never looks at the size of the
    grid), [_update_grid] fails on it and [start] raises IndexError when it
    draws the initial grid, with nothing printed and the game unchanged. *)
Theorem start_off_grid set_order g x y :
  refresh (properties g) <> 0 ->
  In (x, y) (PyDict.keys (cells g)) -> 0 <= x -> 0 <= y ->
  width (properties g) <= x \/ height (properties g) <= y ->
  _update_grid g (_generate_grid g) = None /\
  start set_order g = Raised (g, []) IndexError.
Proof.
  intros R I Px Py O.
  assert (E : _update_grid g (_generate_grid g) = None).
  { unfold _update_grid.
    apply (@place_cells_off g _ _ (cells g) (_generate_grid g) x y
             (generate_grid_shaped g) I).
    lia. }
  split; [exact E|]. unfold start. rewrite E.
  apply Z.eqb_neq in R. now rewrite R.
Qed.

Lemma start_off_grid_witness :
  refresh (properties game_wide) <> 0 /\
  In (30, 0) (PyDict.keys (cells game_wide)) /\
  width (properties game_wide) <= 30 /\
  start insertion_order game_wide = Raised (game_wide, []) IndexError.
Proof.
  assert (R : refresh (properties game_wide) <> 0)
    by (vm_compute; discriminate).
  assert (I : In (30, 0) (PyDict.keys (cells game_wide)))
    by (vm_compute; now left).
  assert (W : width (properties game_wide) <= 30)
    by (vm_compute; discriminate).
  split; [exact R|]. split; [exact I|]. split; [exact W|].
  refine (proj2 (@start_off_grid insertion_order game_wide 30 0 R I _ _
                   (or_introl W))); lia.
Defined.

(** ** The end of the game *)

(** The head of a list sorted by [sorted_desc] is the first element of the
    list whose key is the maximum. *)
Lemma sorted_desc_head {A} (key : A -> Z) l w rest :
  sorted_desc key l = w :: rest ->
  exists l1 l2, l = (l1 ++ w :: l2)%list /\
    (forall t, In t l1 -> key t < key w) /\
    (forall t, In t l2 -> key t <= key w).
Proof.
  revert w rest. induction l as [|x l IH]; intros w rest E; [discriminate E|].
  cbn [sorted_desc] in E.
  destruct (sorted_desc key l) as [|y s] eqn:Es.
  - assert (l = []).
    { assert (P := sorted_desc_perm key l). rewrite Es in P.
      now apply Permutation_sym, Permutation_nil in P. }
    subst l. cbn in E. injection E as <- <-.
    exists [], []. split; [reflexivity|]. split; intros t [].
  - destruct (IH y s eq_refl) as (l1 & l2 & -> & B1 & B2).
    cbn [insert_desc] in E. destruct (Z.leb_spec (key y) (key x)) as [L|L].
    + injection E as <- <-. exists [], (l1 ++ y :: l2)%list.
      split; [reflexivity|]. split; [intros t []|].
      intros t I. apply in_app_iff in I. destruct I as [I|[<-|I]].
      * specialize (B1 t I). lia.
      * exact L.
      * specialize (B2 t I). lia.
    + injection E as <- <-. exists (x :: l1), l2.
      split; [reflexivity|]. split; [|exact B2].
      intros t [<-|I]; [exact L | now apply B1].
Qed.

(** The loop is left by its condition only: the lookup of the single team
    never succeeds. *)
Lemma game_loop_done set_order n rn grid g out g' out' found rn' grid' :
  game_loop set_order n rn grid g out = Done (g', out') (found, rn', grid') ->
  found = None /\ rounds set_order n g = Some g' /\ rn' = rn + Z.of_nat n.
Proof.
  revert rn grid g out. induction n as [|n IH]; intros rn grid g out E.
  - cbn in E. injection E as <- <- <- <- <-. repeat split. lia.
  - rewrite game_loop_S in E. cbn [rounds].
    destruct (_update_cells set_order g) as [g1 []|g1 e]; [|discriminate E].
    destruct (_update_grid g1 (_generate_grid g1)) as [grid1|];
      [|discriminate E].
    cbv zeta in E. destruct (len (teams g1) =? 1); [discriminate E|].
    apply IH in E. destruct E as (F & R & N). repeat split; auto. lia.
Qed.

(** X11. When [start] returns, the round limit is reached: the final game
    is the result of exactly win-round round updates, none of which raised,
    and the winner is a team of the final registry with the highest score,
    the first registered one among the teams with that score. (The branch
    for a single remaining team never returns a winner.) *)
Theorem start_returns_at_round_limit set_order g g' out w :
  start set_order g = Done (g', out) w ->
  rounds set_order (Z.to_nat (win_round (properties g))) g = Some g' /\
  exists l1 l2,
    PyDict.values (teams g') = (l1 ++ w :: l2)%list /\
    (forall t, In t l1 -> team_score g' t < team_score g' w) /\
    (forall t, In t l2 -> team_score g' t <= team_score g' w).
Proof.
  unfold start. destruct (refresh (properties g) =? 0); [discriminate|].
  destruct (_update_grid g (_generate_grid g)) as [grid|]; [|discriminate].
  destruct (game_loop set_order (Z.to_nat (win_round (properties g))) 0 grid g
              [(0, grid)]) as [[g1 out1] [[found rn] grid1]|s e] eqn:E;
    [|discriminate].
  apply game_loop_done in E. destruct E as (-> & R & _).
  cbn [bind fst snd].
  destruct (sorted_desc (team_score g1) (PyDict.values (teams g1)))
    as [|winner rest] eqn:Es; [discriminate|].
  intros D. injection D as <- _ <-. split; [exact R|].
  eapply sorted_desc_head; eauto.
Qed.

Lemma start_returns_at_round_limit_witness :
  exists g' out,
    start insertion_order game_short = Done (g', out) 0%N /\
    rounds insertion_order 128 game_short = Some g' /\
    cells g' = [] /\
    PyDict.values (teams g') = [0%N; 1%N] /\
    team_score g' 0%N = 1 /\ team_score g' 1%N = 1.
Proof.
  destruct (start insertion_order game_short) as [[g' out] w|s e] eqn:E.
  - assert (W : w = 0%N).
    { apply (f_equal (fun o => match o with
                               | Done _ w => Some w
                               | Raised _ _ => None
                               end)) in E.
      vm_compute in E. now injection E as <-. }
    subst w. exists g', out. split; [reflexivity|].
    destruct (start_returns_at_round_limit _ _ E) as (R & _).
    change (Z.to_nat (win_round (properties game_short))) with 128%nat in R.
    split; [exact R|].
    assert (R' := R). vm_compute in R'. injection R' as <-.
    repeat split.
  - exfalso.
    apply (f_equal (fun o => match o with
                             | Done _ _ => true
                             | Raised _ _ => false
                             end)) in E.
    vm_compute in E. discriminate E.
Defined.

Lemma update_cells_empty set_order g :
  set_order_ok set_order -> cells g = [] ->
  _update_cells set_order g = Done g tt.
Proof.
  intros H C. unfold _update_cells, pass_A, pass_B. rewrite C.
  cbn [PyDict.values map for_each dead_cells]. rewrite (set_order_nil H).
  cbn [for_each game new_cells]. destruct g; cbn in *. now subst.
Qed.

Lemma game_loop_empty set_order n rn grid g out :
  set_order_ok set_order -> cells g = [] -> teams g = [] ->
  exists out' rn' grid',
    game_loop set_order n rn grid g out = Done (g, out') (None, rn', grid').
Proof.
  intros H C T. revert rn grid out.
  induction n as [|n IH]; intros rn grid out.
  - cbn. eauto.
  - rewrite game_loop_S, (@update_cells_empty set_order g H C).
    unfold _update_grid. rewrite C, T. cbn [place_cells len List.length].
    cbv zeta. cbn [Z.of_nat Z.eqb]. apply IH.
Qed.

(** X12. A game without teams has no winner: on a game with an empty store
    and an empty registry (what an empty cells file, or one with dead runs
    only, gives) [start] plays its rounds, which change nothing, and then
    raises IndexError at [highest[0]], the game being as before. *)
Theorem start_without_teams set_order g :
  set_order_ok set_order -> refresh (properties g) <> 0 ->
  cells g = [] -> teams g = [] ->
  raised (start set_order g) = Some IndexError /\
  fst (state_of (start set_order g)) = g.
Proof.
  intros H R C T.
  assert (E : exists out', start set_order g = Raised (g, out') IndexError).
  { unfold start. apply Z.eqb_neq in R. rewrite R.
    unfold _update_grid. rewrite C. cbn [place_cells].
    destruct (@game_loop_empty set_order
                (Z.to_nat (win_round (properties g))) 0 (_generate_grid g) g
                [(0, _generate_grid g)] H C T) as (out' & rn' & grid' & ->).
    cbn [bind fst snd]. rewrite T. cbn. eauto. }
  destruct E as [out' ->]. split; reflexivity.
Qed.

Lemma start_without_teams_witness :
  refresh (properties init) <> 0 /\
  raised (start insertion_order (state_of (load_game [] [line "30."] init)))
  = Some IndexError.
Proof.
  assert (R : refresh (properties init) <> 0) by (vm_compute; discriminate).
  split; [exact R|].
  change (state_of (load_game [] [line "30."] init)) with init.
  exact (proj1 (@start_without_teams insertion_order init insertion_order_ok
                  R eq_refl eq_refl)).
Defined.

(** ** The exceptions of the main loop *)

Lemma config_line_valid g l :
  props_valid (properties g) ->
  props_valid (properties (state_of (config_line g l))).
Proof.
  intros V. unfold config_line.
  destruct (split (strip l)) as [|prop [|val [|? ?]]]; try exact V.
  now apply set_property_valid.
Qed.

Lemma fold_place_properties y v xs g :
  properties (fold_left (place y v) xs g) = properties g.
Proof. apply fold_place_spec. Qed.

Lemma token_properties y amount v g x :
  properties (fst (state_of (token y amount v g x))) = properties g.
Proof.
  unfold token, str_eq_int. cbn [andb].
  destruct (String.eqb v "."); cbn [state_of fst]; [reflexivity|].
  apply fold_place_properties.
Qed.

Lemma row_properties y l amount g x :
  properties (fst (state_of (row y l amount g x))) = properties g.
Proof.
  revert amount g x. induction l as [|c l IH]; intros amount g x; cbn [row].
  - destruct amount; [reflexivity | apply token_properties].
  - destruct (char_isdigit c); [apply IH|].
    destruct amount as [|d ds]; [reflexivity|].
    assert (T := @token_properties y (int_of_digits (rev (d :: ds)))
                   (String c EmptyString) g x).
    destruct (token y _ _ g x) as [[g' x'] []|[g' x'] e];
      cbn [bind state_of fst snd] in *; [|exact T].
    now rewrite IH.
Qed.

Lemma load_cells_properties file g :
  properties (state_of (load_cells file g)) = properties g.
Proof.
  unfold load_cells. generalize 0. revert g.
  induction file as [|l file IH]; intros g y; cbn [rows]; [reflexivity|].
  assert (R := @row_properties y (chars (strip l)) [] g 0).
  destruct (row y (chars (strip l)) [] g 0) as [[g' x'] []|[g' x'] e];
    cbn [state_of fst] in *; [|exact R].
  now rewrite IH.
Qed.

Lemma loaded_props_valid config file :
  props_valid (properties (state_of (load_game config file init))).
Proof.
  assert (V : props_valid (properties (state_of (load_config config init)))).
  { unfold load_config.
    apply (for_each_invariant (fun g => props_valid (properties g))).
    - unfold props_valid. cbn. repeat split; try lia. now left.
    - intros g l V _. now apply config_line_valid. }
  unfold load_game.
  destruct (load_config config init) as [g []|g e]; cbn [state_of bind] in *;
    [|exact V].
  now rewrite load_cells_properties.
Qed.

Lemma game_loop_raises set_order n rn grid g out :
  let o := game_loop set_order n rn grid g out in
  raised o = None \/ raised o = Some KeyError \/
  raised o = Some IndexError \/ raised o = Some TypeError.
Proof.
  revert rn grid g out. induction n as [|n IH]; intros rn grid g out;
    cbv zeta; [now left|].
  rewrite game_loop_S. unfold _update_cells.
  assert (A := pass_A_raises g).
  destruct (pass_A g) as [rA []|rA e]; cbn [raised] in *.
  - destruct (pass_B_total set_order rA) as [rB ->].
    destruct (_update_grid _ _) as [grid'|]; [|now right; right; left].
    cbv zeta. destruct (len _ =? 1); [now right; right; right|].
    apply IH.
  - destruct A as [A|A]; [discriminate A|]. right; left. exact A.
Qed.

(** X13. The exceptions of a game. Whatever the two files, [start] on the
    game that [load_game] leaves on a fresh object returns or raises
    KeyError, IndexError or TypeError: it never divides by zero, since the
    refresh property stays within 1 and 60, and raises no other
    exception. *)
Theorem loaded_game_start_exceptions set_order config file :
  let o := start set_order (state_of (load_game config file init)) in
  raised o = None \/ raised o = Some KeyError \/
  raised o = Some IndexError \/ raised o = Some TypeError.
Proof.
  destruct (loaded_props_valid config file) as (_ & _ & R & _).
  set (g := state_of (load_game config file init)) in *. cbv zeta.
  unfold start. replace (refresh (properties g) =? 0) with false
    by (symmetry; apply Z.eqb_neq; lia).
  destruct (_update_grid g (_generate_grid g)) as [grid|];
    [|now right; right; left].
  assert (L := @game_loop_raises set_order
                 (Z.to_nat (win_round (properties g))) 0 grid g [(0, grid)]).
  cbv zeta in L.
  destruct (game_loop _ _ _ _ _ _) as [[g1 out1] [[found rn] grid1]|s e];
    cbn [bind raised] in *; [|exact L].
  destruct found as [winner|]; [now left|].
  destruct (sorted_desc _ _); [now right; right; left | now left].
Qed.

(** ** The files that [load_game] picks *)

Lemma split_dot_dotless l field :
  dotless l = true ->
  split_dot l field = [string_of_list_ascii (rev field ++ l)].
Proof.
  revert field. induction l as [|c l IH]; intros field D; cbn [split_dot].
  - now rewrite app_nil_r.
  - cbn in D. apply andb_true_iff in D. destruct D as [Dc D].
    apply negb_true_iff in Dc. rewrite Dc, IH by exact D.
    cbn [rev]. now rewrite <- app_assoc.
Qed.

Lemma split_dot_nonempty l field : split_dot l field <> [].
Proof.
  revert field. induction l as [|c l IH]; intros field; cbn [split_dot];
    [discriminate|].
  destruct (Ascii.eqb c "."); [discriminate | apply IH].
Qed.

Lemma last_split_dot l ext field :
  dotless ext = true ->
  last (split_dot (l ++ "."%char :: ext) field) EmptyString
  = string_of_list_ascii ext.
Proof.
  intros D. revert field. induction l as [|c l IH]; intros field.
  - cbn [app split_dot]. rewrite Ascii.eqb_refl.
    rewrite split_dot_dotless by exact D. reflexivity.
  - cbn [app split_dot]. destruct (Ascii.eqb c "."); [|apply IH].
    specialize (IH []).
    destruct (split_dot (l ++ "."%char :: ext) []) eqn:E;
      [now apply split_dot_nonempty in E | exact IH].
Qed.

Lemma of_type_cons ty f files :
  of_type ty (f :: files)
  = if String.eqb (file_type f) ty then f :: of_type ty files
    else of_type ty files.
Proof. reflexivity. Qed.

Lemma scan_config f files a b nf :
  file_type f = "config"%string ->
  scan (f :: files) ([("config"%string, a); ("cells"%string, b)], nf)
  = let st := ([("config"%string, a + 1); ("cells"%string, b)],
               PyDict.set nf "config"%string f) in
    if 1 <? a + 1 then (st, true) else scan files st.
Proof.
  intros E. cbn [scan scan_step]. rewrite E. reflexivity.
Qed.

Lemma scan_cells f files a b nf :
  file_type f = "cells"%string ->
  scan (f :: files) ([("config"%string, a); ("cells"%string, b)], nf)
  = let st := ([("config"%string, a); ("cells"%string, b + 1)],
               PyDict.set nf "cells"%string f) in
    if 1 <? b + 1 then (st, true) else scan files st.
Proof.
  intros E. cbn [scan scan_step]. rewrite E. reflexivity.
Qed.

Lemma scan_other f files a b nf :
  file_type f <> "config"%string -> file_type f <> "cells"%string ->
  scan (f :: files) ([("config"%string, a); ("cells"%string, b)], nf)
  = scan files ([("config"%string, a); ("cells"%string, b)], nf).
Proof.
  intros Nc Nd. cbn [scan scan_step]. unfold PyDict.mem.
  cbn [PyDict.get keq PyKey_string].
  apply String.eqb_neq in Nc, Nd. now rewrite Nc, Nd.
Qed.

Lemma len_cons {A} (a : A) l : len (a :: l) = 1 + len l.
Proof. unfold len. cbn [List.length]. lia. Qed.

Lemma len_nonneg {A} (l : list A) : 0 <= len l.
Proof. unfold len. lia. Qed.

Lemma len_zero {A} (l : list A) : len l <= 0 -> l = [].
Proof.
  destruct l; [reflexivity|]. rewrite len_cons.
  assert (L := len_nonneg l). lia.
Qed.

(** The counters of a scan that has seen [a] configuration files and [b]
    cells files *)
Lemma scan_spec files a b nf :
  0 <= a <= 1 -> 0 <= b <= 1 ->
  let A := a + len (of_type "config" files) in
  let B := b + len (of_type "cells" files) in
  if (A <=? 1) && (B <=? 1) then
    exists nf',
      scan files ([("config"%string, a); ("cells"%string, b)], nf)
      = (([("config"%string, A); ("cells"%string, B)], nf'), false) /\
      PyDict.get nf' "config"%string
      = match of_type "config" files with
        | [c] => Some c
        | _ => PyDict.get nf "config"%string
        end /\
      PyDict.get nf' "cells"%string
      = match of_type "cells" files with
        | [c] => Some c
        | _ => PyDict.get nf "cells"%string
        end
  else snd (scan files ([("config"%string, a); ("cells"%string, b)], nf))
       = true.
Proof.
  revert a b nf. induction files as [|f files IH]; intros a b nf Ba Bb.
  - cbv zeta. cbn [of_type filter]. change (len (@nil string)) with 0.
    rewrite !Z.add_0_r.
    replace (a <=? 1) with true by (symmetry; apply Z.leb_le; lia).
    replace (b <=? 1) with true by (symmetry; apply Z.leb_le; lia).
    cbn [andb]. exists nf. cbn [scan]. repeat split.
  - cbv zeta. rewrite !of_type_cons.
    assert (Lc := len_nonneg (of_type "config" files)).
    assert (Ld := len_nonneg (of_type "cells" files)).
    destruct (String.eqb_spec (file_type f) "config") as [Ec|Nc].
    + (* a configuration file *)
      replace (file_type f =? "cells")%string with false
        by (now rewrite Ec).
      rewrite scan_config by exact Ec. cbv zeta. rewrite len_cons.
      destruct (Z.ltb_spec 1 (a + 1)) as [Br|Br].
      * replace (a + (1 + len (of_type "config" files)) <=? 1) with false
          by (symmetry; apply Z.leb_gt; lia).
        reflexivity.
      * assert (a = 0) by lia. subst a.
        specialize (IH 1 b (PyDict.set nf "config"%string f)
                       ltac:(lia) Bb).
        cbv zeta in IH. replace (0 + 1) with 1 by lia.
        replace (0 + (1 + len (of_type "config" files)))
          with (1 + len (of_type "config" files)) by lia.
        destruct ((1 + len (of_type "config" files) <=? 1)
                  && (b + len (of_type "cells" files) <=? 1)) eqn:Ok;
          [|exact IH].
        destruct IH as (nf' & E & Gc & Gd). exists nf'.
        split; [exact E|].
        apply andb_true_iff in Ok. destruct Ok as [Ok _].
        apply Z.leb_le in Ok.
        assert (Eo : of_type "config" files = []) by (apply len_zero; lia).
        rewrite Eo in *. split.
        -- rewrite Gc. apply get_set_same.
        -- rewrite Gd. destruct (of_type "cells" files) as [|d [|]];
             try reflexivity; now apply get_set_other.
    + destruct (String.eqb_spec (file_type f) "cells") as [Ed|Nd].
      * (* a cells file *)
        rewrite scan_cells by exact Ed. cbv zeta. rewrite len_cons.
        destruct (Z.ltb_spec 1 (b + 1)) as [Br|Br].
        -- replace (b + (1 + len (of_type "cells" files)) <=? 1) with false
             by (symmetry; apply Z.leb_gt; lia).
           now rewrite andb_false_r.
        -- assert (b = 0) by lia. subst b.
           specialize (IH a 1 (PyDict.set nf "cells"%string f)
                          Ba ltac:(lia)).
           cbv zeta in IH. replace (0 + 1) with 1 by lia.
           replace (0 + (1 + len (of_type "cells" files)))
             with (1 + len (of_type "cells" files)) by lia.
           destruct ((a + len (of_type "config" files) <=? 1)
                     && (1 + len (of_type "cells" files) <=? 1)) eqn:Ok;
             [|exact IH].
           destruct IH as (nf' & E & Gc & Gd). exists nf'.
           split; [exact E|].
           apply andb_true_iff in Ok. destruct Ok as [_ Ok].
           apply Z.leb_le in Ok.
           assert (Eo : of_type "cells" files = []) by (apply len_zero; lia).
           rewrite Eo in *. split.
           ++ rewrite Gc. destruct (of_type "config" files) as [|c [|]];
                try reflexivity; now apply get_set_other.
           ++ rewrite Gd. apply get_set_same.
      * (* another file *)
        rewrite scan_other by assumption. apply (IH a b nf Ba Bb).
Qed.

(** X14. The files that [load_game] loads. The file type of a name is the
    text after its last dot, the whole name when it has none. [load_game]
    goes on to load exactly when the listing of the directory holds one
    file of type config and one file of type cells, and then it loads
    these two; in every other case, a missing file or a second file of
    either type, it raises ValueError. *)
Theorem needed_files_spec files :
  (forall base ext, dotless ext = true ->
     file_type (string_of_list_ascii (base ++ "."%char :: ext))
     = string_of_list_ascii ext) /\
  (forall name, dotless name = true ->
     file_type (string_of_list_ascii name) = string_of_list_ascii name) /\
  needed_files files
  = match of_type "config" files, of_type "cells" files with
    | [config], [cells_file] => inr (config, cells_file)
    | _, _ => inl ValueError
    end.
Proof.
  split; [|split].
  - intros base ext D. unfold file_type, chars.
    rewrite list_ascii_of_string_of_list_ascii. now apply last_split_dot.
  - intros name D. unfold file_type, chars.
    rewrite list_ascii_of_string_of_list_ascii.
    now rewrite split_dot_dotless.
  - assert (S := @scan_spec files 0 0 [] ltac:(lia) ltac:(lia)).
    cbv zeta in S. unfold needed_files.
    match type of S with
    | context [scan files ?st] => change scan_start with st
    end.
    assert (Lc := len_nonneg (of_type "config" files)).
    assert (Ld := len_nonneg (of_type "cells" files)).
    destruct ((0 + len (of_type "config" files) <=? 1)
              && (0 + len (of_type "cells" files) <=? 1)) eqn:Ok.
    + destruct S as (nf' & -> & Gc & Gd).
      apply andb_true_iff in Ok. destruct Ok as [Oc Od].
      apply Z.leb_le in Oc, Od.
      unfold sum_values. cbn [PyDict.values map snd fold_left].
      rewrite Gc, Gd.
      destruct (of_type "config" files) as [|c [|c' cs]],
               (of_type "cells" files) as [|d [|d' ds]];
        unfold len in *; cbn [List.length] in *; try lia; reflexivity.
    + destruct (scan files _) as [[reserved needed] broke].
      cbn [snd] in S. subst broke.
      apply andb_false_iff in Ok.
      destruct (of_type "config" files) as [|c [|c' cs]],
               (of_type "cells" files) as [|d [|d' ds]];
        try reflexivity;
        unfold len in Ok; cbn [List.length] in Ok;
        destruct Ok as [Ok|Ok]; apply Z.leb_gt in Ok; lia.
Qed.

Lemma needed_files_spec_witness :
  dotless (chars "config") = true /\
  file_type "game.config" = "config"%string /\
  file_type "cells" = "cells"%string /\
  needed_files ["notes.txt"; "game.config"; "cells"]%string
  = inr ("game.config", "cells")%string /\
  needed_files ["a.config"; "b.config"; "game.cells"]%string
  = inl ValueError.
Proof.
  destruct (needed_files_spec ["notes.txt"; "game.config"; "cells"]%string)
    as (F & N & E).
  destruct (needed_files_spec ["a.config"; "b.config"; "game.cells"]%string)
    as (_ & _ & E').
  split; [reflexivity|].
  split; [exact (F (chars "game") (chars "config") eq_refl)|].
  split; [exact (N (chars "cells") eq_refl)|].
  split; [exact E | exact E'].
Defined.

(** ** Decimal numerals *)

Lemma digit_char d :
  0 <= d < 10 ->
  char_isdigit (ascii_of_nat (48 + Z.to_nat d)) = true /\
  Z.of_nat (nat_of_ascii (ascii_of_nat (48 + Z.to_nat d))) - 48 = d.
Proof.
  intros B. rewrite <- (Z2Nat.id d) at 3 by lia.
  assert (L : (Z.to_nat d < 10)%nat) by lia.
  revert L. generalize (Z.to_nat d). intros n L.
  do 10 (destruct n as [|n]; [split; reflexivity|]). lia.
Qed.

Lemma decimal_digits_spec fuel n acc :
  0 <= n <= Z.of_nat fuel ->
  let ds := decimal_digits (S fuel) n acc in
  fold_left (fun m c => 10 * m + (Z.of_nat (nat_of_ascii c) - 48)) ds 0
  = fold_left (fun m c => 10 * m + (Z.of_nat (nat_of_ascii c) - 48)) acc n /\
  (forallb char_isdigit acc = true -> forallb char_isdigit ds = true) /\
  ds <> [].
Proof.
  revert n acc. induction fuel as [|fuel IH]; intros n acc B; cbv zeta;
    cbn [decimal_digits].
  - assert (n = 0) by lia. subst n. cbn [Z.ltb Z.compare].
    split; [reflexivity|]. split; [|discriminate].
    intros D. cbn [forallb]. now rewrite D.
  - assert (M := Z.mod_pos_bound n 10 ltac:(lia)).
    destruct (digit_char M) as [Dg Dv].
    destruct (Z.ltb_spec n 10) as [L|L].
    + split; [|split; [|discriminate]].
      * cbn [fold_left]. rewrite Dv, Z.mod_small by lia. reflexivity.
      * intros D. cbn [forallb]. now rewrite Dg, D.
    + assert (B' : 0 <= n / 10 <= Z.of_nat fuel).
      { split; [apply Z.div_pos; lia|].
        assert (n / 10 < n) by (apply Z.div_lt; lia). lia. }
      destruct (IH (n / 10) (ascii_of_nat (48 + Z.to_nat (n mod 10)) :: acc)
                   B') as (V & D & N).
      cbv zeta in V, D, N. cbn [decimal_digits] in V, D, N |- *.
      split; [|split; [|exact N]].
      * rewrite V. cbn [fold_left]. rewrite Dv. f_equal.
        rewrite (Z.div_mod n 10) at 3 by lia. reflexivity.
      * intros Da. apply D. cbn [forallb]. now rewrite Dg, Da.
Qed.

Lemma int_of_str n : 0 <= n -> int_of_digits (str_of_int n) = n.
Proof.
  intros N. unfold int_of_digits, str_of_int.
  now rewrite (proj1 (@decimal_digits_spec (Z.to_nat n) n [] ltac:(lia))).
Qed.

Lemma str_of_int_digits n :
  0 <= n ->
  forallb char_isdigit (str_of_int n) = true /\ str_of_int n <> [].
Proof.
  intros N. unfold str_of_int.
  destruct (@decimal_digits_spec (Z.to_nat n) n [] ltac:(lia)) as (_ & D & E).
  split; [now apply D | exact E].
Qed.

(** ** The run-length encoding of a row *)

Lemma run_well_formed n c :
  0 < n -> clean c = true ->
  well_formed (run n c) = true /\ count (run n c) = n.
Proof.
  intros N C. unfold clean in C. apply andb_true_iff in C.
  destruct C as [C1 C2].
  destruct (@str_of_int_digits n ltac:(lia)) as [D E].
  assert (Cn : count (run n c) = n) by (apply int_of_str; lia).
  split; [|exact Cn]. unfold well_formed. rewrite Cn. cbn [run digits symbol].
  rewrite C1, C2. replace (0 <? n) with true by (symmetry; apply Z.ltb_lt; lia).
  destruct (str_of_int n); [congruence|]. now rewrite D.
Qed.

Lemma repeat_snoc {A} (a : A) n : (repeat a n ++ [a])%list = a :: repeat a n.
Proof. induction n as [|n IH]; cbn; [reflexivity|]. now rewrite IH. Qed.

Lemma last_cons {A} (l : list A) a d : last (a :: l) d = last l a.
Proof.
  revert a d. induction l as [|b l IH]; intros a d; [reflexivity|].
  change (last (a :: b :: l) d) with (last (b :: l) d).
  now rewrite (IH b d), (IH b a).
Qed.

(** The loop over a row once [prev] holds a character: what is written are
    well-formed tokens, and with the run still open they stand for the
    characters read so far. *)
Lemma run_fold r : forall xs c p n,
  List.length xs = List.length r ->
  forallb clean r = true -> clean p = true -> 0 <= n ->
  exists ts c' n',
    fold_left run_step (combine xs r) (c, Some p, n)
    = (c', Some (last r p), n') /\
    0 <= n' /\
    forallb well_formed ts = true /\
    (expand ts ++ repeat (last r p) (Z.to_nat (n' + 1))
     = repeat p (Z.to_nat (n + 1)) ++ r)%list /\
    cells_lines c' = cells_lines c /\
    pending c' = (pending c ++ flat_map token_text ts)%list /\
    config_lines c' = config_lines c /\
    local_y c' = local_y c /\
    local_char c' = match r with
                    | [] => local_char c
                    | _ => Some (last r p)
                    end /\
    local_x c' = match r with
                 | [] => local_x c
                 | _ => Some (last xs 0)
                 end.
Proof.
  induction r as [|c1 r IH]; intros xs c p n L Cr Cp N.
  - destruct xs; [|discriminate L]. exists [], c, n. cbn.
    rewrite !app_nil_r. repeat split. exact N.
  - destruct xs as [|x xs]; [discriminate L|]. injection L as L.
    cbn in Cr. apply andb_true_iff in Cr. destruct Cr as [C1 Cr].
    cbn [combine fold_left run_step].
    set (c0 := mkConvertor (cells_lines c) (pending c) (config_lines c)
                           (Some x) (local_y c) (Some c1)).
    assert (Lx : forall d, last (x :: xs) d
                           = match r with [] => x | _ => last xs d end).
    { intros d. destruct xs, r; try discriminate L; reflexivity. }
    assert (Lr := last_cons r c1).
    rewrite Lr. destruct (Ascii.eqb_spec c1 p) as [->|ne].
    + destruct (IH xs c0 p (n + 1) L Cr Cp ltac:(lia))
        as (ts & c' & n' & E & N' & W & X & F1 & F2 & F3 & F4 & F5 & F6).
      exists ts, c', n'. rewrite E. split; [reflexivity|].
      split; [exact N'|]. split; [exact W|]. split.
      { rewrite X. replace (Z.to_nat (n + 1 + 1)) with (S (Z.to_nat (n + 1)))
          by lia.
        change (repeat p (S (Z.to_nat (n + 1))))
          with (p :: repeat p (Z.to_nat (n + 1))).
        rewrite <- repeat_snoc, <- app_assoc. reflexivity. }
      split; [exact F1|]. split; [exact F2|]. split; [exact F3|].
      split; [exact F4|]. split.
      * rewrite F5. destruct r; reflexivity.
      * rewrite F6, Lx. destruct r; reflexivity.
    + destruct (@run_well_formed (n + 1) p ltac:(lia) Cp) as [Wt Ct].
      destruct (IH xs (write c0 (str_of_int (n + 1) ++ [p])) c1 0 L Cr C1
                   ltac:(lia))
        as (ts & c' & n' & E & N' & W & X & F1 & F2 & F3 & F4 & F5 & F6).
      exists (run (n + 1) p :: ts), c', n'. rewrite E.
      split; [reflexivity|]. split; [exact N'|].
      split; [cbn [forallb]; now rewrite Wt, W|]. split.
      { unfold expand in *. cbn [flat_map]. rewrite Ct, <- app_assoc, X.
        reflexivity. }
      split; [exact F1|]. split.
      { rewrite F2.
        cbn [write pending c0 flat_map token_text run digits symbol].
        unfold token_text. cbn [run digits symbol].
        now rewrite <- !app_assoc. }
      split; [exact F3|]. split; [exact F4|]. split.
      * rewrite F5. destruct r; reflexivity.
      * rewrite F6, Lx. destruct r; reflexivity.
Qed.

Lemma strip_line_chars l c l1 c' l2 :
  l = c :: l1 -> char_isspace c = false ->
  rev l = c' :: l2 -> char_isspace c' = false ->
  chars (strip (line (string_of_list_ascii l))) = l.
Proof.
  intros E1 S1 E2 S2. unfold strip, line. rewrite chars_append. unfold chars.
  rewrite !list_ascii_of_string_of_list_ascii. cbn [list_ascii_of_string].
  rewrite E1. cbn [app]. rewrite lstrip_keep by exact S1.
  change (c :: (l1 ++ [ascii_of_nat 10]))%list
    with ((c :: l1) ++ [ascii_of_nat 10])%list.
  rewrite <- E1, rev_app_distr. cbn [rev app]. cbn [lstrip].
  replace (char_isspace (ascii_of_nat 10)) with true by reflexivity.
  rewrite E2, lstrip_keep by exact S2. rewrite <- E2. apply rev_involutive.
Qed.

Lemma clean_not_space c : clean c = true -> char_isspace c = false.
Proof.
  unfold clean. intros C. apply andb_true_iff in C.
  now apply negb_true_iff, C.
Qed.

Lemma strip_grid_line r :
  r <> [] -> forallb clean r = true -> chars (strip (grid_line r)) = r.
Proof.
  intros N C. destruct r as [|c l1] eqn:E; [congruence|]. rewrite <- E in *.
  destruct (rev r) as [|c' l2] eqn:R.
  { apply (f_equal (@rev ascii)) in R. rewrite rev_involutive in R.
    cbn in R. congruence. }
  assert (F := proj1 (forallb_forall clean r) C).
  apply (@strip_line_chars r c l1 c' l2 E); [|exact R|].
  - apply clean_not_space, F. rewrite E. now left.
  - apply clean_not_space, F. apply in_rev. rewrite R. now left.
Qed.

Lemma last_py_range_nonempty lo hi d :
  lo < hi -> last (py_range lo hi) d = hi - 1.
Proof.
  intros L. unfold py_range.
  destruct (Z.to_nat (hi - lo)) as [|k] eqn:E; [lia|].
  rewrite seq_S, map_app. cbn [map]. rewrite last_last. lia.
Qed.

Lemma length_py_range lo hi : List.length (py_range lo hi) = Z.to_nat (hi - lo).
Proof. unfold py_range. now rewrite length_map, length_seq. Qed.

Lemma last_In {A} (l : list A) d : l <> [] -> In (last l d) l.
Proof.
  induction l as [|a l IH]; [congruence|]. intros _.
  destruct l as [|b l]; [now left|]. right. apply IH. discriminate.
Qed.

(** One row of the grid: the line that [convert] writes for it *)
Lemma convert_row_clean r c :
  r <> [] -> forallb clean r = true -> pending c = [] ->
  exists ts c' n',
    fold_left run_step (enumerate r) (c, None, 0)
    = (c', Some (last r " "%char), n') /\
    local_char c' = Some (last r " "%char) /\
    forallb well_formed ts = true /\ expand ts = r /\
    write_line c' (str_of_int (n' + 1) ++ [last r " "%char])
    = mkConvertor (cells_lines c ++ [line (row_text ts)]) [] (config_lines c)
                  (Some (len r - 1)) (local_y c) (Some (last r " "%char)).
Proof.
  intros N C P. destruct r as [|c1 r]; [congruence|]. clear N.
  cbn in C. apply andb_true_iff in C. destruct C as [C1 C].
  unfold enumerate. rewrite len_cons.
  assert (Lr := len_nonneg r).
  rewrite py_range_cons by lia. cbn [combine fold_left run_step].
  set (c0 := mkConvertor (cells_lines c) (pending c) (config_lines c)
                         (Some 0) (local_y c) (Some c1)).
  destruct (@run_fold r (py_range (0 + 1) (1 + len r)) c0 c1 0)
    as (ts & c' & n' & E & N' & W & X & F1 & F2 & F3 & F4 & F5 & F6);
    [rewrite length_py_range; unfold len; lia | exact C | exact C1 | lia |].
  rewrite last_cons.
  destruct (@run_well_formed (n' + 1) (last r c1) ltac:(lia)) as [Wt Ct].
  { destruct r as [|a r']; [exact C1|].
    apply (proj1 (forallb_forall clean (a :: r')) C).
    apply last_In. discriminate. }
  exists (ts ++ [run (n' + 1) (last r c1)])%list, c', n'.
  split; [exact E|]. split.
  { rewrite F5. destruct r; reflexivity. }
  split; [rewrite forallb_app, W; cbn [forallb]; now rewrite Wt|].
  split.
  { unfold expand in *. rewrite flat_map_app. cbn [flat_map].
    rewrite Ct. cbn [run symbol]. rewrite app_nil_r, X. reflexivity. }
  unfold write_line. rewrite F1, F2, F3, F4, F5, F6. cbn [c0 cells_lines
    pending config_lines local_y local_x local_char]. rewrite P. cbn [app].
  unfold row_text. rewrite flat_map_app. cbn [flat_map]. rewrite app_nil_r.
  unfold token_text at 2. cbn [run digits symbol].
  f_equal.
  - destruct r as [|a r']; [reflexivity|].
    assert (L' := len_nonneg r').
    rewrite last_py_range_nonempty by (rewrite len_cons; lia).
    rewrite !len_cons. f_equal; lia.
  - destruct r; reflexivity.
Qed.

Lemma grid_line_not_empty r : String.eqb (grid_line r) "" = false.
Proof.
  unfold grid_line, line. now destruct (string_of_list_ascii r).
Qed.

(** The rows of the grid: the lines that [convert] writes for them *)
Lemma convert_rows_clean rs : forall ys c,
  List.length ys = List.length rs ->
  (forall r, In r rs -> r <> [] /\ forallb clean r = true) ->
  pending c = [] ->
  exists file c',
    convert_rows (combine ys (map grid_line rs)) c = (c', None) /\
    forallb (forallb well_formed) file = true /\ map expand file = rs /\
    cells_lines c'
    = (cells_lines c ++ map (fun ts => line (row_text ts)) file)%list /\
    pending c' = [] /\ config_lines c' = config_lines c /\
    local_y c' = match rs with [] => local_y c | _ => Some (last ys 0) end /\
    local_x c' = match rs with
                 | [] => local_x c
                 | _ => Some (len (last rs []) - 1)
                 end.
Proof.
  induction rs as [|r rs IH]; intros ys c L C P.
  - destruct ys; [|discriminate L]. exists [], c. cbn.
    rewrite app_nil_r. repeat split. exact P.
  - destruct ys as [|y ys]; [discriminate L|]. injection L as L.
    destruct (C r (or_introl eq_refl)) as [Nr Cr].
    cbn [map combine convert_rows]. rewrite grid_line_not_empty.
    rewrite strip_grid_line by assumption.
    set (cy := mkConvertor (cells_lines c) (pending c) (config_lines c)
                           (local_x c) (Some y) (local_char c)).
    destruct (@convert_row_clean r cy Nr Cr P)
      as (ts & c1 & n1 & E & Ch & W & X & Wl).
    rewrite E, Ch, Wl.
    destruct (IH ys (mkConvertor (cells_lines cy ++ [line (row_text ts)]) []
                       (config_lines cy) (Some (len r - 1)) (local_y cy)
                       (Some (last r " "%char))) L)
      as (file & c' & E' & W' & X' & F1 & F2 & F3 & F4 & F5);
      [intros r' I; apply C; now right | reflexivity |].
    exists (ts :: file), c'. split; [exact E'|].
    split; [cbn [forallb]; now rewrite W, W'|].
    split; [cbn [map]; now rewrite X, X'|].
    split; [rewrite F1; cbn [cells_lines cy map]; now rewrite <- app_assoc|].
    split; [exact F2|]. split; [exact F3|]. split.
    + rewrite F4. cbn [local_y cy]. destruct rs, ys; try discriminate L;
        reflexivity.
    + rewrite F5. cbn [local_x]. destruct rs; reflexivity.
Qed.

(** The two files that [convert] writes for a grid of clean rows *)
Lemma convert_clean file rows listing :
  endswith file ".grid" = true ->
  filter (fun f => endswith f ".config") listing = [] ->
  rows <> [] ->
  (forall r, In r rows -> r <> [] /\ forallb clean r = true) ->
  exists cells_file c,
    convert file (map grid_line rows) listing = (c, None) /\
    forallb (forallb well_formed) cells_file = true /\
    map expand cells_file = rows /\
    cells_lines c = map (fun ts => line (row_text ts)) cells_file /\
    config_lines c
    = [line (string_of_list_ascii
               (chars "height:" ++ str_of_int (len rows)));
       line (string_of_list_ascii
               (chars "width:" ++ str_of_int (len (last rows []))))].
Proof.
  intros G Lst N C. unfold convert. rewrite G, Lst. cbn [negb].
  unfold enumerate. rewrite len_map.
  destruct (@convert_rows_clean rows (py_range 0 (len rows))
              (mkConvertor [] [] [] None None None))
    as (cf & c' & E & W & X & F1 & F2 & F3 & F4 & F5);
    [rewrite length_py_range; unfold len; lia | exact C | reflexivity |].
  rewrite E. change (0 <? len (@nil string)) with false. cbv iota.
  destruct rows as [|r0 rows0] eqn:Er; [congruence|]. rewrite <- Er in *.
  assert (Ln : 0 < len rows).
  { rewrite Er, len_cons. assert (H := len_nonneg rows0). lia. }
  rewrite F4. cbv iota.
  rewrite last_py_range_nonempty by lia.
  cbn [write_config local_x]. rewrite F5.
  eexists cf, _. split; [reflexivity|]. split; [exact W|].
  split; [exact X|]. cbn [write_config cells_lines config_lines].
  rewrite F1, F3.
  split; [reflexivity|]. cbn [app].
  replace (len rows - 1 + 1) with (len rows) by lia.
  replace (len (last rows []) - 1 + 1) with (len (last rows [])) by lia.
  reflexivity.
Qed.

(** ** The picture that [load_cells] builds *)

Lemma pic_snoc_char done cs s p :
  pic (done ++ [cs ++ [s]]) p
  = if pos_eqb p (len cs, len done) then String s EmptyString
    else pic (done ++ [cs]) p.
Proof.
  destruct p as [x y]. unfold pic, pos_eqb, len. cbn [fst snd].
  destruct (Z.leb_spec 0 x), (Z.leb_spec 0 y); cbn [andb];
    try (replace ((x =? _) && (y =? _)) with false
           by (symmetry; apply andb_false_iff;
               rewrite !Z.eqb_neq; lia); reflexivity).
  destruct (Nat.lt_trichotomy (Z.to_nat y) (List.length done)) as [L|[L|L]].
  - rewrite !nth_error_app1 by exact L.
    replace (y =? Z.of_nat (List.length done)) with false
      by (symmetry; apply Z.eqb_neq; lia).
    now rewrite andb_false_r.
  - rewrite !nth_error_app2 by lia.
    replace (Z.to_nat y - List.length done)%nat with O by lia.
    cbn [nth_error].
    replace (y =? Z.of_nat (List.length done)) with true
      by (symmetry; apply Z.eqb_eq; lia).
    rewrite andb_true_r.
    destruct (Nat.lt_trichotomy (Z.to_nat x) (List.length cs)) as [M|[M|M]].
    + rewrite nth_error_app1 by exact M.
      replace (x =? Z.of_nat (List.length cs)) with false
        by (symmetry; apply Z.eqb_neq; lia).
      reflexivity.
    + rewrite nth_error_app2 by lia.
      replace (Z.to_nat x - List.length cs)%nat with O by lia.
      cbn [nth_error].
      replace (x =? Z.of_nat (List.length cs)) with true
        by (symmetry; apply Z.eqb_eq; lia).
      reflexivity.
    + replace (x =? Z.of_nat (List.length cs)) with false
        by (symmetry; apply Z.eqb_neq; lia).
      replace (nth_error (cs ++ [s]) (Z.to_nat x)) with (@None ascii)
        by (symmetry; apply nth_error_None; rewrite length_app;
            cbn [List.length]; lia).
      replace (nth_error cs (Z.to_nat x)) with (@None ascii)
        by (symmetry; apply nth_error_None; lia).
      reflexivity.
  - replace (y =? Z.of_nat (List.length done)) with false
      by (symmetry; apply Z.eqb_neq; lia).
    rewrite andb_false_r.
    replace (nth_error (done ++ [cs ++ [s]]) (Z.to_nat y))
      with (@None (list ascii))
      by (symmetry; apply nth_error_None; rewrite length_app;
          cbn [List.length]; lia).
    replace (nth_error (done ++ [cs]) (Z.to_nat y)) with (@None (list ascii))
      by (symmetry; apply nth_error_None; rewrite length_app;
          cbn [List.length]; lia).
    reflexivity.
Qed.

Lemma pic_beyond done cs :
  pic (done ++ [cs]) (len cs, len done) = "."%string.
Proof.
  unfold pic, len. cbn [fst snd].
  destruct (nth_error (done ++ [cs]) _) as [r|] eqn:E;
    [|now destruct (_ && _)].
  rewrite nth_error_app2, Nat2Z.id, Nat.sub_diag in E by lia.
  injection E as <-. rewrite Nat2Z.id.
  replace (nth_error cs (List.length cs)) with (@None ascii)
    by (symmetry; apply nth_error_None; lia).
  now destruct (_ && _).
Qed.

Lemma pic_snoc_dead done cs p :
  pic (done ++ [cs ++ ["."%char]]) p = pic (done ++ [cs]) p.
Proof.
  rewrite pic_snoc_char. destruct (pos_eqb_spec p (len cs, len done)) as [->|];
    [|reflexivity].
  now rewrite pic_beyond.
Qed.

Lemma pic_snoc_nil done p : pic (done ++ [[]]) p = pic done p.
Proof.
  unfold pic. destruct (_ && _); [|reflexivity].
  destruct (Nat.lt_trichotomy (Z.to_nat (snd p)) (List.length done))
    as [L|[L|L]].
  - now rewrite nth_error_app1 by exact L.
  - rewrite nth_error_app2 by lia.
    replace (Z.to_nat (snd p) - List.length done)%nat with O by lia.
    cbn [nth_error].
    replace (nth_error done (Z.to_nat (snd p))) with (@None (list ascii))
      by (symmetry; apply nth_error_None; lia).
    now destruct (Z.to_nat (fst p)).
  - replace (nth_error (done ++ [[]]) (Z.to_nat (snd p)))
      with (@None (list ascii))
      by (symmetry; apply nth_error_None; rewrite length_app;
          cbn [List.length]; lia).
    replace (nth_error done (Z.to_nat (snd p))) with (@None (list ascii))
      by (symmetry; apply nth_error_None; lia).
    reflexivity.
Qed.

(** A new cell shows the symbol of its team, and changes nothing else. *)
Lemma place_shown y v g x p :
  sound g ->
  shown (place y v g x) p = if pos_eqb p (x, y) then v else shown g p.
Proof.
  intros Sg. assert (Sp := @sound_place y v g x Sg). unfold place in *.
  set (g0 := if negb (PyDict.mem (teams g) v) then new_team g v else g) in *.
  assert (S0 : sound g0).
  { unfold g0. destruct (PyDict.mem (teams g) v) eqn:M; cbn [negb];
      [exact Sg | now apply sound_new_team]. }
  assert (C0 : cells g0 = cells g) by (unfold g0; now destruct (negb _)).
  assert (V0 : forall c, In c (PyDict.values (cells g)) ->
                         team_view g0 (cell_team c)
                         = team_view g (cell_team c)).
  { intros c I. unfold g0. destruct (negb _); [|reflexivity].
    cbn [new_team team_view].
    apply (@cell_team_registered g c Sg) in I.
    replace (N.eqb (cell_team c) (next_uuid g)) with false
      by (symmetry; apply N.eqb_neq; lia).
    reflexivity. }
  assert (G0 : exists team, PyDict.get (teams g0) v = Some team).
  { unfold g0, PyDict.mem. destruct (PyDict.get (teams g) v) as [team|] eqn:G;
      cbn [negb]; [eauto|].
    exists (next_uuid g). cbn [new_team teams]. apply get_set_same. }
  destruct G0 as [team G0]. clearbody g0. rewrite G0 in *.
  unfold shown. cbn [with_score with_cells cells team_view].
  destruct (pos_eqb_spec p (x, y)) as [->|ne].
  - rewrite get_set_same. cbn [cell_team].
    destruct S0 as (_ & (_ & RV & _) & _). apply RV. now apply get_In.
  - rewrite get_set_other by exact ne. rewrite C0.
    destruct (PyDict.get (cells g) p) as [c|] eqn:Gc; [|reflexivity].
    apply V0. eapply keys_values_In. eapply get_In. exact Gc.
Qed.

Lemma paints_ext g rows rows' :
  paints g rows -> (forall p, pic rows' p = pic rows p) -> paints g rows'.
Proof. intros [S P] E. split; [exact S|]. intros p. now rewrite E. Qed.

Lemma fold_place_paints y s k : forall x g done cs,
  paints g (done ++ [cs]) -> len cs = x -> len done = y ->
  paints (fold_left (place y (String s EmptyString))
                    (py_range x (x + Z.of_nat k)) g)
         (done ++ [cs ++ repeat s k]).
Proof.
  induction k as [|k IH]; intros x g done cs P Lx Ly.
  - rewrite py_range_nil by lia. cbn [fold_left repeat].
    now rewrite app_nil_r.
  - rewrite py_range_cons by lia. cbn [fold_left repeat].
    replace (x + Z.of_nat (S k)) with ((x + 1) + Z.of_nat k) by lia.
    replace (cs ++ s :: repeat s k)%list with ((cs ++ [s]) ++ repeat s k)%list
      by now rewrite <- app_assoc.
    apply IH; [|rewrite <- Lx; unfold len; rewrite length_app;
                cbn [List.length]; lia | exact Ly].
    destruct P as [S P]. split; [now apply sound_place|].
    intros p. rewrite place_shown by exact S.
    rewrite pic_snoc_char, Lx, Ly.
    destruct (pos_eqb p (x, y)); [reflexivity | apply P].
Qed.

Lemma pic_snoc_dead_run done cs k p :
  pic (done ++ [cs ++ repeat "."%char k]) p = pic (done ++ [cs]) p.
Proof.
  revert cs. induction k as [|k IH]; intros cs; cbn [repeat].
  - now rewrite app_nil_r.
  - replace (cs ++ "."%char :: repeat "."%char k)%list
      with ((cs ++ ["."%char]) ++ repeat "."%char k)%list
      by now rewrite <- app_assoc.
    now rewrite IH, pic_snoc_dead.
Qed.

Lemma token_paints y t g done cs :
  well_formed t = true ->
  paints g (done ++ [cs]) -> len done = y ->
  exists g',
    token y (count t) (String (symbol t) EmptyString) g (len cs)
    = Done (g', len (cs ++ repeat (symbol t) (Z.to_nat (count t)))) tt /\
    paints g' (done ++ [cs ++ repeat (symbol t) (Z.to_nat (count t))]).
Proof.
  intros W P Ly. apply well_formed_digits in W.
  destruct W as (_ & _ & _ & _ & C).
  assert (Ln : len (cs ++ repeat (symbol t) (Z.to_nat (count t)))
               = len cs + count t).
  { unfold len. rewrite length_app, repeat_length. lia. }
  rewrite Ln. unfold token, str_eq_int. cbn [andb String.eqb].
  destruct (Ascii.eqb_spec (symbol t) ".") as [e|ne].
  - exists g. split; [reflexivity|]. rewrite e.
    eapply paints_ext; [exact P|]. intros p. apply pic_snoc_dead_run.
  - cbn [andb]. eexists. split.
    + rewrite last_py_range by exact C. reflexivity.
    + rewrite <- (Z2Nat.id (count t)) at 1 by lia.
      now apply fold_place_paints.
Qed.

Lemma row_paints y ts : forall g done cs,
  forallb well_formed ts = true ->
  paints g (done ++ [cs]) -> len done = y ->
  exists g',
    row y (flat_map token_text ts) [] g (len cs)
    = Done (g', len (cs ++ expand ts)) tt /\
    paints g' (done ++ [cs ++ expand ts]).
Proof.
  induction ts as [|t ts IH]; intros g done cs W P Ly.
  - exists g. cbn. now rewrite app_nil_r.
  - cbn in W. apply andb_true_iff in W. destruct W as [Wt W].
    cbn [flat_map]. rewrite row_token by exact Wt.
    destruct (@token_paints y t g done cs Wt P Ly) as (g1 & -> & P1).
    cbn [bind fst snd].
    destruct (IH g1 done _ W P1 Ly) as (g2 & E & P2).
    exists g2. unfold expand in *. cbn [flat_map].
    rewrite app_assoc. now split.
Qed.

Lemma rows_paints (file : list (list Token)) : forall y g done,
  forallb (forallb well_formed) file = true ->
  paints g done -> len done = y ->
  exists g',
    rows y (map (fun ts => line (row_text ts)) file) g = Done g' tt /\
    paints g' (done ++ map expand file).
Proof.
  induction file as [|ts file IH]; intros y g done W P Ly.
  - exists g. cbn. now rewrite app_nil_r.
  - cbn in W. apply andb_true_iff in W. destruct W as [Wt W].
    cbn [map rows]. rewrite strip_row_text by exact Wt.
    destruct (@row_paints y ts g done [] Wt) as (g1 & E & P1);
      [eapply paints_ext; [exact P | apply pic_snoc_nil] | exact Ly |].
    change (len (@nil ascii)) with 0 in E. rewrite E. cbn [fst app] in *.
    destruct (IH (y + 1) g1 (done ++ [expand ts])%list W P1) as (g2 & E2 & P2).
    { unfold len in *. rewrite length_app. cbn [List.length]. lia. }
    exists g2. split; [exact E2|]. now rewrite <- app_assoc in P2.
Qed.

(** ** The configuration that [convert] writes *)

Lemma split_colon_plain l field :
  forallb (fun c => negb (Ascii.eqb c ":")) l = true ->
  split_colon l field = [string_of_list_ascii (rev field ++ l)].
Proof.
  revert field. induction l as [|c l IH]; intros field D; cbn [split_colon].
  - now rewrite app_nil_r.
  - cbn in D. apply andb_true_iff in D. destruct D as [Dc D].
    apply negb_true_iff in Dc. rewrite Dc, IH by exact D.
    cbn [rev]. now rewrite <- app_assoc.
Qed.

Lemma split_colon_field l rest field :
  forallb (fun c => negb (Ascii.eqb c ":")) l = true ->
  split_colon (l ++ ":"%char :: rest) field
  = string_of_list_ascii (rev field ++ l) :: split_colon rest [].
Proof.
  revert field. induction l as [|c l IH]; intros field D; cbn [app split_colon].
  - now rewrite app_nil_r.
  - cbn in D. apply andb_true_iff in D. destruct D as [Dc D].
    apply negb_true_iff in Dc. rewrite Dc, IH by exact D.
    cbn [rev]. now rewrite <- app_assoc.
Qed.

Lemma digit_not_colon c :
  char_isdigit c = true -> negb (Ascii.eqb c ":") = true.
Proof.
  intros D. apply negb_true_iff, Ascii.eqb_neq. intros ->. discriminate D.
Qed.

(** A line [name:number] of a configuration file sets the property when the
    number is within the bounds of its validator. *)
Lemma config_number prop lo hi n g :
  validations prop = Some (Between lo hi) -> lo <= n <= hi -> 0 <= n ->
  chars prop <> [] ->
  forallb (fun c => negb (Ascii.eqb c ":") && negb (char_isspace c))
          (chars prop) = true ->
  config_line g (line (string_of_list_ascii
                         (chars prop ++ ":"%char :: str_of_int n)))
  = Done (with_properties g (store (properties g) prop (PyInt n))) tt.
Proof.
  intros V B N Ne Cp.
  destruct (str_of_int_digits N) as [D Nd].
  set (ds := str_of_int n) in *.
  assert (Cp' := proj1 (forallb_forall _ _) Cp).
  assert (D' := proj1 (forallb_forall _ _) D).
  assert (St : chars (strip (line (string_of_list_ascii
                                     (chars prop ++ ":"%char :: ds))))
               = (chars prop ++ ":"%char :: ds)%list).
  { destruct (chars prop) as [|c l1] eqn:Ec; [now elim Ne|].
    destruct (rev ds) as [|c' l2] eqn:Er.
    { apply (f_equal (@rev ascii)) in Er. rewrite rev_involutive in Er.
      now elim Nd. }
    apply (@strip_line_chars _ c (l1 ++ ":"%char :: ds) c'
             (l2 ++ ":"%char :: rev (c :: l1))).
    - reflexivity.
    - specialize (Cp' c (or_introl eq_refl)).
      apply andb_true_iff in Cp'. now apply negb_true_iff, Cp'.
    - change (c :: l1 ++ ":"%char :: ds)%list
        with ((c :: l1) ++ ":"%char :: ds)%list.
      rewrite rev_app_distr. cbn [rev]. rewrite Er.
      now rewrite <- !app_assoc.
    - apply digit_not_space, D'. apply in_rev. rewrite Er. now left. }
  unfold config_line, split. rewrite St.
  rewrite split_colon_field, split_colon_plain.
  2:{ apply forallb_forall. intros c I. now apply digit_not_colon, D'. }
  2:{ apply forallb_forall. intros c I. specialize (Cp' c I).
      apply andb_true_iff in Cp'. apply Cp'. }
  cbn [rev app]. unfold chars at 1. rewrite string_of_list_ascii_of_string.
  unfold set_property, is_property, _validate. rewrite V. cbn [negb].
  unfold isdigit, chars. rewrite list_ascii_of_string_of_list_ascii.
  destruct ds as [|d ds'] eqn:Eds; [congruence|]. rewrite <- Eds in *.
  rewrite D. unfold ds. rewrite int_of_str by exact N. unfold between.
  replace (lo <=? n) with true by (symmetry; apply Z.leb_le; lia).
  replace (n <=? hi) with true by (symmetry; apply Z.leb_le; lia).
  reflexivity.
Qed.

(** The configuration file of [convert] sets the height and the width. *)
Lemma load_converted_config H W :
  10 <= H <= 50 -> 10 <= W <= 100 ->
  load_config
    [line (string_of_list_ascii (chars "height:" ++ str_of_int H));
     line (string_of_list_ascii (chars "width:" ++ str_of_int W))] init
  = Done (with_properties init
            (mkProperties W H 4 4 512 3 "true")) tt.
Proof.
  intros BH BW. unfold load_config. cbn [for_each].
  change (chars "height:" ++ str_of_int H)%list
    with (chars "height" ++ ":"%char :: str_of_int H)%list.
  change (chars "width:" ++ str_of_int W)%list
    with (chars "width" ++ ":"%char :: str_of_int W)%list.
  rewrite (@config_number "height" 10 50 H init eq_refl BH ltac:(lia));
    [|discriminate | reflexivity].
  cbn [bind].
  rewrite (@config_number "width" 10 100 W _ eq_refl BW ltac:(lia));
    [|discriminate | reflexivity].
  reflexivity.
Qed.

(** ** From the grid file to the first picture *)

Lemma in_py_range x lo hi : In x (py_range lo hi) <-> lo <= x < hi.
Proof.
  unfold py_range. rewrite in_map_iff. split.
  - intros (i & <- & I). apply in_seq in I. lia.
  - intros B. exists (Z.to_nat (x - lo)). split; [lia|].
    apply in_seq. lia.
Qed.

Lemma row_width_expand ts :
  forallb well_formed ts = true -> row_width ts = len (expand ts).
Proof.
  induction ts as [|t ts IH]; intros W; [reflexivity|].
  cbn in W. apply andb_true_iff in W. destruct W as [Wt W].
  apply well_formed_digits in Wt. destruct Wt as (_ & _ & _ & _ & C).
  unfold row_width, expand in *. cbn [fold_right flat_map].
  rewrite IH by exact W. unfold len. rewrite length_app, repeat_length. lia.
Qed.

Lemma covered_bounds ts : forall x0 x,
  forallb well_formed ts = true -> In x (covered x0 ts) ->
  x0 <= x < x0 + row_width ts.
Proof.
  induction ts as [|t ts IH]; intros x0 x W I; [destruct I|].
  cbn in W. apply andb_true_iff in W. destruct W as [Wt W].
  assert (R := @row_width_expand ts W).
  assert (L := len_nonneg (expand ts)).
  apply well_formed_digits in Wt. destruct Wt as (_ & _ & _ & _ & C).
  cbn [covered] in I. unfold row_width in *. cbn [fold_right].
  apply in_app_iff in I. destruct I as [I|I].
  - destruct (Ascii.eqb (symbol t) "."); [destruct I|].
    apply in_py_range in I. lia.
  - specialize (IH _ _ W I). lia.
Qed.

Lemma covered_file_bounds W file : forall y p,
  forallb (forallb well_formed) file = true ->
  (forall ts, In ts file -> row_width ts = W) ->
  In p (covered_file y file) ->
  0 <= fst p < W /\ y <= snd p < y + len file.
Proof.
  induction file as [|ts file IH]; intros y p Wf Rw I; [destruct I|].
  cbn in Wf. apply andb_true_iff in Wf. destruct Wf as [Wt Wf].
  cbn [covered_file] in I. rewrite len_cons.
  assert (L := len_nonneg file).
  apply in_app_iff in I. destruct I as [I|I].
  - apply in_map_iff in I. destruct I as (x & <- & I).
    apply (@covered_bounds ts 0 x Wt) in I. cbn [fst snd].
    rewrite (Rw ts (or_introl eq_refl)) in I. lia.
  - destruct (IH (y + 1) p Wf) as [Bx By]; [|exact I|lia].
    intros ts' J. apply Rw. now right.
Qed.

Lemma grid_ext w h (grid grid' : Grid) :
  shaped w h grid -> shaped w h grid' ->
  (forall x y, 0 <= x < w -> 0 <= y < h ->
               grid_at grid x y = grid_at grid' x y) ->
  grid = grid'.
Proof.
  intros [H W] [H' W'] E. apply nth_error_ext. intros j.
  destruct (nth_error grid j) as [l|] eqn:Ej.
  - assert (Lj : (j < List.length grid)%nat)
      by (apply nth_error_Some; congruence).
    destruct (nth_error grid' j) as [l'|] eqn:Ej'.
    2:{ apply nth_error_None in Ej'. unfold len in *. lia. }
    f_equal. apply nth_error_ext. intros i.
    assert (Wl : len l = w) by (apply W; eapply nth_error_In; eauto).
    assert (Wl' : len l' = w) by (apply W'; eapply nth_error_In; eauto).
    destruct (Nat.lt_ge_cases i (List.length l)) as [Li|Li].
    + specialize (E (Z.of_nat i) (Z.of_nat j)). unfold grid_at in E.
      rewrite !Nat2Z.id, Ej, Ej' in E. apply E; unfold len in *; lia.
    + replace (nth_error l i) with (@None string)
        by (symmetry; now apply nth_error_None).
      symmetry. apply nth_error_None. unfold len in *. lia.
  - apply nth_error_None in Ej. symmetry. apply nth_error_None.
    unfold len in *. lia.
Qed.

Lemma pic_grid_at rows x y :
  0 <= x -> 0 <= y ->
  (exists r, nth_error rows (Z.to_nat y) = Some r /\
             (Z.to_nat x < List.length r)%nat) ->
  grid_at (map (map (fun a => String a EmptyString)) rows) x y
  = Some (pic rows (x, y)).
Proof.
  intros Px Py (r & Er & Lx). unfold grid_at, pic. cbn [fst snd].
  replace (0 <=? x) with true by (symmetry; apply Z.leb_le; lia).
  replace (0 <=? y) with true by (symmetry; apply Z.leb_le; lia).
  cbn [andb]. rewrite nth_error_map, Er. cbn [option_map].
  rewrite nth_error_map.
  destruct (nth_error r (Z.to_nat x)) as [a|] eqn:Ea; [reflexivity|].
  apply nth_error_None in Ea. lia.
Qed.

(** X15. From the grid file to the first picture. Take a grid of 10 to 50
    rows, all of the same width between 10 and 100, whose characters are
    neither digits nor white space. [convert] returns and writes a cells
    file and a configuration file; [load_game] on a fresh object accepts
    the two, with the width and the height of the grid as properties; and
    the grid that [start] would draw first, [_update_grid] on
    [_generate_grid], is the grid of the file, character by character. *)
Theorem convert_load_draw file rows listing W :
  endswith file ".grid" = true ->
  filter (fun f => endswith f ".config") listing = [] ->
  10 <= len rows <= 50 -> 10 <= W <= 100 ->
  (forall r, In r rows -> len r = W /\ forallb clean r = true) ->
  exists c g,
    convert file (map grid_line rows) listing = (c, None) /\
    load_game (config_lines c) (cells_lines c) init = Done g tt /\
    width (properties g) = W /\ height (properties g) = len rows /\
    _update_grid g (_generate_grid g)
    = Some (map (map (fun a => String a EmptyString)) rows).
Proof.
  intros G Lst BH BW R.
  assert (Rn : rows <> []) by (intros ->; cbn in BH; lia).
  assert (Lw : len (last rows []) = W) by (apply R, last_In, Rn).
  destruct (@convert_clean file rows listing G Lst Rn)
    as (cf & c & Ec & Wf & X & Fc & Fg).
  { intros r I. destruct (R r I) as [Lr Cr]. split; [|exact Cr].
    intros ->. cbn in Lr. lia. }
  exists c. rewrite Fc, Fg, Lw. unfold load_game.
  rewrite (load_converted_config BH BW). cbn [bind]. unfold load_cells.
  set (g0 := with_properties init
               (mkProperties W (len rows) 4 4 512 3 "true")).
  assert (P0 : paints g0 []).
  { split; [apply sound_init|]. intros p. unfold pic.
    destruct (_ && _); [|reflexivity]. now destruct (Z.to_nat (snd p)). }
  destruct (@rows_paints cf 0 g0 [] Wf P0 eq_refl) as (g & Eg & [Sg Pg]).
  destruct (@rows_spec cf 0 g0 Wf) as (g' & Eg' & Pr & Kg).
  rewrite Eg in Eg'. injection Eg' as <-. cbn [app] in Pg. rewrite X in Pg.
  exists g. split; [exact Ec|]. split; [exact Eg|].
  rewrite Pr. cbn [g0 with_properties properties width height].
  split; [reflexivity|]. split; [reflexivity|].
  assert (Bk : forall k, In k (PyDict.keys (cells g)) ->
                         0 <= fst k < W /\ 0 <= snd k < len rows).
  { intros k I. apply Kg in I. destruct I as [[]|I].
    apply (@covered_file_bounds W) in I; [|exact Wf|].
    - rewrite <- X, len_map. lia.
    - intros ts J. rewrite row_width_expand
        by (apply (proj1 (forallb_forall _ _) Wf), J).
      apply R. rewrite <- X. now apply in_map. }
  assert (Sh : shaped W (len rows) (_generate_grid g)).
  { assert (S := generate_grid_shaped g). rewrite Pr in S.
    cbn [g0 with_properties properties width height] in S.
    now rewrite !Z.max_r in S by lia. }
  destruct Sg as ((ND & _) & _).
  destruct (@place_cells_on g W (len rows) (cells g) (_generate_grid g)
              Sh ND Bk) as (grid & E & S & A).
  unfold _update_grid. rewrite E. f_equal.
  apply (@grid_ext W (len rows)); [exact S| |].
  - split; [now rewrite len_map|]. intros l I.
    apply in_map_iff in I. destruct I as (r & <- & I).
    rewrite len_map. now apply R.
  - intros x y Bx By. rewrite (A x y) by lia.
    destruct (nth_error rows (Z.to_nat y)) as [r|] eqn:Er.
    2:{ apply nth_error_None in Er. unfold len in By. lia. }
    assert (Lr : len r = W) by (apply R; eapply nth_error_In; eauto).
    rewrite pic_grid_at;
      [|lia|lia|exists r; unfold len in Lr; split; [exact Er|lia]].
    rewrite <- Pg. unfold shown.
    destruct (@PyDict.get pos Cell _ (cells g) (x, y)); [reflexivity|].
    apply generate_grid_at. unfold in_bounds. rewrite Pr.
    cbn [g0 with_properties properties width height fst snd]. lia.
Qed.

Lemma convert_load_draw_witness :
  endswith "game.grid" ".grid" = true /\
  10 <= len grid_example <= 50 /\
  (forall r, In r grid_example -> len r = 10 /\ forallb clean r = true) /\
  exists c g,
    convert "game.grid" (map grid_line grid_example) [] = (c, None) /\
    load_game (config_lines c) (cells_lines c) init = Done g tt /\
    width (properties g) = 10 /\ height (properties g) = len grid_example /\
    _update_grid g (_generate_grid g)
    = Some (map (map (fun a => String a EmptyString)) grid_example).
Proof.
  assert (G : endswith "game.grid" ".grid" = true) by reflexivity.
  assert (B : 10 <= len grid_example <= 50)
    by (vm_compute; split; discriminate).
  assert (R : forall r, In r grid_example ->
                        len r = 10 /\ forallb clean r = true).
  { intros r I. unfold grid_example in I. apply in_app_iff in I.
    destruct I as [I|I]; apply repeat_spec in I; subst r;
      split; reflexivity. }
  split; [exact G|]. split; [exact B|]. split; [exact R|].
  apply (@convert_load_draw "game.grid" grid_example [] 10 G eq_refl B);
    [lia | exact R].
Defined.

(** ** The registry over the rounds of a game *)

Lemma pass_A_frame g : frame g (state_of (pass_A g)).
Proof.
  unfold pass_A. apply for_each_invariant.
  - repeat split. tauto.
  - intros r c F _. now apply age_step_frame.
Qed.

Lemma pass_B_frame set_order g r :
  frame g r -> frame g (state_of (pass_B set_order r)).
Proof.
  intros F. unfold pass_B. apply for_each_invariant; [exact F|].
  intros r' p F' _. now apply revive_step_frame.
Qed.

Lemma rounds_frame set_order n : forall g g',
  rounds set_order n g = Some g' ->
  (forall e, In e (teams g') -> In e (teams g)) /\
  properties g' = properties g /\ team_view g' = team_view g.
Proof.
  induction n as [|n IH]; intros g g' E; cbn [rounds] in E.
  - injection E as <-. repeat split. tauto.
  - unfold _update_cells in E. assert (FA := pass_A_frame g).
    destruct (pass_A g) as [rA []|rA e]; [|discriminate E].
    cbn [state_of] in FA. assert (FB := @pass_B_frame set_order g rA FA).
    destruct (pass_B set_order rA) as [rB []|rB e]; [|discriminate E].
    cbn [state_of] in FB. destruct FB as (_ & P & V & _ & T).
    destruct (IH _ _ E) as (T' & P' & V').
    cbn [with_cells teams properties team_view] in *.
    split; [|split; congruence]. intros e I. now apply T, T'.
Qed.

Lemma rounds_split set_order k : forall m g,
  rounds set_order (k + m) g
  = match rounds set_order k g with
    | Some gk => rounds set_order m gk
    | None => None
    end.
Proof.
  induction k as [|k IH]; intros m g; [reflexivity|].
  cbn [Nat.add rounds].
  destruct (_update_cells set_order g) as [g1 []|g1 e];
    [apply IH | reflexivity].
Qed.

(** X16. The winner never left the registry. When [start] returns a winner,
    that team is in the final registry under some view, and it was in the
    registry under that view when the game started and after every round
    of the game; the properties and the views of the teams are at the end
    what they were at the start. So a team that was removed once is never
    the winner. *)
Theorem winner_never_left_registry set_order g g' out w :
  start set_order g = Done (g', out) w ->
  properties g' = properties g /\ team_view g' = team_view g /\
  exists v,
    In (v, w) (teams g') /\
    forall k gk, (k <= Z.to_nat (win_round (properties g)))%nat ->
                 rounds set_order k g = Some gk -> In (v, w) (teams gk).
Proof.
  intros E. unfold start in E.
  destruct (refresh (properties g) =? 0); [discriminate E|].
  destruct (_update_grid g (_generate_grid g)) as [grid|]; [|discriminate E].
  destruct (game_loop set_order (Z.to_nat (win_round (properties g))) 0 grid g
              [(0, grid)]) as [[g1 out1] [[found rn] grid1]|s e] eqn:L;
    [|discriminate E].
  apply game_loop_done in L. destruct L as (-> & R & _).
  cbn [bind fst snd] in E.
  destruct (sorted_desc (team_score g1) (PyDict.values (teams g1)))
    as [|winner rest] eqn:Es; [discriminate E|].
  injection E as <- _ <-.
  destruct (rounds_frame _ _ _ R) as (_ & P & V).
  split; [exact P|]. split; [exact V|].
  assert (I : In winner (PyDict.values (teams g1))).
  { eapply Permutation_in; [apply Permutation_sym, sorted_desc_perm|].
    rewrite Es. now left. }
  destruct (values_In _ _ I) as (v & Iv). exists v. split; [exact Iv|].
  intros k gk Lk Rk.
  replace (Z.to_nat (win_round (properties g)))
    with (k + (Z.to_nat (win_round (properties g)) - k))%nat in R by lia.
  rewrite rounds_split, Rk in R.
  now apply (rounds_frame _ _ _ R).
Qed.

Lemma winner_never_left_registry_witness :
  exists g' out,
    start insertion_order game_short = Done (g', out) 0%N /\
    In ("a"%string, 0%N) (teams g') /\
    In ("a"%string, 0%N) (teams game_short) /\
    properties g' = properties game_short.
Proof.
  destruct (start insertion_order game_short) as [[g' out] w|s e] eqn:E.
  - assert (W : w = 0%N).
    { apply (f_equal (fun o => match o with
                               | Done _ w => Some w
                               | Raised _ _ => None
                               end)) in E.
      vm_compute in E. now injection E as <-. }
    subst w. exists g', out. split; [reflexivity|].
    destruct (winner_never_left_registry _ _ E) as (P & _ & v & Iv & A).
    assert (I0 := A O game_short ltac:(lia) eq_refl).
    assert (Ev : v = "a"%string).
    { vm_compute in I0. destruct I0 as [I0|[I0|[]]];
        [now injection I0 as <- | discriminate I0]. }
    subst v. split; [exact Iv|]. split; [exact I0 | exact P].
  - exfalso.
    apply (f_equal (fun o => match o with
                             | Done _ _ => true
                             | Raised _ _ => false
                             end)) in E.
    vm_compute in E. discriminate E.
Defined.

(** ** A grid whose rows differ in width *)

(** X17. [convert] takes the width from the last row. For a grid of 10 to
    50 non-empty rows of clean characters whose last row has between 10 and
    100 characters, [convert] and [load_game] succeed and the width
    property is the width of the last row; if some row has a character
    other than [.] at a column from that width on, [start] raises
    IndexError when it draws the initial grid. *)
Theorem convert_ragged_grid set_order file rows listing :
  endswith file ".grid" = true ->
  filter (fun f => endswith f ".config") listing = [] ->
  10 <= len rows <= 50 -> 10 <= len (last rows []) <= 100 ->
  (forall r, In r rows -> r <> [] /\ forallb clean r = true) ->
  exists c g,
    convert file (map grid_line rows) listing = (c, None) /\
    load_game (config_lines c) (cells_lines c) init = Done g tt /\
    width (properties g) = len (last rows []) /\
    height (properties g) = len rows /\
    forall x y r a,
      nth_error rows y = Some r -> nth_error r x = Some a ->
      a <> "."%char -> len (last rows []) <= Z.of_nat x ->
      start set_order g = Raised (g, []) IndexError.
Proof.
  intros G Lst BH BW R.
  assert (Rn : rows <> []) by (intros ->; cbn in BH; lia).
  destruct (@convert_clean file rows listing G Lst Rn R)
    as (cf & c & Ec & Wf & X & Fc & Fg).
  exists c. rewrite Fc, Fg. unfold load_game.
  rewrite (load_converted_config BH BW). cbn [bind]. unfold load_cells.
  set (W := len (last rows [])) in *.
  set (g0 := with_properties init
               (mkProperties W (len rows) 4 4 512 3 "true")).
  assert (P0 : paints g0 []).
  { split; [apply sound_init|]. intros p. unfold pic.
    destruct (_ && _); [|reflexivity]. now destruct (Z.to_nat (snd p)). }
  destruct (@rows_paints cf 0 g0 [] Wf P0 eq_refl) as (g & Eg & [Sg Pg]).
  assert (Pr : properties g = properties g0).
  { destruct (@rows_spec cf 0 g0 Wf) as (g' & Eg' & Pr & _).
    rewrite Eg in Eg'. now injection Eg' as <-. }
  cbn [app] in Pg. rewrite X in Pg.
  exists g. split; [exact Ec|]. split; [exact Eg|].
  rewrite Pr. cbn [g0 with_properties properties width height].
  split; [reflexivity|]. split; [reflexivity|].
  intros x y r a Er Ea Na Lx.
  assert (I : In (Z.of_nat x, Z.of_nat y) (PyDict.keys (cells g))).
  { specialize (Pg (Z.of_nat x, Z.of_nat y)). unfold shown, pic in Pg.
    cbn [fst snd] in Pg. rewrite !Nat2Z.id, Er, Ea in Pg.
    replace ((0 <=? Z.of_nat x) && (0 <=? Z.of_nat y)) with true in Pg
      by (symmetry; apply andb_true_iff; split; apply Z.leb_le; lia).
    destruct (PyDict.get (cells g) (Z.of_nat x, Z.of_nat y)) eqn:Gk.
    - eapply get_Some_key; eauto.
    - exfalso. injection Pg as Pg. apply Na. now symmetry. }
  assert (E : _update_grid g (_generate_grid g) = None).
  { unfold _update_grid.
    apply (@place_cells_off g _ _ (cells g) (_generate_grid g)
             (Z.of_nat x) (Z.of_nat y) (generate_grid_shaped g) I).
    rewrite Pr. cbn [g0 with_properties properties width]. lia. }
  unfold start. rewrite E, Pr. reflexivity.
Qed.

Lemma convert_ragged_grid_witness :
  10 <= len grid_ragged <= 50 /\ len (last grid_ragged []) = 10 /\
  nth_error grid_ragged 0 = Some (chars "..........x") /\
  exists c g,
    convert "game.grid" (map grid_line grid_ragged) [] = (c, None) /\
    load_game (config_lines c) (cells_lines c) init = Done g tt /\
    width (properties g) = len (last grid_ragged []) /\
    start insertion_order g = Raised (g, []) IndexError.
Proof.
  assert (B : 10 <= len grid_ragged <= 50)
    by (vm_compute; split; discriminate).
  split; [exact B|]. split; [reflexivity|]. split; [reflexivity|].
  destruct (@convert_ragged_grid insertion_order "game.grid" grid_ragged []
              eq_refl eq_refl B) as (c & g & Ec & Eg & Ew & _ & S).
  - vm_compute. split; discriminate.
  - intros r [<-|I]; [split; [discriminate | reflexivity]|].
    apply repeat_spec in I. subst r. split; [discriminate | reflexivity].
  - exists c, g. split; [exact Ec|]. split; [exact Eg|]. split; [exact Ew|].
    apply (S 10%nat 0%nat (chars "..........x") "x"%char).
    + reflexivity.
    + reflexivity.
    + discriminate.
    + vm_compute. discriminate.
Defined.

(** ** What [start] prints *)

Lemma update_cells_properties set_order g g' :
  _update_cells set_order g = Done g' tt -> properties g' = properties g.
Proof.
  intros E. apply (@rounds_frame set_order 1 g g'). cbn [rounds].
  now rewrite E.
Qed.

(** The grids that the loop prints: one for each round when the output
    property is [true], none otherwise; the grid it hands on is the picture
    of the game it ends with. *)
Lemma game_loop_out set_order d n :
  forall rn grid g out g' out' found rn' grid',
  _update_grid g (_generate_grid g) = Some grid ->
  (output (properties g) = "true"%string -> last out d = (rn, grid)) ->
  game_loop set_order n rn grid g out = Done (g', out') (found, rn', grid') ->
  _update_grid g' (_generate_grid g') = Some grid' /\
  (output (properties g) = "true"%string ->
   last out' d = (rn', grid') /\
   map fst out' = (map fst out ++ py_range (rn + 1) (rn + Z.of_nat n + 1))%list)
  /\ (output (properties g) <> "true"%string -> out' = out).
Proof.
  induction n as [|n IH]; intros rn grid g out g' out' found rn' grid' H1 H2 E.
  - cbn in E. injection E as <- <- <- <- <-.
    rewrite py_range_nil by lia. split; [exact H1|].
    split; [|reflexivity]. intros T. split; [now apply H2|].
    now rewrite app_nil_r.
  - rewrite game_loop_S in E.
    destruct (_update_cells set_order g) as [g1 []|g1 e] eqn:U;
      [|discriminate E].
    assert (P := @update_cells_properties set_order g g1 U).
    destruct (_update_grid g1 (_generate_grid g1)) as [grid1|] eqn:G1;
      [|discriminate E].
    cbv zeta in E. destruct (len (teams g1) =? 1); [discriminate E|].
    apply IH in E; [|exact G1|].
    + rewrite P in E. destruct E as (G & T & F). split; [exact G|].
      destruct (String.eqb_spec (output (properties g)) "true") as [e|ne].
      * split; [|congruence]. intros _. destruct (T e) as [L M].
        split; [exact L|]. rewrite M, map_app. cbn [map fst].
        rewrite <- app_assoc. cbn [app].
        rewrite (@py_range_cons (rn + 1)) by lia. do 3 f_equal. lia.
      * split; [congruence|]. intros _. now apply F.
    + rewrite P. intros T. apply String.eqb_eq in T. rewrite T.
      apply last_last.
Qed.

(** X18. What [start] prints. When [start] returns on a game with a
    non-negative round limit: with the output property [true] it has
    printed one grid for each of the rounds 0, 1, ..., win-round, in this
    order; with the output property [false] it has printed two grids, for
    round 0 and for round win-round. In both cases the last grid printed is
    the picture of the final game. *)
Theorem start_prints set_order g g' out w :
  0 <= win_round (properties g) ->
  start set_order g = Done (g', out) w ->
  let W := win_round (properties g) in
  map fst out
  = (if String.eqb (output (properties g)) "true" then py_range 0 (W + 1)
     else if String.eqb (output (properties g)) "false" then [0; W]
          else [0]) /\
  (output (properties g) = "true"%string \/
   output (properties g) = "false"%string ->
   exists grid,
     _update_grid g' (_generate_grid g') = Some grid /\
     last out (0, []) = (W, grid)).
Proof.
  intros N E W. unfold start in E.
  destruct (refresh (properties g) =? 0); [discriminate E|].
  destruct (_update_grid g (_generate_grid g)) as [grid|] eqn:G0;
    [|discriminate E].
  destruct (game_loop set_order (Z.to_nat (win_round (properties g))) 0 grid g
              [(0, grid)]) as [[g1 out1] [[found rn] grid1]|s e] eqn:L;
    [|discriminate E].
  assert (D := game_loop_done _ _ _ _ _ _ L). destruct D as (-> & R & Rn).
  destruct (rounds_frame _ _ _ R) as (_ & P & _).
  apply (@game_loop_out set_order (0, [])) in L;
    [|exact G0|intros _; reflexivity].
  destruct L as (G1 & T & F). cbn [bind fst snd] in E.
  destruct (sorted_desc (team_score g1) (PyDict.values (teams g1)))
    as [|winner rest]; [discriminate E|].
  injection E as <- <- _. rewrite P. rewrite Z2Nat.id in * by exact N.
  fold W in Rn, T. cbn [Z.add] in Rn. subst rn.
  destruct (String.eqb_spec (output (properties g)) "true") as [e|ne].
  - destruct (T e) as [La M]. rewrite e. cbn [String.eqb Ascii.eqb Bool.eqb].
    split.
    + rewrite M. cbn [map fst app]. rewrite (@py_range_cons 0) by lia.
      reflexivity.
    + intros _. exists grid1. now split.
  - rewrite (F ne). destruct (String.eqb_spec (output (properties g)) "false")
      as [e'|ne'].
    + split; [reflexivity|]. intros _. exists grid1. split; [exact G1|].
      reflexivity.
    + split; [reflexivity|]. intros [X|X]; congruence.
Qed.

Lemma start_prints_witness :
  0 <= win_round (properties game_short) /\
  exists g' out,
    start insertion_order game_short = Done (g', out) 0%N /\
    map fst out = [0; 128].
Proof.
  assert (N : 0 <= win_round (properties game_short))
    by (vm_compute; discriminate).
  split; [exact N|].
  destruct (start insertion_order game_short) as [[g' out] w|s e] eqn:E.
  - assert (W : w = 0%N).
    { apply (f_equal (fun o => match o with
                               | Done _ w => Some w
                               | Raised _ _ => None
                               end)) in E.
      vm_compute in E. now injection E as <-. }
    subst w. exists g', out. split; [reflexivity|].
    destruct (@start_prints insertion_order game_short g' out 0%N N E)
      as [M _].
    exact M.
  - exfalso.
    apply (f_equal (fun o => match o with
                             | Done _ _ => true
                             | Raised _ _ => false
                             end)) in E.
    vm_compute in E. discriminate E.
Defined.
